(** * Shallow embeddings of [src/jsont.cc] and [src/statement.hh]

    [jsont.cc] is a JSON tokenizer: it owns a cursor into a borrowed byte
    buffer and produces one token per call of [next].  Every function of
    [jsont.cc] is transcribed below as a computation in a small state monad
    over the [Tokenizer] record.  A read
    [_input[i]] is a checked read: outside the buffer the computation stops
    with [OutOfBounds], which stands for the undefined behaviour of
    [std::string_view::operator[]] at [i >= size()].

    [statement.hh] holds the statement classes of a script; each writes
    itself as text. *)

From Stdlib Require Import String List Ascii Bool Arith Lia ZArith QArith.
From Stdlib Require MSetAVL OrdersEx.
Import ListNotations.
Close Scope Q_scope.

Set Implicit Arguments.

(** * The statements of [src/statement.hh]

    A statement writes itself to an output stream; the text it appends is
    modelled as a list of bytes.  [expression.hh] and the class [driver] are
    not part of the sources: the type of expressions, the text
    [Expression::write] appends and the type of drivers are parameters. *)

Module statement.

Module StringSet := MSetAVL.Make OrdersEx.String_as_OT.

#[local] Set Warnings "-register-all".

(** The static set [GlobalVariableStatement::variables] is threaded through
    as [variables]. *)
Definition add_global (var : string) (variables : StringSet.t)
  : bool * StringSet.t :=
  (negb (StringSet.mem var variables), StringSet.add var variables).

Definition is_global (var : string) (variables : StringSet.t) : bool :=
  StringSet.mem var variables.

Section Statements.

Variable Expression : Type.
Variable Expression_write : Expression -> list ascii.
Variable driver : Type.

(** A string literal or a [std::string] written to the stream. *)
Definition text (s : string) : list ascii := list_ascii_of_string s.

(** The character '\n'. *)
Definition newline : list ascii := ["010"%char].

(** [std::string(indent, ' ')] *)
Definition getIndent (indent : nat) : list ascii := repeat " "%char indent.

(** The members of [TopLevelStatement], with the statements it inherits from
    [BlockStatement]; [headerVariables] is the [std::map] in the order of
    its keys.  [S] is the type of statements. *)
Record TopLevel (S : Type) : Type := {
  drv : driver;
  name : string;
  headerVariables : list (string * bool);
  statements : list S
}.

(** The members of [KnotStatement]: those of [TopLevelStatement] and the
    stitches, each an object of class [StitchStatement]. *)
Record Knot (S : Type) : Type := {
  top : TopLevel S;
  stitches : list (TopLevel S)
}.

(** The classes derived from [Statement], one constructor each.  A
    [std::unique_ptr] that the code dereferences without a test owns an
    object; the [elseStmt] of an [IfStatement], which the code tests, may
    be empty. *)
Inductive Statement : Type :=
| SetStatement (varName : string)
| ExpressionStatement (expression : Expression)
| BlockStatement (block : list Statement)
| ElseStatement (block : list Statement)
| IfStatement (condExpr : Expression) (thenStmt : Statement)
              (elseStmt : option Statement)
| GlobalVariableStatement (varName varValue : string)
| TopLevelStatement (t : TopLevel Statement)
| StitchStatement (t : TopLevel Statement)
| KnotStatement (k : Knot Statement)
| FunctionStatement (t : TopLevel Statement).

(** The loop of [write_header_base] over the header variables; [firstVar]
    is the flag of the code, which the loop sets to [true] again where it
    has found it [false]. *)
Fixpoint write_header_variables (vars : list (string * bool)) (firstVar : bool)
  : list ascii :=
  match vars with
  | [] => []
  | (varName, isRef) :: rest =>
      (if negb firstVar then text ", " else [])
      ++ (if isRef then text "ref " else [])
      ++ text varName
      ++ write_header_variables rest (if negb firstVar then true else firstVar)
  end.

Definition write_header_base (S : Type) (t : TopLevel S) : list ascii :=
  text (name t)
  ++ match headerVariables t with
     | [] => []
     | _ :: _ =>
         text "(" ++ write_header_variables (headerVariables t) true ++ text ")"
     end.

(** [write_header] of the four classes with a header; the one of
    [TopLevelStatement] writes nothing. *)
Definition write_header_TopLevel (S : Type) (t : TopLevel S) : list ascii := [].

Definition write_header_Stitch (S : Type) (t : TopLevel S) : list ascii :=
  text "= " ++ write_header_base t ++ newline.

Definition write_header_Knot (S : Type) (t : TopLevel S) : list ascii :=
  text "=== " ++ write_header_base t ++ text " ===" ++ newline.

Definition write_header_Function (S : Type) (t : TopLevel S) : list ascii :=
  text "=== function " ++ write_header_base t ++ text " ===" ++ newline.

(** [write(out, indent)]: the text that [write_impl] of the statement's
    class appends.  [block] is [BlockStatement::write_impl]; the
    [write_impl] of [TopLevelStatement] calls the virtual [write_header] of
    the object it runs on. *)
Fixpoint write (s : Statement) (indent : nat) {struct s} : list ascii :=
  let block :=
    fix block (l : list Statement) (indent : nat) {struct l} : list ascii :=
      match l with
      | [] => []
      | elem :: rest => write elem indent ++ block rest indent
      end in
  let stitch (t : TopLevel Statement) (indent : nat) : list ascii :=
    write_header_Stitch t
    ++ (match t with {| statements := l |} => block l indent end)
    ++ newline in
  match s with
  | SetStatement varName => getIndent indent ++ text "~ " ++ text varName
  | ExpressionStatement expression =>
      getIndent indent ++ text "~ " ++ Expression_write expression ++ newline
  | BlockStatement l => block l indent
  | ElseStatement l =>
      getIndent indent ++ text "- else:" ++ newline ++ block l (indent + 4)
  | IfStatement condExpr thenStmt elseStmt =>
      getIndent indent ++ text "- " ++ Expression_write condExpr ++ newline
      ++ write thenStmt (indent + 4)
      ++ match elseStmt with
         | Some e => write e indent ++ newline
         | None => []
         end
  | GlobalVariableStatement varName varValue =>
      text "VAR " ++ text varName ++ text " = " ++ text varValue ++ newline
  | TopLevelStatement t =>
      write_header_TopLevel t
      ++ (match t with {| statements := l |} => block l indent end)
      ++ newline
  | StitchStatement t => stitch t indent
  | KnotStatement k =>
      match k with
      | {| top := t; stitches := ss |} =>
          write_header_Knot t
          ++ (write_header_Knot t
              ++ (match t with {| statements := l |} => block l indent end)
              ++ newline)
          ++ newline
          ++ (fix each (l : list (TopLevel Statement)) : list ascii :=
                match l with
                | [] => []
                | elem :: rest => stitch elem indent ++ each rest
                end) ss
          ++ newline
      end
  | FunctionStatement t =>
      write_header_Function t
      ++ (match t with {| statements := l |} => block l indent end)
      ++ newline
  end.

(** [BlockStatement::add_statement], [steal_statements] and
    [get_statements] on the vector of statements of a block;
    [steal_statements] swaps the two vectors: the pair is the block's and the
    other one afterwards. *)
Definition add_statement (S : Type) (stmt : S) (statements : list S) : list S :=
  statements ++ [stmt].

Definition steal_statements (S : Type) (other statements : list S)
  : list S * list S :=
  (other, statements).

Definition get_statements (S : Type) (t : TopLevel S) : list S := statements t.

Definition set_statements (S : Type) (l : list S) (t : TopLevel S) : TopLevel S :=
  {| drv := drv t; name := name t; headerVariables := headerVariables t;
     statements := l |}.

Definition getName (S : Type) (t : TopLevel S) : string := name t.

(** [KnotStatement::add_stitch]: the stitch is consumed.  One that is named
    like the knot swaps its statements with the knot's and is destroyed
    with the statements the knot had; any other is appended to the
    stitches. *)
Definition add_stitch (S : Type) (stitch : TopLevel S) (k : Knot S) : Knot S :=
  if (getName stitch =? getName (top k))%string
  then {| top := set_statements
                   (fst (steal_statements (get_statements stitch)
                           (statements (top k))))
                   (top k);
          stitches := stitches k |}
  else {| top := top k; stitches := stitches k ++ [stitch] |}.

(** The constructor [GlobalVariableStatement(name, value)] registers the
    name. *)
Definition new_GlobalVariableStatement (name value : string)
           (variables : StringSet.t) : Statement * StringSet.t :=
  (GlobalVariableStatement name value, snd (add_global name variables)).

End Statements.

End statement.

(** * The tokenizer of [src/jsont.cc] *)

(** ** Outcomes and the state monad *)

Inductive outcome (A : Type) : Type :=
| Ok (a : A)
| OutOfBounds   (* a byte was read at an index >= the length of its buffer *)
| Terminated    (* an exception left a [noexcept] function: std::terminate *)
| OutOfFuel.    (* the loop bound of the embedding was too small *)

Arguments Ok {A} a.
Arguments OutOfBounds {A}.
Arguments Terminated {A}.
Arguments OutOfFuel {A}.

Definition obind {A B : Type} (o : outcome A) (k : A -> outcome B) : outcome B :=
  match o with
  | Ok a => k a
  | OutOfBounds => OutOfBounds
  | Terminated => Terminated
  | OutOfFuel => OutOfFuel
  end.

Declare Scope outcome_scope.
Delimit Scope outcome_scope with outcome.
Notation "'let*' x := o 'in' k" := (obind o (fun x => k))
  (at level 10, x pattern, o at level 100, k at level 200) : outcome_scope.

Module jsont.

(** ** Bytes *)

Definition NUL : ascii := "000"%char.
Definition DQUOTE : ascii := "034"%char.
Definition BACKSLASH : ascii := "\"%char.

Definition byte_in (lo hi c : ascii) : bool :=
  (nat_of_ascii lo <=? nat_of_ascii c) && (nat_of_ascii c <=? nat_of_ascii hi).

(** [isdigit] and [isalnum] of the C locale. *)
Definition safe_isdigit (c : ascii) : bool := byte_in "0" "9" c.

Definition safe_isalnum (c : ascii) : bool :=
  safe_isdigit c || byte_in "A" "Z" c || byte_in "a" "z" c.

Definition is_plus_minus (c : ascii) : bool :=
  (c =? "+")%char || (c =? "-")%char.

Definition is_exponent_introducer (c : ascii) : bool :=
  (c =? "E")%char || (c =? "e")%char.

(** The four bytes of the [switch] in [skipWS]. *)
Definition is_ws (c : ascii) : bool :=
  (c =? " ")%char || (c =? "009")%char || (c =? "013")%char || (c =? "010")%char.

Fixpoint bytes_eqb (a b : list ascii) : bool :=
  match a, b with
  | [], [] => true
  | x :: a', y :: b' => (x =? y)%char && bytes_eqb a' b'
  | _, _ => false
  end.

(** ** Tokens, error codes and the tokenizer state *)

(** Modelled from the spec: the enumeration is declared in [jsont.hh], which
    is missing; its thirteen tokens are those of the spec, and [jsont.cc]
    names all of them but [Error].  [Comma] is no token of the interface: it
    is the mark a legal comma leaves in [_token] as the last significant
    byte, and it is never handed to the caller. *)
Inductive Token : Set :=
| End | ObjectStart | ObjectEnd | ArrayStart | ArrayEnd
| True | False | Null | Integer | Float | String | FieldName
| Error | Comma.

Inductive ErrorCode : Set :=
| UnexpectedComma
| UnexpectedTrailingComma
| InvalidByte
| PrematureEndOfInput
| MalformedUnicodeEscapeSequence
| MalformedNumberLiteral
| UnterminatedString
| SyntaxError
| UnspecifiedError.

Definition Token_eqb (a b : Token) : bool :=
  match a, b with
  | End, End | ObjectStart, ObjectStart | ObjectEnd, ObjectEnd
  | ArrayStart, ArrayStart | ArrayEnd, ArrayEnd | True, True
  | False, False | Null, Null | Integer, Integer | Float, Float
  | String, String | FieldName, FieldName | Error, Error
  | Comma, Comma => true
  | _, _ => false
  end.

(** A [std::string_view] into the input buffer: the index of its first byte
    and its size. *)
Record string_view : Set := { sv_data : nat; sv_size : nat }.

Record Tokenizer : Set := {
  _input : list ascii;
  _offset : nat;
  _token : Token;
  _value : string_view;
  _error : ErrorCode
}.

Definition with_offset (o : nat) (t : Tokenizer) : Tokenizer :=
  {| _input := _input t; _offset := o; _token := _token t;
     _value := _value t; _error := _error t |}.

Definition with_token (k : Token) (t : Tokenizer) : Tokenizer :=
  {| _input := _input t; _offset := _offset t; _token := k;
     _value := _value t; _error := _error t |}.

Definition with_value (v : string_view) (t : Tokenizer) : Tokenizer :=
  {| _input := _input t; _offset := _offset t; _token := _token t;
     _value := v; _error := _error t |}.

Definition with_error (e : ErrorCode) (t : Tokenizer) : Tokenizer :=
  {| _input := _input t; _offset := _offset t; _token := _token t;
     _value := _value t; _error := e |}.

(** Modelled from the spec: the constructor and [reset] are declared in
    [jsont.hh], which is missing; a tokenizer over a buffer starts with the
    cursor at offset 0, and no token, value or error has been produced. *)
Definition reset (bytes : list ascii) : Tokenizer :=
  {| _input := bytes; _offset := 0; _token := End;
     _value := {| sv_data := 0; sv_size := 0 |};
     _error := UnspecifiedError |}.

(** The bytes a view denotes. *)
Definition sv_bytes (input : list ascii) (v : string_view) : list ascii :=
  firstn (sv_size v) (skipn (sv_data v) input).

(** The view [_input.substr(pos, n)] for [pos <= size()]: the count is
    clipped to the end of the buffer. *)
Definition subview (input : list ascii) (pos n : nat) : string_view :=
  {| sv_data := pos; sv_size := Nat.min n (length input - pos) |}.

Definition M (A : Type) : Type := Tokenizer -> outcome (A * Tokenizer).

Definition ret {A : Type} (a : A) : M A := fun t => Ok (a, t).

Definition bind {A B : Type} (m : M A) (k : A -> M B) : M B :=
  fun t => obind (m t) (fun r => k (fst r) (snd r)).

Declare Scope tok_scope.
Delimit Scope tok_scope with tok.
Notation "x <- m ;; k" := (bind m (fun x => k))
  (at level 61, m at next level, right associativity) : tok_scope.
Notation "m ;; k" := (bind m (fun _ => k))
  (at level 61, right associativity) : tok_scope.
Local Open Scope tok_scope.

Definition gets {A : Type} (f : Tokenizer -> A) : M A := fun t => Ok (f t, t).

Definition modify (f : Tokenizer -> Tokenizer) : M unit := fun t => Ok (tt, f t).

(** [_input[i]] *)
Definition input_at (i : nat) : M ascii :=
  fun t =>
    match nth_error (_input t) i with
    | Some c => Ok (c, t)
    | None => OutOfBounds
    end.

(** [_input.substr(pos, n)] throws [std::out_of_range] when [pos > size()];
    the callers are [noexcept]. *)
Definition substr (pos n : nat) : M string_view :=
  fun t =>
    if length (_input t) <? pos then Terminated
    else Ok (subview (_input t) pos n, t).

(** [_input.compare(pos, n, atom) != 0] compares [substr(pos, n)] with
    [atom]; only equality is observed by the caller. *)
Definition compare_ne (pos n : nat) (atom : list ascii) : M bool :=
  v <- substr pos n ;;
  input <- gets _input ;;
  ret (negb (bytes_eqb (sv_bytes input v) atom)).

(** [_offset++], [--_offset] and [_offset += n] as statements.  The offset is
    a [size_t]; every decrement below follows an increment and the offset
    never passes the buffer length in a computation that returns, so the
    arithmetic never wraps and [nat] is exact. *)
Definition offset_inc : M unit := modify (fun t => with_offset (S (_offset t)) t).
Definition offset_dec : M unit := modify (fun t => with_offset (pred (_offset t)) t).
Definition offset_add (n : nat) : M unit := modify (fun t => with_offset (_offset t + n) t).

(** [_input[_offset++]] *)
Definition input_next : M ascii :=
  o <- gets _offset ;; b <- input_at o ;; offset_inc ;; ret b.

(** ** Members declared in [jsont.hh] *)

(** Modelled from the spec: [jsont.hh] is missing; the cursor obeys
    [0 <= offset <= length] and the input is exhausted when it has reached
    the length. *)
Definition endOfInput (t : Tokenizer) : bool := length (_input t) <=? _offset t.

(** Modelled from the spec: [jsont.hh] is missing; the number of bytes from
    the cursor to the end of the buffer. *)
Definition availableInput (t : Tokenizer) : nat := length (_input t) - _offset t.

(** Modelled from the spec: [jsont.hh] is missing; the tokens that carry a
    value are [FieldName], [String], [Integer] and [Float]. *)
Definition hasValue (t : Tokenizer) : bool :=
  match _token t with
  | FieldName | String | Integer | Float => true
  | _ => false
  end.

(** Modelled from the spec: [jsont.hh] is missing; exactly one token is
    current after each call, and [setToken] makes its argument current. *)
Definition setToken (k : Token) : M Token :=
  modify (with_token k) ;; ret k.

(** Modelled from the spec: [jsont.hh] is missing; a failure is the [Error]
    token together with its error code. *)
Definition setError (e : ErrorCode) : M Token :=
  modify (fun t => with_token Error (with_error e t)) ;; ret Error.

(** Modelled from the spec: [jsont.hh] is missing; the current token. *)
Definition current : M Token := gets _token.

(** Modelled from the spec: [jsont.hh] is missing; a comma is legal only
    after a value, a ']' or a '}'. *)
Definition comma_allowed_after (k : Token) : bool :=
  match k with
  | String | Integer | Float | True | False | Null | ObjectEnd | ArrayEnd => true
  | _ => false
  end.

(** Modelled from the spec: [jsont.hh] is missing; a comma with nothing
    meaningful before it is [UnexpectedComma]; a legal comma produces no token
    of its own: it is remembered as the last significant byte and scanning
    goes on with the token after it ([again] is the rest of this call of
    [next]). *)
Definition readComma (again : M Token) : M Token :=
  k <- gets _token ;;
  if comma_allowed_after k then modify (with_token Comma) ;; again
  else setError UnexpectedComma.

(** Modelled from the spec: [jsont.hh] is missing; a closing bracket that
    directly follows a comma is [UnexpectedTrailingComma], otherwise the
    bracket's token is produced. *)
Definition readEndBracket (token : Token) : M Token :=
  k <- gets _token ;;
  if Token_eqb k Comma then setError UnexpectedTrailingComma
  else setToken token.

(** ** The scanner of [jsont.cc] *)

Definition readAtom (atom : list ascii) (token : Token) : M Token :=
  avail <- gets availableInput ;;
  if avail <? length atom then setError PrematureEndOfInput
  else
    o <- gets _offset ;;
    ne <- compare_ne o (length atom) atom ;;
    if ne then setError InvalidByte
    else
      follows <- (if length atom <? avail
                  then c <- input_at (o + length atom) ;; ret (safe_isalnum c)
                  else ret false) ;;
      if follows then setError SyntaxError
      else offset_add (length atom) ;; setToken token.

(** The loops of the scanner consume one byte per iteration, so the number
    of bytes left bounds the number of iterations. *)
Fixpoint skipWS_loop (fuel : nat) : M unit :=
  fun t =>
    if endOfInput t then Ok (tt, t)
    else
      match fuel with
      | 0 => OutOfFuel
      | S fuel' =>
          (b <- input_next ;;
           if is_ws b then skipWS_loop fuel'
           else offset_dec) t
      end.

Definition skipWS : M unit :=
  fun t => skipWS_loop (availableInput t) t.

Fixpoint readDigits_loop (fuel : nat) (digits : nat) : M nat :=
  fun t =>
    if endOfInput t then Ok (digits, t)
    else
      match fuel with
      | 0 => OutOfFuel
      | S fuel' =>
          (b <- input_next ;;
           if safe_isdigit b then readDigits_loop fuel' (S digits)
           else ret digits) t
      end.

Definition readDigits (digits : nat) : M bool :=
  fun t =>
    (digits' <- readDigits_loop (availableInput t) digits ;;
     eoi <- gets endOfInput ;;
     (if negb eoi then offset_dec else ret tt) ;;
     ret (0 <? digits')) t.

Definition readFraction : M bool :=
  eoi <- gets endOfInput ;;
  if eoi then ret true
  else
    o <- gets _offset ;;
    c <- input_at o ;;
    if negb (c =? ".")%char then ret true
    else setToken Float ;; offset_inc ;; readDigits 0.

Definition readExponent : M bool :=
  eoi <- gets endOfInput ;;
  if eoi then ret true
  else
    o <- gets _offset ;;
    c <- input_at o ;;
    if negb (is_exponent_introducer c) then ret true
    else
      setToken Float ;;
      offset_inc ;;
      o' <- gets _offset ;;
      s <- input_at o' ;;
      (if is_plus_minus s then offset_inc else ret tt) ;;
      readDigits 0.

Definition readNumber (b : ascii) (token_start : nat) : M Token :=
  let have_digit := safe_isdigit b in
  if negb have_digit && negb (b =? "-")%char then setError InvalidByte
  else
    setToken Integer ;;
    ok1 <- readDigits (if have_digit then 1 else 0) ;;
    if negb ok1 then setError MalformedNumberLiteral
    else
      ok2 <- readFraction ;;
      if negb ok2 then setError MalformedNumberLiteral
      else
        ok3 <- readExponent ;;
        if negb ok3 then setError MalformedNumberLiteral
        else
          o <- gets _offset ;;
          v <- substr token_start (o - token_start) ;;
          modify (with_value v) ;;
          current.

(** How the [while] loop of [readString] is left: by a [return] of the whole
    function, or by falling out of the loop with the last value of [b]. *)
Inductive loop_exit : Set :=
| Return (k : Token)
| Done (b : ascii).

Fixpoint readString_loop (fuel : nat) (b : ascii) : M loop_exit :=
  fun t =>
    if endOfInput t then Ok (Done b, t)
    else
      match fuel with
      | 0 => OutOfFuel
      | S fuel' =>
          (b <- input_next ;;
           if (b =? BACKSLASH)%char then
             eoi <- gets endOfInput ;;
             if eoi then k <- setError PrematureEndOfInput ;; ret (Return k)
             else offset_inc ;; readString_loop fuel' b
           else if (b =? DQUOTE)%char then ret (Done b)
           else if (b =? NUL)%char then k <- setError InvalidByte ;; ret (Return k)
           else readString_loop fuel' b) t
      end.

(** The part of [readString] behind its loop: the value slice, then the
    look-ahead that tells a field name from a string. *)
Definition readString_value (token_start : nat) : M Token :=
  o <- gets _offset ;;
  v <- substr token_start (o - token_start) ;;
  modify (with_value v) ;;
  skipWS ;;
  eoi <- gets endOfInput ;;
  if eoi then setToken String
  else
    b <- input_next ;;
    if (b =? ":")%char then setToken FieldName
    else if (b =? ",")%char || (b =? "]")%char || (b =? "}")%char
         then offset_dec ;; setToken String
    else if (b =? NUL)%char then setError InvalidByte
    else setError SyntaxError.

Definition readString (b : ascii) (token_start : nat) : M Token :=
  avail <- gets availableInput ;;
  e <- readString_loop avail b ;;
  match e with
  | Return k => ret k
  | Done b =>
      if negb (b =? DQUOTE)%char then setError UnterminatedString
      else readString_value token_start
  end.

(** The [switch] of [next] on the byte just read; [again] is what a legal
    comma goes on with. *)
Definition next_switch (again : M Token) (b : ascii) (token_start : nat) : M Token :=
  if (b =? "{")%char then setToken ObjectStart
  else if (b =? "}")%char then readEndBracket ObjectEnd
  else if (b =? "[")%char then setToken ArrayStart
  else if (b =? "]")%char then readEndBracket ArrayEnd
  else if (b =? "n")%char then readAtom ["u"; "l"; "l"]%char Null
  else if (b =? "t")%char then readAtom ["r"; "u"; "e"]%char True
  else if (b =? "f")%char then readAtom ["a"; "l"; "s"; "e"]%char False
  else if (b =? NUL)%char then setError InvalidByte
  else if (b =? DQUOTE)%char then readString b token_start
  else if (b =? ",")%char then readComma again
  else readNumber b token_start.

(** Every arm of the [switch] returns, so the body of the [while] in [next]
    runs at most once per call; [fuel] bounds the commas skipped by
    [readComma] within one call. *)
Fixpoint next_fuel (fuel : nat) : M Token :=
  match fuel with
  | 0 => fun _ => OutOfFuel
  | S fuel' =>
      skipWS ;;
      eoi <- gets endOfInput ;;
      if eoi then setToken End
      else
        token_start <- gets _offset ;;
        b <- input_next ;;
        next_switch (next_fuel fuel') b token_start
  end.

Definition next : M Token :=
  fun t => next_fuel (S (availableInput t)) t.

(** ** The C library conversions used by [intValue] and [floatValue]

    [strtoll] and [strtod] read through a [const char*].  Here the argument
    is the list of bytes from that pointer to the end of the block it points
    into: for [_value.data()] the rest of the input buffer, which has no
    terminator of its own, and for the [std::string] copy the bytes of the
    slice followed by the terminating NUL.  Needing a byte when the list is
    empty is a read past the block. *)

(** [isspace] of the C locale. *)
Definition isspace (c : ascii) : bool := (c =? " ")%char || byte_in "009" "013" c.

Definition digit_val (c : ascii) : Z := Z.of_nat (nat_of_ascii c - nat_of_ascii "0").

Definition isxdigit (c : ascii) : bool :=
  safe_isdigit c || byte_in "A" "F" c || byte_in "a" "f" c.

Definition xdigit_val (c : ascii) : Z :=
  if safe_isdigit c then digit_val c
  else if byte_in "A" "F" c then Z.of_nat (nat_of_ascii c - nat_of_ascii "A" + 10)
  else Z.of_nat (nat_of_ascii c - nat_of_ascii "a" + 10).

Fixpoint skip_space (s : list ascii) : list ascii :=
  match s with
  | c :: s' => if isspace c then skip_space s' else s
  | [] => []
  end.

(** Reads a run of digits of the given base up to and including the byte
    that ends it; returns the accumulated value, the number of digits and
    the bytes from the terminator on. *)
Fixpoint read_run (isd : ascii -> bool) (val : ascii -> Z) (base : Z)
         (s : list ascii) (acc : Z) (n : nat) : outcome (Z * nat * list ascii) :=
  match s with
  | [] => OutOfBounds
  | c :: s' =>
      if isd c then read_run isd val base s' (base * acc + val c) (S n)
      else Ok (acc, n, s)
  end.

Definition read_sign (s : list ascii) : outcome (bool * list ascii) :=
  match s with
  | [] => OutOfBounds
  | c :: s' =>
      if (c =? "-")%char then Ok (true, s')
      else if (c =? "+")%char then Ok (false, s')
      else Ok (false, s)
  end.

Definition LLONG_MAX : Z := 2 ^ 63 - 1.
Definition LLONG_MIN : Z := - 2 ^ 63.

(** What a conversion found: whether any character was converted, and the
    exact value read. *)
Record conversion (V : Type) : Type := { converted : bool; exact : V }.

Definition strtoll_scan (s : list ascii) : outcome (conversion Z) :=
  (let* (neg, s1) := read_sign (skip_space s) in
   let* (v, n, _) := read_run safe_isdigit digit_val 10 s1 0 0 in
   Ok {| converted := 0 <? n; exact := if neg then (- v)%Z else v |})%outcome.

Definition ll_out_of_range (v : Z) : bool := (v <? LLONG_MIN)%Z || (LLONG_MAX <? v)%Z.

(** [strtoll(p, nullptr, 10)]: zero when nothing is converted, the nearest
    bound when the value does not fit. *)
Definition strtoll (s : list ascii) : outcome Z :=
  (let* r := strtoll_scan s in
   Ok (Z.max LLONG_MIN (Z.min LLONG_MAX (exact r))))%outcome.

(** [std::stoll(str, nullptr, 10)] runs [strtoll] on [str.c_str()] and throws
    [invalid_argument] when nothing was converted and [out_of_range] when the
    value does not fit; the callers are [noexcept]. *)
Definition stoll (str : list ascii) : outcome Z :=
  (let* r := strtoll_scan (str ++ [NUL]) in
   if negb (converted r) then Terminated
   else if ll_out_of_range (exact r) then Terminated
   else Ok (exact r))%outcome.

(** The exact value of the text [strtod] converts, before it is rounded to a
    [double]: a decimal or a hexadecimal significand with its exponent, an
    infinity or a NaN. *)
Inductive fvalue : Set :=
| FDec (neg : bool) (mant : Z) (exp10 : Z)
| FHex (neg : bool) (mant : Z) (exp2 : Z)
| FInf (neg : bool)
| FNaN.

(** The rational number a finite exact value denotes. *)
Definition fvalue_Q (v : fvalue) : option Q :=
  match v with
  | FDec neg m e =>
      Some (inject_Z (if neg then - m else m) * Qpower (inject_Z 10) e)%Q
  | FHex neg m e =>
      Some (inject_Z (if neg then - m else m) * Qpower (inject_Z 2) e)%Q
  | FInf _ | FNaN => None
  end.

Definition to_lower (c : ascii) : ascii :=
  if byte_in "A" "Z" c then ascii_of_nat (nat_of_ascii c + 32) else c.

(** Matches a lower-case keyword ignoring case, byte by byte. *)
Fixpoint match_ci (kw s : list ascii) : outcome bool :=
  match kw with
  | [] => Ok true
  | k :: kw' =>
      match s with
      | [] => OutOfBounds
      | c :: s' => if (to_lower c =? k)%char then match_ci kw' s' else Ok false
      end
  end.

(** An optional exponent part: the introducer, an optional sign and at least
    one decimal digit; without a digit there is no exponent. *)
Definition exponent_scan (intro : ascii) (s : list ascii) : outcome Z :=
  match s with
  | [] => OutOfBounds
  | c :: r =>
      if (to_lower c =? intro)%char then
        (let* (eneg, r1) := read_sign r in
         let* (e, n, _) := read_run safe_isdigit digit_val 10 r1 0 0 in
         Ok (if 0 <? n then (if eneg then - e else e)%Z else 0%Z))%outcome
      else Ok 0%Z
  end.

(** Digits, then optionally a '.' and more digits: the significand, the
    number of digits on either side of the point and the bytes that follow. *)
Definition significand_scan (isd : ascii -> bool) (val : ascii -> Z) (base : Z)
           (s : list ascii) : outcome (Z * nat * nat * list ascii) :=
  (let* (m1, n1, s1) := read_run isd val base s 0 0 in
   match s1 with
   | c :: r =>
       if (c =? ".")%char then
         let* (m2, n2, s2) := read_run isd val base r m1 0 in
         Ok (m2, n1, n2, s2)
       else Ok (m1, n1, 0, s1)
   | [] => OutOfBounds
   end)%outcome.

Definition no_conversion : conversion fvalue :=
  {| converted := false; exact := FDec false 0 0 |}.

Definition dec_scan (neg : bool) (s : list ascii) : outcome (conversion fvalue) :=
  (let* (m, n1, n2, s1) := significand_scan safe_isdigit digit_val 10 s in
   if n1 + n2 =? 0 then Ok no_conversion
   else
     let* e := exponent_scan "e" s1 in
     Ok {| converted := true; exact := FDec neg m (e - Z.of_nat n2) |})%outcome.

Definition hex_scan (neg : bool) (s : list ascii) : outcome (conversion fvalue) :=
  (let* (m, n1, n2, s1) := significand_scan isxdigit xdigit_val 16 s in
   let* e := exponent_scan "p" s1 in
   Ok {| converted := true; exact := FHex neg m (e - 4 * Z.of_nat n2) |})%outcome.

(** Whether a hexadecimal significand starts here: a hexadecimal digit, or a
    '.' followed by one. *)
Definition hex_follows (s : list ascii) : outcome bool :=
  match s with
  | [] => OutOfBounds
  | c :: r =>
      if isxdigit c then Ok true
      else if (c =? ".")%char then
        match r with
        | [] => OutOfBounds
        | d :: _ => Ok (isxdigit d)
        end
      else Ok false
  end.

Definition nchar (c : ascii) : bool := safe_isalnum c || (c =? "_")%char.

(** The subject sequence of [strtod] behind the sign, after ISO C
    7.22.1.3: a decimal number, a hexadecimal number introduced by 0x, INF
    or INFINITY, or NAN with an optional parenthesised sequence. *)
Definition subject_scan (neg : bool) (s1 : list ascii) : outcome (conversion fvalue) :=
  (match s1 with
   | [] => OutOfBounds
   | c :: r =>
       if (to_lower c =? "i")%char then
         let* m := match_ci ["n"; "f"]%char r in
         if m then
           let* _ := match_ci ["i"; "n"; "i"; "t"; "y"]%char (skipn 2 r) in
           Ok {| converted := true; exact := FInf neg |}
         else Ok no_conversion
       else if (to_lower c =? "n")%char then
         let* m := match_ci ["a"; "n"]%char r in
         if m then
           match skipn 2 r with
           | [] => OutOfBounds
           | p :: r' =>
               let* _ := (if (p =? "(")%char
                          then read_run nchar (fun _ => 0%Z) 1 r' 0 0
                          else Ok (0%Z, 0, r')) in
               Ok {| converted := true; exact := FNaN |}
           end
         else Ok no_conversion
       else if (c =? "0")%char then
         match r with
         | [] => OutOfBounds
         | x :: r' =>
             if (to_lower x =? "x")%char then
               let* h := hex_follows r' in
               if h then hex_scan neg r'
               else Ok {| converted := true; exact := FDec neg 0 0 |}
             else dec_scan neg s1
         end
       else dec_scan neg s1
   end)%outcome.

(** [strtod(p, nullptr)]: white space, an optional sign, then the subject
    sequence. *)
Definition strtod_scan (s : list ascii) : outcome (conversion fvalue) :=
  (let* (neg, s1) := read_sign (skip_space s) in subject_scan neg s1)%outcome.

Definition strtod (s : list ascii) : outcome fvalue :=
  (let* r := strtod_scan s in Ok (exact r))%outcome.

Section FloatingPoint.

(** Whether rounding an exact value to [double] is a range error (the
    conversion sets [errno] to [ERANGE]); this is a property of the
    floating-point format and stays a parameter. *)
Variable range_error : fvalue -> bool.

(** [std::stod(str, nullptr)] runs [strtod] on [str.c_str()] and throws
    [invalid_argument] when nothing was converted and [out_of_range] on a
    range error. *)
Definition stod (str : list ascii) : outcome fvalue :=
  (let* r := strtod_scan (str ++ [NUL]) in
   if negb (converted r) then Terminated
   else if range_error (exact r) then Terminated
   else Ok (exact r))%outcome.

Definition floatValue (t : Tokenizer) : outcome fvalue :=
  if negb (hasValue t) then
    Ok (if Token_eqb (_token t) True then FDec false 1 0 else FDec false 0 0)
  else if availableInput t =? 0 then
    stod (sv_bytes (_input t) (_value t))
  else
    strtod (skipn (sv_data (_value t)) (_input t)).

End FloatingPoint.

Definition intValue (t : Tokenizer) : outcome Z :=
  if negb (hasValue t) then
    Ok (if Token_eqb (_token t) True then 1%Z else 0%Z)
  else if availableInput t =? 0 then
    stoll (sv_bytes (_input t) (_value t))
  else
    strtoll (skipn (sv_data (_value t)) (_input t)).

Definition errorMessage (t : Tokenizer) : string :=
  match _error t with
  | UnexpectedComma => "Unexpected comma"
  | UnexpectedTrailingComma => "Unexpected trailing comma"
  | InvalidByte => "Invalid input byte"
  | PrematureEndOfInput => "Premature end of input"
  | MalformedUnicodeEscapeSequence => "Malformed Unicode escape sequence"
  | MalformedNumberLiteral => "Malformed number literal"
  | UnterminatedString => "Unterminated string"
  | SyntaxError => "Illegal JSON (syntax error)"
  | UnspecifiedError => "Unspecified error"
  end%string.

Section DataValue.

(** [translateToken] is declared in [jsont.hh], which is missing: the text
    it gives for a token stays a parameter. *)
Variable translateToken : Token -> list ascii.

(** The bytes of the view that [dataValue] returns. *)
Definition dataValue (t : Tokenizer) : list ascii :=
  if negb (hasValue t) then translateToken (_token t)
  else sv_bytes (_input t) (_value t).

End DataValue.

(** ** Auxiliary notions used to state the properties *)

(** The length of the longest prefix of [s] whose bytes satisfy [p]. *)
Fixpoint span (p : ascii -> bool) (s : list ascii) : nat :=
  match s with
  | c :: s' => if p c then S (span p s') else 0
  | [] => 0
  end.

(** The bytes of the buffer from index [i] up to index [j]. *)
Definition bytes_between (input : list ascii) (i j : nat) : list ascii :=
  firstn (j - i) (skipn i input).

(** Where [readDigits] leaves the cursor when it starts at index [o]: on the
    byte that ends the run of digits when at least one more byte follows
    that byte, and at the end of the buffer otherwise. *)
Definition digits_end (input : list ascii) (o : nat) : nat :=
  let k := span safe_isdigit (skipn o input) in
  if o + k + 1 <? length input then o + k else length input.

(** How a run of digits leaves the cursor: at the end of the buffer, or at
    least two bytes before it and on a byte that is not a digit. *)
Definition two_left (t : Tokenizer) : Prop :=
  _offset t = length (_input t) \/
  _offset t + 2 <= length (_input t) /\
  exists c, nth_error (_input t) (_offset t) = Some c /\ safe_isdigit c = false.

(** A step that keeps the buffer and moves the cursor forward within it. *)
Definition advances (t t' : Tokenizer) : Prop :=
  _input t' = _input t /\ _offset t <= _offset t' <= length (_input t).

(** How the body of a string literal ends, after section 4.5 of the spec:
    read from the byte behind the opening quote, a backslash takes the byte
    behind it along, the first quote that is not taken along closes the
    literal, a NUL is an invalid byte, a backslash as the last byte is a
    premature end and running out of bytes leaves the literal open.  The
    number is the count of bytes read. *)
Inductive body_end : Set := Closed | Open | DanglingEscape | EmbeddedNUL.

Fixpoint string_body (s : list ascii) : body_end * nat :=
  match s with
  | [] => (Open, 0)
  | c :: r =>
      if (c =? BACKSLASH)%char then
        match r with
        | [] => (DanglingEscape, 1)
        | _ :: r' => (fst (string_body r'), 2 + snd (string_body r'))
        end
      else if (c =? DQUOTE)%char then (Closed, 1)
      else if (c =? NUL)%char then (EmbeddedNUL, 1)
      else (fst (string_body r), 1 + snd (string_body r))
  end.

(** The number grammar of the spec, [-?digit+ ('.' digit+)? ([eE] [+-]?
    digit+)?], read at the head of [s] part by part: the kind and the
    length of the literal, or nothing when a '-', a '.' or an exponent
    introducer is not followed by a digit.  [n] is the length read so
    far. *)
Definition exponent_part (kind : Token) (n : nat) (s : list ascii) : option (Token * nat) :=
  match s with
  | c :: r =>
      if is_exponent_introducer c then
        let sg := match r with
                  | d :: _ => if is_plus_minus d then 1 else 0
                  | [] => 0
                  end in
        let k := span safe_isdigit (skipn sg r) in
        if k =? 0 then None else Some (Float, n + 1 + sg + k)
      else Some (kind, n)
  | [] => Some (kind, n)
  end.

Definition fraction_part (n : nat) (s : list ascii) : option (Token * nat) :=
  match s with
  | c :: r =>
      if (c =? ".")%char then
        let k := span safe_isdigit r in
        if k =? 0 then None else exponent_part Float (n + 1 + k) (skipn k r)
      else exponent_part Integer n s
  | [] => Some (Integer, n)
  end.

Definition number_literal (s : list ascii) : option (Token * nat) :=
  let sg := match s with
            | c :: _ => if (c =? "-")%char then 1 else 0
            | [] => 0
            end in
  let k := span safe_isdigit (skipn sg s) in
  if k =? 0 then None else fraction_part (sg + k) (skipn (sg + k) s).

(** The cursor stopped before the end of the buffer, or the buffer ends
    with a digit: no byte that ended a run of digits was the last byte of
    the buffer. *)
Definition ends_cleanly (t : Tokenizer) : Prop :=
  _offset t < length (_input t) \/
  exists d, nth_error (_input t) (length (_input t) - 1) = Some d /\
            safe_isdigit d = true.

(** What a call of [next] that yields the token [k] leaves behind for the
    value slice, as the code has it: a numeric slice runs from the token's
    first byte to the cursor, which is at the end of the buffer or on a byte
    that is not a digit, and it is the literal of the number grammar unless
    a run of digits took the last byte of the buffer along; a string slice starts at the opening quote and,
    unless that quote is the last byte of the buffer, ends with the first
    quote that closes the body; only the white space skipped while looking
    ahead and, for a field name, the colon lie between its end and the
    cursor. *)
Definition slice_ok (t : Tokenizer) (k : Token) (t' : Tokenizer) : Prop :=
  match k with
  | Integer | Float =>
      exists start c,
        _offset t <= start < _offset t' /\
        _value t' = {| sv_data := start; sv_size := _offset t' - start |} /\
        nth_error (_input t) start = Some c /\
        (safe_isdigit c = true \/ c = "-"%char) /\
        two_left t' /\
        (ends_cleanly t' ->
         number_literal (skipn start (_input t)) = Some (k, _offset t' - start))
  | String =>
      exists start n,
        _offset t <= start /\ 0 < n /\ start + n <= _offset t' /\
        _value t' = {| sv_data := start; sv_size := n |} /\
        nth_error (_input t) start = Some DQUOTE /\
        (S start < length (_input t) ->
         string_body (skipn (S start) (_input t)) = (Closed, n - 1)) /\
        forallb is_ws (bytes_between (_input t) (start + n) (_offset t')) = true /\
        (_offset t' = length (_input t) \/
         exists c, nth_error (_input t) (_offset t') = Some c /\
                   (c = ","%char \/ c = "]"%char \/ c = "}"%char))
  | FieldName =>
      exists start n,
        _offset t <= start /\ 0 < n /\ start + n < _offset t' /\
        _value t' = {| sv_data := start; sv_size := n |} /\
        nth_error (_input t) start = Some DQUOTE /\
        (S start < length (_input t) ->
         string_body (skipn (S start) (_input t)) = (Closed, n - 1)) /\
        forallb is_ws (bytes_between (_input t) (start + n) (_offset t' - 1)) = true /\
        nth_error (_input t) (_offset t' - 1) = Some ":"%char
  | _ => Logic.True
  end.

(** The value of a run of digits read after [acc], as [read_run]
    accumulates it. *)
Definition run_value (val : ascii -> Z) (base : Z) (l : list ascii) (acc : Z) : Z :=
  fold_left (fun a c => (base * a + val c)%Z) l acc.

(** Whether [s] starts with what introduces a hexadecimal number for
    [strtod]: a '0' and an 'x' or 'X', behind an optional '-'. *)
Definition hex_head (s : list ascii) : bool :=
  match s with
  | c :: x :: _ => (c =? "0")%char && (to_lower x =? "x")%char
  | _ => false
  end.

Definition hex_prefixed (s : list ascii) : bool :=
  match s with
  | c :: r => if (c =? "-")%char then hex_head r else hex_head s
  | [] => false
  end.

(** The bytes on which the [switch] of [next] starts a token: its eleven
    cases, and a digit or a '-' for the number scan of its default. *)
Definition starts_token (c : ascii) : bool :=
  (c =? "{")%char || (c =? "}")%char || (c =? "[")%char || (c =? "]")%char
  || (c =? "n")%char || (c =? "t")%char || (c =? "f")%char
  || (c =? DQUOTE)%char || (c =? ",")%char
  || safe_isdigit c || (c =? "-")%char.

(** Whether the buffer ends with a digit followed by one byte that is no
    digit. *)
Definition ends_after_digit (input : list ascii) : bool :=
  match rev input with
  | c :: d :: _ => negb (safe_isdigit c) && safe_isdigit d
  | _ => false
  end.

(** The integer that the digits at the head of a literal denote in decimal,
    with the sign of a leading '-'. *)
Definition integer_part (s : list ascii) : Z :=
  match s with
  | c :: r =>
      if (c =? "-")%char
      then (- run_value digit_val 10 (firstn (span safe_isdigit r) r) 0)%Z
      else run_value digit_val 10 (firstn (span safe_isdigit s) s) 0
  | [] => 0%Z
  end.



(** The error codes that the scanner of [jsont.cc] sets. *)
Definition scan_error (e : ErrorCode) : bool :=
  match e with
  | UnexpectedComma | UnexpectedTrailingComma | InvalidByte
  | PrematureEndOfInput | MalformedNumberLiteral | UnterminatedString
  | SyntaxError => true
  | MalformedUnicodeEscapeSequence | UnspecifiedError => false
  end.

(** What every call of [next] establishes, from the state [t] before the
    call to the token [k] and the state [t'] after it. *)
Definition next_post (t : Tokenizer) (k : Token) (t' : Tokenizer) : Prop :=
  advances t t' /\ _token t' = k /\ k <> Comma /\
  (k = End -> _offset t' = length (_input t)) /\
  slice_ok t k t'.

(** A token without a value slice that is neither [End] nor the comma
    marker. *)
Definition plain_token (k : Token) : Prop :=
  match k with
  | ObjectStart | ObjectEnd | ArrayStart | ArrayEnd
  | True | False | Null | Error => Logic.True
  | _ => Logic.False
  end.

(** [n + 1] successive calls of [next]; the token of the last one. *)
Fixpoint repeat_next (n : nat) : M Token :=
  match n with
  | 0 => next
  | S n' => next ;; repeat_next n'
  end.

(** What the caller sees after a call: the token, with the bytes of its
    slice when it carries a value and with the error code when it is
    [Error]. *)
Inductive seen : Set :=
| Plain (k : Token)
| Valued (k : Token) (slice : list ascii)
| Failed (e : ErrorCode).

Definition observe (k : Token) (t : Tokenizer) : seen :=
  match k with
  | Error => Failed (_error t)
  | FieldName | String | Integer | Float =>
      Valued k (sv_bytes (_input t) (_value t))
  | _ => Plain k
  end.

(** What the caller sees in [n] successive calls of [next]. *)
Fixpoint scan (n : nat) (t : Tokenizer) : list (outcome seen) :=
  match n with
  | 0 => []
  | S n' =>
      match next t with
      | Ok (k, t') => Ok (observe k t') :: scan n' t'
      | OutOfBounds => [OutOfBounds]
      | Terminated => [Terminated]
      | OutOfFuel => [OutOfFuel]
      end
  end.

(** The atoms of the [switch]: for a first byte, the bytes [readAtom] is
    asked to match behind it and the token it is asked to produce. *)
Definition atom_of (c : ascii) : option (list ascii * Token) :=
  if (c =? "n")%char then Some (["u"; "l"; "l"]%char, Null)
  else if (c =? "t")%char then Some (["r"; "u"; "e"]%char, True)
  else if (c =? "f")%char then Some (["a"; "l"; "s"; "e"]%char, False)
  else None.

(** The state in which a call fails with code [e] and the cursor at [o]. *)
Definition failed (e : ErrorCode) (o : nat) (t : Tokenizer) : Tokenizer :=
  with_token Error (with_error e (with_offset o t)).

(** Whether the byte at index [n] of [s] exists and is alphanumeric. *)
Definition alnum_at (s : list ascii) (n : nat) : bool :=
  match nth_error s n with
  | Some d => safe_isalnum d
  | None => false
  end.

(** The cursor invariant of the data model. *)
Definition cursor_ok (t : Tokenizer) : Prop := _offset t <= length (_input t).

(** * Properties *)

(** ** Lists and bytes *)

Lemma skipn_nth_error (l : list ascii) (n : nat) (c : ascii) :
  nth_error l n = Some c -> skipn n l = c :: skipn (S n) l.
Proof.
  revert l; induction n as [|n IH]; intros [|x l] H; try discriminate.
  - simpl in H. injection H as ->. reflexivity.
  - simpl in H. rewrite skipn_cons. rewrite (IH l H). reflexivity.
Qed.

Lemma nth_error_in_range (l : list ascii) (n : nat) :
  n < length l -> exists c, nth_error l n = Some c.
Proof.
  intros H. destruct (nth_error l n) as [c|] eqn:E.
  - now exists c.
  - apply nth_error_None in E. lia.
Qed.

Lemma span_le (p : ascii -> bool) (s : list ascii) : span p s <= length s.
Proof. induction s as [|c s IH]; simpl; [lia|]. destruct (p c); simpl; lia. Qed.

Lemma span_all (p : ascii -> bool) (s : list ascii) :
  forallb p (firstn (span p s) s) = true.
Proof.
  induction s as [|c s IH]; simpl; [reflexivity|].
  destruct (p c) eqn:E; simpl; [now rewrite E|reflexivity].
Qed.

Lemma span_stop (p : ascii -> bool) (s : list ascii) (c : ascii) :
  nth_error s (span p s) = Some c -> p c = false.
Proof.
  induction s as [|x s IH]; simpl; [discriminate|].
  destruct (p x) eqn:E; simpl; [exact IH|].
  intros H. injection H as <-. exact E.
Qed.

(** ** The state record *)

Lemma with_offset_same (t : Tokenizer) (o : nat) :
  o = _offset t -> with_offset o t = t.
Proof. intros ->. destruct t; reflexivity. Qed.

Lemma endOfInput_true (t : Tokenizer) :
  endOfInput t = true <-> length (_input t) <= _offset t.
Proof. unfold endOfInput. apply Nat.leb_le. Qed.

Lemma endOfInput_false (t : Tokenizer) :
  endOfInput t = false <-> _offset t < length (_input t).
Proof. unfold endOfInput. rewrite Nat.leb_gt. reflexivity. Qed.

Lemma input_next_eq (t : Tokenizer) (c : ascii) :
  nth_error (_input t) (_offset t) = Some c ->
  input_next t = Ok (c, with_offset (S (_offset t)) t).
Proof.
  intros H. unfold input_next, bind, gets, input_at, offset_inc, modify, ret.
  simpl. rewrite H. reflexivity.
Qed.

(** ** White space *)

Lemma skipWS_loop_eq (fuel : nat) :
  forall t, availableInput t <= fuel ->
    skipWS_loop fuel t =
    Ok (tt, with_offset (_offset t + span is_ws (skipn (_offset t) (_input t))) t).
Proof.
  induction fuel as [|fuel IH]; intros t Hf; simpl;
    destruct (endOfInput t) eqn:E.
  - apply endOfInput_true in E. rewrite (skipn_all2 _ E). simpl.
    rewrite with_offset_same by lia. reflexivity.
  - apply endOfInput_false in E. unfold availableInput in Hf. lia.
  - apply endOfInput_true in E. rewrite (skipn_all2 _ E). simpl.
    rewrite with_offset_same by lia. reflexivity.
  - apply endOfInput_false in E.
    destruct (nth_error_in_range _ E) as [c Hc].
    unfold bind at 1. rewrite (input_next_eq _ Hc). simpl.
    rewrite (skipn_nth_error _ _ Hc). simpl.
    destruct (is_ws c) eqn:W.
    + rewrite IH by (unfold availableInput in *; simpl; lia).
      simpl. unfold with_offset; simpl. do 3 f_equal. lia.
    + unfold offset_dec, modify. simpl. unfold with_offset; simpl.
      do 3 f_equal. lia.
Qed.

Lemma skipWS_eq (t : Tokenizer) :
  skipWS t =
  Ok (tt, with_offset (_offset t + span is_ws (skipn (_offset t) (_input t))) t).
Proof. unfold skipWS. apply skipWS_loop_eq. lia. Qed.

(** ** Digits *)

Lemma readDigits_loop_eq (fuel : nat) :
  forall digits t, cursor_ok t -> availableInput t <= fuel ->
    readDigits_loop fuel digits t =
    Ok (digits + span safe_isdigit (skipn (_offset t) (_input t)),
        with_offset (Nat.min (length (_input t))
                       (_offset t + span safe_isdigit (skipn (_offset t) (_input t)) + 1)) t).
Proof.
  unfold cursor_ok.
  induction fuel as [|fuel IH]; intros d t Hc Hf; simpl;
    destruct (endOfInput t) eqn:E.
  - apply endOfInput_true in E. rewrite (skipn_all2 _ E). simpl.
    rewrite with_offset_same by lia. now rewrite Nat.add_0_r.
  - apply endOfInput_false in E. unfold availableInput in Hf. lia.
  - apply endOfInput_true in E. rewrite (skipn_all2 _ E). simpl.
    rewrite with_offset_same by lia. now rewrite Nat.add_0_r.
  - apply endOfInput_false in E.
    destruct (nth_error_in_range _ E) as [c Hn].
    unfold bind at 1. rewrite (input_next_eq _ Hn). simpl.
    rewrite (skipn_nth_error _ _ Hn). simpl.
    destruct (safe_isdigit c) eqn:W.
    + rewrite IH by (unfold availableInput in *; simpl; lia).
      simpl. unfold with_offset; simpl. f_equal. f_equal; [lia|].
      f_equal. lia.
    + unfold ret, with_offset; simpl. f_equal. f_equal; [lia|].
      f_equal. lia.
Qed.

Lemma readDigits_eq (digits : nat) (t : Tokenizer) :
  cursor_ok t ->
  readDigits digits t =
  Ok (0 <? digits + span safe_isdigit (skipn (_offset t) (_input t)),
      with_offset (digits_end (_input t) (_offset t)) t).
Proof.
  intros Hc. unfold readDigits, bind at 1.
  rewrite readDigits_loop_eq by (auto; lia). simpl.
  unfold bind, gets, endOfInput, digits_end. simpl.
  pose proof (span_le safe_isdigit (skipn (_offset t) (_input t))) as Hs.
  rewrite length_skipn in Hs. unfold cursor_ok in Hc.
  set (k := span safe_isdigit (skipn (_offset t) (_input t))) in *.
  destruct (_offset t + k + 1 <? length (_input t)) eqn:L.
  - apply Nat.ltb_lt in L.
    replace (length (_input t) <=? Nat.min (length (_input t)) (_offset t + k + 1))
      with false by (symmetry; apply Nat.leb_gt; lia).
    unfold offset_dec, modify, ret, with_offset; simpl. do 3 f_equal. lia.
  - apply Nat.ltb_ge in L.
    replace (length (_input t) <=? Nat.min (length (_input t)) (_offset t + k + 1))
      with true by (symmetry; apply Nat.leb_le; lia).
    unfold ret, with_offset; simpl. do 3 f_equal. lia.
Qed.

(** After a run of digits the cursor is at the end of the buffer or at
    least two bytes before it, on a byte that is not a digit. *)
Lemma digits_end_range (input : list ascii) (o : nat) :
  o <= length input ->
  o <= digits_end input o <= length input /\
  (digits_end input o = length input \/
   digits_end input o + 2 <= length input /\
   digits_end input o = o + span safe_isdigit (skipn o input) /\
   exists c, nth_error input (digits_end input o) = Some c /\
             safe_isdigit c = false).
Proof.
  intros Ho. unfold digits_end.
  pose proof (span_le safe_isdigit (skipn o input)) as Hs.
  rewrite length_skipn in Hs.
  set (k := span safe_isdigit (skipn o input)) in *.
  destruct (o + k + 1 <? length input) eqn:L.
  - apply Nat.ltb_lt in L. split; [lia|]. right. split; [lia|]. split; [reflexivity|].
    destruct (@nth_error_in_range input (o + k)) as [c Hn]; [lia|].
    exists c. split; [exact Hn|].
    apply (span_stop safe_isdigit (skipn o input)).
    fold k. now rewrite nth_error_skipn.
  - split; [lia|]. now left.
Qed.

Lemma bind_Ok {A B : Type} (m : M A) (k : A -> M B) t a t' :
  m t = Ok (a, t') -> bind m k t = k a t'.
Proof. unfold bind. intros ->. reflexivity. Qed.

Lemma bind_gets {A B : Type} (f : Tokenizer -> A) (k : A -> M B) t :
  bind (gets f) k t = k (f t) t.
Proof. reflexivity. Qed.

Lemma bind_modify {B : Type} (f : Tokenizer -> Tokenizer) (k : unit -> M B) t :
  bind (modify f) k t = k tt (f t).
Proof. reflexivity. Qed.

Lemma bind_setToken {B : Type} (k : Token) (f : Token -> M B) t :
  bind (setToken k) f t = f k (with_token k t).
Proof. reflexivity. Qed.

Lemma bind_offset_inc {B : Type} (f : unit -> M B) t :
  bind offset_inc f t = f tt (with_offset (S (_offset t)) t).
Proof. reflexivity. Qed.

Lemma input_at_eq (t : Tokenizer) (i : nat) (c : ascii) :
  nth_error (_input t) i = Some c -> input_at i t = Ok (c, t).
Proof. intros H. unfold input_at. now rewrite H. Qed.

Lemma substr_eq (pos n : nat) (t : Tokenizer) :
  pos <= length (_input t) ->
  substr pos n t = Ok (subview (_input t) pos n, t).
Proof.
  intros H. unfold substr.
  replace (length (_input t) <? pos) with false
    by (symmetry; apply Nat.ltb_ge; exact H).
  reflexivity.
Qed.

(** ** Numbers *)

Lemma readDigits_spec (digits : nat) (t : Tokenizer) :
  cursor_ok t ->
  exists b t', readDigits digits t = Ok (b, t') /\
    advances t t' /\ two_left t' /\
    _token t' = _token t /\ _value t' = _value t /\ _error t' = _error t.
Proof.
  intros Hc. rewrite (readDigits_eq _ Hc).
  destruct (digits_end_range (_input t) Hc) as [Hr Hd].
  eexists; eexists; split; [reflexivity|].
  unfold advances, two_left; simpl.
  split; [split; [reflexivity|lia]|]. split; [|auto].
  destruct Hd as [Hd|(Hd & _ & Hx)]; [now left|right; auto].
Qed.

Lemma readFraction_spec (t : Tokenizer) :
  cursor_ok t -> two_left t ->
  exists b t', readFraction t = Ok (b, t') /\
    advances t t' /\ two_left t' /\
    (_token t' = _token t \/ _token t' = Float) /\
    _value t' = _value t /\ _error t' = _error t.
Proof.
  intros Hc H2. unfold readFraction, bind at 1, gets. simpl.
  destruct (endOfInput t) eqn:E.
  - exists true, t. unfold ret, advances. unfold cursor_ok in Hc. auto 10.
  - apply endOfInput_false in E.
    destruct (nth_error_in_range _ E) as [c Hn].
    unfold bind at 1, gets. simpl. unfold bind at 1.
    rewrite (input_at_eq _ _ Hn). simpl.
    destruct (c =? ".")%char; simpl.
    + unfold bind, setToken, modify, offset_inc, ret. simpl.
      match goal with |- context [readDigits 0 ?u] =>
        destruct (@readDigits_spec 0 u) as (b & t' & Hr & (Hi & Ho) & Ht & Hk & Hv & He)
      end.
      { unfold cursor_ok; simpl; lia. }
      rewrite Hr. simpl in *. exists b, t'. split; [reflexivity|].
      unfold advances. rewrite Hi. repeat split; auto; lia.
    + exists true, t. unfold ret, advances. unfold cursor_ok in Hc. auto 10.
Qed.

(** The byte after an exponent introducer is read without a test for the
    end of the input; the read stays inside the buffer because a cursor that
    is not at the end has two bytes in front of it. *)
Lemma readExponent_spec (t : Tokenizer) :
  cursor_ok t -> two_left t ->
  exists b t', readExponent t = Ok (b, t') /\
    advances t t' /\ two_left t' /\
    (_token t' = _token t \/ _token t' = Float) /\
    _value t' = _value t /\ _error t' = _error t.
Proof.
  intros Hc H2. unfold readExponent, bind at 1, gets. simpl.
  destruct (endOfInput t) eqn:E.
  - exists true, t. unfold ret, advances. unfold cursor_ok in Hc. auto 10.
  - apply endOfInput_false in E.
    destruct (nth_error_in_range _ E) as [c Hn].
    unfold bind at 1, gets. simpl. unfold bind at 1.
    rewrite (input_at_eq _ _ Hn). simpl.
    destruct (is_exponent_introducer c); simpl.
    + destruct H2 as [H2|[H2 _]]; [lia|].
      destruct (@nth_error_in_range (_input t) (S (_offset t))) as [s Hs]; [lia|].
      unfold setToken, offset_inc, modify, bind at 1, bind at 1, bind at 1. simpl.
      unfold bind at 1, gets. simpl.
      erewrite bind_Ok by (apply input_at_eq; simpl; exact Hs).
      unfold bind at 1.
      match goal with |- context [obind (?m ?u) _] =>
        assert (Hm : exists u', m u = Ok (tt, u') /\ _input u' = _input t /\
                       S (_offset t) <= _offset u' <= length (_input t) /\
                       _token u' = Float /\ _value u' = _value t /\
                       _error u' = _error t)
      end.
      { destruct (is_plus_minus s); eexists; (split; [reflexivity|]); simpl;
          repeat split; auto; lia. }
      destruct Hm as (u' & Hm & Hi & Ho & Hk & Hv & He). rewrite Hm. simpl.
      destruct (@readDigits_spec 0 u') as (b & t' & Hr & (Hi' & Ho') & T' & Hk' & Hv' & He').
      { unfold cursor_ok. rewrite Hi. lia. }
      rewrite Hr. exists b, t'. split; [reflexivity|].
      unfold advances. rewrite Hi', Hi, Hk', Hv', He'. rewrite Hi in Ho'.
      repeat split; auto; lia.
    + exists true, t. unfold ret, advances. unfold cursor_ok in Hc. auto 10.
Qed.

Lemma advances_cursor_ok (t t' : Tokenizer) : advances t t' -> cursor_ok t'.
Proof. unfold advances, cursor_ok. intros [-> H]. lia. Qed.

Lemma advances_trans (t u v : Tokenizer) :
  advances t u -> advances u v -> advances t v.
Proof.
  unfold advances. intros [Hi Ho] [Hi' Ho']. rewrite Hi in Ho'.
  split; [congruence|lia].
Qed.

Lemma setError_eq (e : ErrorCode) (t : Tokenizer) :
  setError e t = Ok (Error, with_token Error (with_error e t)).
Proof. reflexivity. Qed.

Lemma setToken_eq (k : Token) (t : Tokenizer) :
  setToken k t = Ok (k, with_token k t).
Proof. reflexivity. Qed.

(** What [readNumber] promises to [next]: it returns, the cursor stays inside
    the buffer, and a numeric token's slice runs from the token's first byte
    to the cursor. *)
Lemma readNumber_spec (b : ascii) (token_start : nat) (t : Tokenizer) :
  cursor_ok t -> token_start < _offset t ->
  exists k t', readNumber b token_start t = Ok (k, t') /\
    advances t t' /\ _token t' = k /\
    (k = Error /\ _value t' = _value t \/
     (k = Integer \/ k = Float) /\
     _value t' = {| sv_data := token_start; sv_size := _offset t' - token_start |} /\
     (safe_isdigit b = true \/ b = "-"%char) /\ two_left t').
Proof.
  intros Hc Hs. unfold readNumber.
  assert (Herr : forall e u, advances t u -> _value u = _value t ->
            exists k t', setError e u = Ok (k, t') /\
              advances t t' /\ _token t' = k /\
              (k = Error /\ _value t' = _value t \/
               (k = Integer \/ k = Float) /\
               _value t' = {| sv_data := token_start; sv_size := _offset t' - token_start |} /\
               (safe_isdigit b = true \/ b = "-"%char) /\ two_left t')).
  { intros e u Ha Hv. rewrite setError_eq. eexists; eexists; split; [reflexivity|].
    simpl. split; [exact Ha|]. auto. }
  assert (Hself : advances t t) by (split; [reflexivity|unfold cursor_ok in Hc; lia]).
  assert (Hb : negb (safe_isdigit b) && negb (b =? "-")%char = false ->
               safe_isdigit b = true \/ b = "-"%char).
  { destruct (safe_isdigit b); [now left|]. simpl.
    destruct (Ascii.eqb_spec b "-"); [now right|discriminate]. }
  destruct (negb (safe_isdigit b) && negb (b =? "-")%char); [now apply Herr|].
  specialize (Hb eq_refl).
  unfold bind at 1. rewrite setToken_eq. simpl.
  destruct (@readDigits_spec (if safe_isdigit b then 1 else 0) (with_token Integer t))
    as (b1 & t1 & E1 & A1 & T1 & K1 & V1 & _); [exact Hc|].
  erewrite bind_Ok by exact E1. simpl in K1, V1.
  assert (At1 : advances t t1) by exact A1.
  destruct b1; simpl; [|now apply Herr].
  destruct (readFraction_spec (advances_cursor_ok A1) T1)
    as (b2 & t2 & E2 & A2 & T2 & K2 & V2 & _).
  erewrite bind_Ok by exact E2.
  assert (At2 : advances t t2) by exact (advances_trans At1 A2).
  destruct b2; simpl; [|apply Herr; [exact At2|congruence]].
  destruct (readExponent_spec (advances_cursor_ok At2) T2)
    as (b3 & t3 & E3 & A3 & T3 & K3 & V3 & _).
  erewrite bind_Ok by exact E3.
  assert (At3 : advances t t3) by exact (advances_trans At2 A3).
  destruct b3; simpl; [|apply Herr; [exact At3|congruence]].
  unfold bind at 1, gets, obind, fst, snd.
  destruct At3 as [Hi Ho].
  erewrite bind_Ok by (apply substr_eq; rewrite Hi; lia).
  unfold bind, modify, current, gets. simpl.
  eexists; eexists; split; [reflexivity|]. simpl.
  split; [split; [exact Hi|exact Ho]|]. split; [reflexivity|]. right.
  split; [intuition congruence|].
  split; [|split; [exact Hb|exact T3]].
  unfold subview. f_equal. rewrite Hi. lia.
Qed.

(** ** The number grammar *)

Lemma readFraction_eq (t : Tokenizer) :
  readFraction t =
  match nth_error (_input t) (_offset t) with
  | Some c =>
      if (c =? ".")%char
      then readDigits 0 (with_offset (S (_offset t)) (with_token Float t))
      else Ok (true, t)
  | None => Ok (true, t)
  end.
Proof.
  unfold readFraction. rewrite bind_gets.
  destruct (endOfInput t) eqn:E.
  - apply endOfInput_true in E.
    replace (nth_error (_input t) (_offset t)) with (@None ascii)
      by (symmetry; apply nth_error_None; exact E).
    reflexivity.
  - apply endOfInput_false in E. destruct (nth_error_in_range _ E) as [c Hn].
    rewrite bind_gets. erewrite bind_Ok by (apply input_at_eq; exact Hn).
    rewrite Hn. destruct (c =? ".")%char; reflexivity.
Qed.

Lemma readExponent_eq (t : Tokenizer) :
  readExponent t =
  match nth_error (_input t) (_offset t) with
  | Some c =>
      if is_exponent_introducer c then
        match nth_error (_input t) (S (_offset t)) with
        | Some d =>
            readDigits 0
              (with_offset (if is_plus_minus d then S (S (_offset t)) else S (_offset t))
                 (with_token Float t))
        | None => OutOfBounds
        end
      else Ok (true, t)
  | None => Ok (true, t)
  end.
Proof.
  unfold readExponent. rewrite bind_gets.
  destruct (endOfInput t) eqn:E.
  - apply endOfInput_true in E.
    replace (nth_error (_input t) (_offset t)) with (@None ascii)
      by (symmetry; apply nth_error_None; exact E).
    reflexivity.
  - apply endOfInput_false in E. destruct (nth_error_in_range _ E) as [c Hn].
    rewrite bind_gets. erewrite bind_Ok by (apply input_at_eq; exact Hn).
    rewrite Hn. destruct (is_exponent_introducer c); [|reflexivity].
    cbn [negb]. rewrite bind_setToken, bind_offset_inc, bind_gets.
    cbn [_offset _input with_offset with_token].
    unfold bind at 1, input_at.
    cbn [_offset _input with_offset with_token].
    destruct (nth_error (_input t) (S (_offset t))) as [d|]; [|reflexivity].
    unfold obind, fst, snd.
    destruct (is_plus_minus d); reflexivity.
Qed.

(** A run of digits either stops where its digits stop, or it has taken
    along a last byte of the buffer that is no digit. *)
Lemma digits_end_cases (input : list ascii) (o : nat) :
  o <= length input ->
  digits_end input o = o + span safe_isdigit (skipn o input) /\
  (digits_end input o = length input \/ digits_end input o + 2 <= length input)
  \/
  digits_end input o = length input /\
  o + span safe_isdigit (skipn o input) + 1 = length input /\
  exists c, nth_error input (length input - 1) = Some c /\ safe_isdigit c = false.
Proof.
  intros Ho. unfold digits_end.
  pose proof (span_le safe_isdigit (skipn o input)) as Hs.
  rewrite length_skipn in Hs.
  set (k := span safe_isdigit (skipn o input)) in *.
  destruct (o + k + 1 <? length input) eqn:L.
  - apply Nat.ltb_lt in L. left. split; [reflexivity|]. right. lia.
  - apply Nat.ltb_ge in L.
    destruct (Nat.eq_dec (o + k) (length input)) as [He|Hne].
    + left. split; [lia|]. now left.
    + right. split; [reflexivity|]. split; [lia|].
      destruct (@nth_error_in_range input (o + k)) as [c Hn]; [lia|].
      exists c. replace (length input - 1) with (o + k) by lia.
      split; [exact Hn|].
      apply (span_stop safe_isdigit (skipn o input)).
      fold k. now rewrite nth_error_skipn.
Qed.

Lemma ends_cleanly_no_slip (t : Tokenizer) (c : ascii) :
  _offset t = length (_input t) ->
  nth_error (_input t) (length (_input t) - 1) = Some c ->
  safe_isdigit c = false ->
  ~ ends_cleanly t.
Proof.
  intros Ho Hn Hc [H|(d & Hd & Hdd)]; [lia|].
  rewrite Hn in Hd. injection Hd as <-. congruence.
Qed.

Lemma readDigits_at (digits o : nat) (u : Tokenizer) :
  o <= length (_input u) ->
  readDigits digits (with_offset o u) =
  Ok (0 <? digits + span safe_isdigit (skipn o (_input u)),
      with_offset (digits_end (_input u) o) u).
Proof.
  intros Ho. rewrite readDigits_eq by (unfold cursor_ok; simpl; exact Ho).
  reflexivity.
Qed.

Lemma two_left_digits_end (t : Tokenizer) (o : nat) (k : Token) :
  o <= length (_input t) ->
  two_left (with_offset (digits_end (_input t) o) (with_token k t)).
Proof.
  intros Ho. destruct (digits_end_range (_input t) Ho) as [_ [H|(H & _ & Hc)]];
    unfold two_left; cbn [_input _offset with_offset with_token]; auto.
Qed.

(** The exponent part, when no run of digits took the last byte along. *)
Lemma exponent_stage (t t' : Tokenizer) (start n : nat) :
  cursor_ok t -> two_left t -> _offset t = start + n ->
  readExponent t = Ok (true, t') -> ends_cleanly t' ->
  exponent_part (_token t) n (skipn (_offset t) (_input t))
  = Some (_token t', _offset t' - start).
Proof.
  intros Hc H2 Ho Hr He. unfold cursor_ok in Hc. rewrite readExponent_eq in Hr.
  destruct (nth_error (_input t) (_offset t)) as [c|] eqn:Hn.
  - rewrite (skipn_nth_error _ _ Hn). cbn [exponent_part].
    destruct (is_exponent_introducer c).
    + assert (Hlt : _offset t < length (_input t))
        by (apply nth_error_Some; congruence).
      destruct H2 as [H2|[H2 _]]; [lia|].
      destruct (@nth_error_in_range (_input t) (S (_offset t))) as [d Hd]; [lia|].
      rewrite Hd in Hr. rewrite (skipn_nth_error _ _ Hd).
      set (p := if is_plus_minus d then S (S (_offset t)) else S (_offset t)) in *.
      set (sg := if is_plus_minus d then 1 else 0).
      assert (Hp : p = S (_offset t) + sg /\ p <= length (_input t))
        by (subst p sg; destruct (is_plus_minus d); lia).
      destruct Hp as [Hp Hpl].
      assert (Hsk : skipn sg (d :: skipn (S (S (_offset t))) (_input t))
                    = skipn p (_input t)).
      { subst p sg. destruct (is_plus_minus d); [reflexivity|].
        rewrite (skipn_nth_error _ _ Hd). reflexivity. }
      rewrite Hsk.
      rewrite readDigits_at in Hr by exact Hpl.
      change (_input (with_token Float t)) with (_input t) in Hr.
      remember (skipn p (_input t)) as r eqn:Hrr.
      remember (digits_end (_input t) p) as e eqn:Hee.
      injection Hr as Hok <-. cbn [_token _offset with_offset with_token].
      apply Nat.ltb_lt in Hok. subst r e.
      destruct (digits_end_cases (_input t) Hpl) as [[Hd1 _]|(Hd1 & _ & x & Hx & Hxd)].
      * rewrite Hd1.
        replace (span safe_isdigit (skipn p (_input t)) =? 0) with false
          by (symmetry; apply Nat.eqb_neq; lia).
        do 2 f_equal. lia.
      * exfalso. revert He. apply ends_cleanly_no_slip with x; auto.
    + injection Hr as <-. do 2 f_equal. lia.
  - apply nth_error_None in Hn. rewrite (skipn_all2 _ Hn). cbn [exponent_part].
    injection Hr as <-. do 2 f_equal. lia.
Qed.

(** The fraction part and what follows it. *)
Lemma fraction_stage (t t1 t' : Tokenizer) (start n : nat) :
  cursor_ok t -> two_left t -> _offset t = start + n -> _token t = Integer ->
  readFraction t = Ok (true, t1) -> readExponent t1 = Ok (true, t') ->
  ends_cleanly t' ->
  fraction_part n (skipn (_offset t) (_input t))
  = Some (_token t', _offset t' - start).
Proof.
  intros Hc H2 Ho Hk Hf Hr He. rewrite readFraction_eq in Hf.
  destruct (nth_error (_input t) (_offset t)) as [c|] eqn:Hn.
  - assert (Hlt : _offset t < length (_input t))
      by (apply nth_error_Some; congruence).
    rewrite (skipn_nth_error _ _ Hn). cbn [fraction_part].
    destruct (c =? ".")%char.
    + assert (Hle : S (_offset t) <= length (_input t)) by lia.
      rewrite readDigits_at in Hf by exact Hle.
      change (_input (with_token Float t)) with (_input t) in Hf.
      remember (skipn (S (_offset t)) (_input t)) as r eqn:Hrr.
      remember (digits_end (_input t) (S (_offset t))) as e eqn:Hee.
      injection Hf as Hok <-. apply Nat.ltb_lt in Hok.
      replace (span safe_isdigit r =? 0) with false
        by (symmetry; apply Nat.eqb_neq; lia).
      destruct (digits_end_cases (_input t) Hle) as [[Hd1 _]|(Hd1 & _ & x & Hx & Hxd)];
        rewrite <- Hee, <- ?Hrr in Hd1.
      * pose proof (@exponent_stage (with_offset e (with_token Float t))
                      t' start (n + 1 + span safe_isdigit r)) as Hes.
        cbn [_input _offset _token with_offset with_token] in Hes.
        rewrite <- Hes; auto.
        -- f_equal. rewrite Hd1, (Nat.add_comm (S (_offset t))), <- skipn_skipn, <- Hrr.
           reflexivity.
        -- unfold cursor_ok. cbn [_input _offset with_offset with_token].
           destruct (digits_end_range (_input t) Hle) as [? _]. lia.
        -- rewrite Hee. apply two_left_digits_end. exact Hle.
        -- lia.
      * exfalso. rewrite readExponent_eq in Hr.
        cbn [_input _offset with_offset with_token] in Hr.
        replace (nth_error (_input t) e) with (@None ascii) in Hr
          by (symmetry; apply nth_error_None; lia).
        injection Hr as <-. revert He. apply ends_cleanly_no_slip with x; auto.
    + injection Hf as <-. rewrite <- (skipn_nth_error _ _ Hn), <- Hk.
      apply exponent_stage; auto.
  - injection Hf as <-. rewrite readExponent_eq, Hn in Hr. injection Hr as <-.
    apply nth_error_None in Hn. rewrite (skipn_all2 _ Hn). cbn [fraction_part].
    rewrite Hk. do 2 f_equal. unfold cursor_ok in Hc. lia.
Qed.

Lemma digit_not_minus (b : ascii) : safe_isdigit b = true -> (b =? "-")%char = false.
Proof.
  intros H. destruct (Ascii.eqb_spec b "-") as [->|_]; [discriminate H|reflexivity].
Qed.

(** When no run of digits took the last byte of the buffer along, a numeric
    token is the literal that the number grammar reads at its first byte:
    same kind, same length. *)
Lemma readNumber_grammar (b : ascii) (start : nat) (t : Tokenizer)
      (k : Token) (t' : Tokenizer) :
  cursor_ok t -> _offset t = S start ->
  nth_error (_input t) start = Some b ->
  readNumber b start t = Ok (k, t') ->
  k = Integer \/ k = Float ->
  ends_cleanly t' ->
  number_literal (skipn start (_input t)) = Some (k, _offset t' - start).
Proof.
  intros Hc Ho Hb Hr Hk He. unfold cursor_ok in Hc. unfold readNumber in Hr.
  destruct (negb (safe_isdigit b) && negb (b =? "-")%char) eqn:Hsel.
  { rewrite setError_eq in Hr. injection Hr as <- _.
    destruct Hk; discriminate. }
  rewrite bind_setToken in Hr.
  assert (Hle : S start <= length (_input t)) by lia.
  assert (Hw : with_token Integer t = with_offset (S start) (with_token Integer t))
    by (rewrite with_offset_same; [reflexivity|symmetry; exact Ho]).
  rewrite Hw in Hr. unfold bind at 1 in Hr.
  rewrite readDigits_at in Hr by exact Hle.
  change (_input (with_token Integer t)) with (_input t) in Hr.
  remember (skipn (S start) (_input t)) as s0 eqn:Hs0.
  remember (digits_end (_input t) (S start)) as e eqn:Hee.
  unfold obind, fst, snd in Hr.
  set (d0 := if safe_isdigit b then 1 else 0) in *.
  destruct (0 <? d0 + span safe_isdigit s0) eqn:Hok; cbn [negb] in Hr.
  2:{ rewrite setError_eq in Hr. injection Hr as <- _. destruct Hk; discriminate. }
  apply Nat.ltb_lt in Hok.
  set (t0 := with_offset e (with_token Integer t)) in *.
  unfold bind at 1 in Hr.
  destruct (readFraction t0) as [[b2 t1]| | |] eqn:Hf; try discriminate Hr.
  unfold obind, fst, snd in Hr.
  destruct b2; cbn [negb] in Hr.
  2:{ rewrite setError_eq in Hr. injection Hr as <- _. destruct Hk; discriminate. }
  unfold bind at 1 in Hr.
  destruct (readExponent t1) as [[b3 t3]| | |] eqn:Hx; try discriminate Hr.
  unfold obind, fst, snd in Hr.
  destruct b3; cbn [negb] in Hr.
  2:{ rewrite setError_eq in Hr. injection Hr as <- _. destruct Hk; discriminate. }
  rewrite bind_gets in Hr.
  assert (Hc0 : cursor_ok t0).
  { unfold cursor_ok, t0. cbn [_input _offset with_offset with_token].
    destruct (digits_end_range (_input t) Hle) as [? _]. lia. }
  assert (T0 : two_left t0)
    by (unfold t0; rewrite Hee; apply two_left_digits_end; exact Hle).
  destruct (readFraction_spec Hc0 T0) as (b2' & t1' & Hf' & A1 & T1 & _).
  rewrite Hf in Hf'. injection Hf' as <- <-.
  destruct (readExponent_spec (advances_cursor_ok A1) T1)
    as (b3' & t3' & Hx' & A3 & _).
  rewrite Hx in Hx'. injection Hx' as <- <-.
  pose proof (advances_trans A1 A3) as [Hi3 Ho3].
  cbn [_input _offset with_offset with_token t0] in Hi3, Ho3.
  unfold t0 in Ho3. cbn [_input _offset with_offset with_token] in Ho3.
  erewrite bind_Ok in Hr by (apply substr_eq; rewrite Hi3; lia).
  rewrite bind_modify in Hr. unfold current, gets in Hr.
  injection Hr as Hk3 <-.
  cbn [_offset _input with_value] in *.
  assert (He3 : ends_cleanly t3) by exact He.
  destruct (digits_end_cases (_input t) Hle) as [[Hd1 _]|(Hd1 & _ & x & Hxn & Hxd)];
    rewrite <- Hee, <- ?Hs0 in Hd1.
  2:{ exfalso. rewrite readFraction_eq in Hf. unfold t0 in Hf.
      cbn [_input _offset with_offset with_token] in Hf.
      replace (nth_error (_input t) e) with (@None ascii) in Hf
        by (symmetry; apply nth_error_None; lia).
      injection Hf as <-. rewrite readExponent_eq in Hx. unfold t0 in Hx.
      cbn [_input _offset with_offset with_token] in Hx.
      replace (nth_error (_input t) e) with (@None ascii) in Hx
        by (symmetry; apply nth_error_None; lia).
      injection Hx as <-. revert He3.
      apply ends_cleanly_no_slip with x; auto. }
  pose proof (@fraction_stage t0 t1 t3 start (1 + span safe_isdigit s0)
                Hc0 T0) as Hfs.
  specialize (Hfs ltac:(unfold t0; cbn [_offset with_offset]; lia) eq_refl Hf Hx He3).
  unfold t0 in Hfs. cbn [_input _offset _token with_offset with_token] in Hfs.
  rewrite <- Hk3, <- Hfs.
  rewrite (skipn_nth_error _ _ Hb), <- Hs0.
  unfold number_literal.
  destruct (safe_isdigit b) eqn:Hdig.
  - rewrite (@digit_not_minus b Hdig). cbn [skipn span]. rewrite Hdig.
    cbn [Nat.eqb Nat.add]. f_equal.
    rewrite Hd1, (Nat.add_comm (S start)), <- skipn_skipn, <- Hs0. reflexivity.
  - cbn [negb andb] in Hsel. apply negb_false_iff in Hsel. rewrite Hsel.
    cbn [skipn]. subst d0. cbn [Nat.add] in Hok.
    replace (span safe_isdigit s0 =? 0) with false
      by (symmetry; apply Nat.eqb_neq; lia).
    cbn [Nat.add skipn]. f_equal.
    rewrite Hd1, (Nat.add_comm (S start)), <- skipn_skipn, <- Hs0. reflexivity.
Qed.

(** ** Atoms *)

Lemma compare_ne_eq (pos n : nat) (atom : list ascii) (t : Tokenizer) :
  pos <= length (_input t) ->
  compare_ne pos n atom t =
  Ok (negb (bytes_eqb (firstn (Nat.min n (length (_input t) - pos))
                         (skipn pos (_input t))) atom), t).
Proof.
  intros H. unfold compare_ne.
  erewrite bind_Ok by (apply substr_eq; exact H). reflexivity.
Qed.

Lemma readAtom_eq (atom : list ascii) (token : Token) (t : Tokenizer) :
  cursor_ok t ->
  readAtom atom token t =
  if availableInput t <? length atom then setError PrematureEndOfInput t
  else if negb (bytes_eqb (firstn (length atom) (skipn (_offset t) (_input t))) atom)
       then setError InvalidByte t
  else if (length atom <? availableInput t)
          && safe_isalnum (nth (_offset t + length atom) (_input t) NUL)
       then setError SyntaxError t
  else Ok (token, with_token token (with_offset (_offset t + length atom) t)).
Proof.
  intros Hc. unfold readAtom, bind at 1, gets. simpl.
  destruct (availableInput t <? length atom) eqn:La; [reflexivity|].
  apply Nat.ltb_ge in La. unfold availableInput in La.
  unfold bind at 1. simpl.
  erewrite bind_Ok by (apply compare_ne_eq; exact Hc).
  rewrite Nat.min_l by exact La.
  destruct (negb _); [reflexivity|].
  destruct (length atom <? availableInput t) eqn:L; simpl.
  - apply Nat.ltb_lt in L. unfold availableInput in L.
    assert (Hn : nth_error (_input t) (_offset t + length atom) =
                 Some (nth (_offset t + length atom) (_input t) NUL))
      by (apply nth_error_nth'; lia).
    unfold bind at 1, bind at 1. rewrite (input_at_eq _ _ Hn). simpl.
    destruct (safe_isalnum _); reflexivity.
  - reflexivity.
Qed.

Lemma readAtom_spec (atom : list ascii) (token : Token) (t : Tokenizer) :
  cursor_ok t ->
  exists k t', readAtom atom token t = Ok (k, t') /\
    advances t t' /\ _token t' = k /\ (k = Error \/ k = token).
Proof.
  intros Hc. rewrite readAtom_eq by exact Hc. unfold cursor_ok in Hc.
  destruct (availableInput t <? length atom) eqn:L.
  { rewrite setError_eq. eexists; eexists; split; [reflexivity|].
    unfold advances; simpl. repeat split; auto; lia. }
  destruct (negb _).
  { rewrite setError_eq. eexists; eexists; split; [reflexivity|].
    unfold advances; simpl. repeat split; auto; lia. }
  destruct (_ && _).
  { rewrite setError_eq. eexists; eexists; split; [reflexivity|].
    unfold advances; simpl. repeat split; auto; lia. }
  apply Nat.ltb_ge in L. unfold availableInput in L.
  eexists; eexists; split; [reflexivity|].
  unfold advances; simpl. repeat split; auto; lia.
Qed.

(** ** Strings *)

Lemma bytes_between_span (input : list ascii) (o : nat) :
  forallb is_ws (bytes_between input o (o + span is_ws (skipn o input))) = true.
Proof.
  unfold bytes_between. replace (o + _ - o) with (span is_ws (skipn o input)) by lia.
  apply span_all.
Qed.

(** The loop of [readString] does what the spec says of a string body,
    except that it hands back the byte it was given when there is no body
    at all. *)
Lemma readString_loop_eq (fuel : nat) :
  forall b t, cursor_ok t -> availableInput t <= fuel ->
    let s := skipn (_offset t) (_input t) in
    let o' := _offset t + snd (string_body s) in
    match fst (string_body s) with
    | Closed => readString_loop fuel b t = Ok (Done DQUOTE, with_offset o' t)
    | Open =>
        exists b', readString_loop fuel b t = Ok (Done b', with_offset o' t) /\
                   (s = [] /\ b' = b \/ s <> [] /\ (b' =? DQUOTE)%char = false)
    | DanglingEscape =>
        readString_loop fuel b t = Ok (Return Error, failed PrematureEndOfInput o' t)
    | EmbeddedNUL =>
        readString_loop fuel b t = Ok (Return Error, failed InvalidByte o' t)
    end.
Proof.
  unfold cursor_ok.
  induction fuel as [|fuel IH]; intros b t Hc Hf; cbv zeta; simpl;
    destruct (endOfInput t) eqn:E.
  - apply endOfInput_true in E. rewrite (skipn_all2 _ E). simpl.
    exists b. rewrite with_offset_same by lia. auto.
  - apply endOfInput_false in E. unfold availableInput in Hf. lia.
  - apply endOfInput_true in E. rewrite (skipn_all2 _ E). simpl.
    exists b. rewrite with_offset_same by lia. auto.
  - apply endOfInput_false in E.
    destruct (nth_error_in_range _ E) as [c Hn].
    erewrite bind_Ok by (apply input_next_eq; exact Hn).
    rewrite (skipn_nth_error _ _ Hn).
    remember (skipn (S (_offset t)) (_input t)) as r eqn:Hr.
    destruct (c =? BACKSLASH)%char eqn:Cb.
    + rewrite bind_gets.
      destruct (endOfInput (with_offset (S (_offset t)) t)) eqn:E2.
      * apply endOfInput_true in E2. simpl in E2.
        rewrite (skipn_all2 _ E2) in Hr. subst r. simpl string_body. rewrite Cb.
        simpl. replace (_offset t + 1) with (S (_offset t)) by lia. reflexivity.
      * apply endOfInput_false in E2. simpl in E2.
        destruct (nth_error_in_range _ E2) as [d Hd].
        rewrite (skipn_nth_error _ _ Hd) in Hr. subst r.
        remember (skipn (S (S (_offset t))) (_input t)) as r2 eqn:Hr2.
        simpl string_body. rewrite Cb.
        unfold offset_inc. rewrite bind_modify.
        change (fst (?a, ?b)) with a. change (snd (?a, ?b)) with b.
        pose proof (IH c (with_offset (S (S (_offset t))) t)) as IH'.
        cbv zeta in IH'.
        change (_input (with_offset (S (S (_offset t))) t)) with (_input t) in IH'.
        change (_offset (with_offset (S (S (_offset t))) t)) with (S (S (_offset t))) in IH'.
        rewrite <- Hr2 in IH'.
        assert (H1 : S (S (_offset t)) <= length (_input t)) by lia.
        assert (H2 : availableInput (with_offset (S (S (_offset t))) t) <= fuel)
          by (unfold availableInput in *; simpl; lia).
        specialize (IH' H1 H2).
        change (_offset (with_offset (S (_offset t)) t)) with (S (_offset t)).
        assert (Hw : forall o, with_offset o (with_offset (S (S (_offset t))) t)
                               = with_offset o t) by reflexivity.
        assert (Hf' : forall e o, failed e o (with_offset (S (S (_offset t))) t)
                                  = failed e o t) by reflexivity.
        replace (_offset t + S (S (snd (string_body r2))))
          with (S (S (_offset t)) + snd (string_body r2)) by lia.
        change (with_offset (S (S (_offset t))) (with_offset (S (_offset t)) t))
          with (with_offset (S (S (_offset t))) t).
        destruct (fst (string_body r2));
          rewrite ?Hw, ?Hf' in IH'; try exact IH'.
        destruct IH' as (b' & Hrr & Hb). rewrite ?Hw in Hrr.
        exists b'. split; [exact Hrr|].
        right. split; [discriminate|].
        destruct Hb as [[_ ->]|[_ Hb]];
          [apply Ascii.eqb_eq in Cb; rewrite Cb; reflexivity|exact Hb].
    + simpl string_body. rewrite Cb.
      destruct (c =? DQUOTE)%char eqn:Cq.
      { apply Ascii.eqb_eq in Cq. rewrite Cq.
        simpl. replace (_offset t + 1) with (S (_offset t)) by lia. reflexivity. }
      destruct (c =? NUL)%char.
      { simpl. replace (_offset t + 1) with (S (_offset t)) by lia. reflexivity. }
      pose proof (IH c (with_offset (S (_offset t)) t)) as IH'.
      cbv zeta in IH'.
      change (_input (with_offset (S (_offset t)) t)) with (_input t) in IH'.
      change (_offset (with_offset (S (_offset t)) t)) with (S (_offset t)) in IH'.
      rewrite <- Hr in IH'.
      assert (H1 : S (_offset t) <= length (_input t)) by lia.
      assert (H2 : availableInput (with_offset (S (_offset t)) t) <= fuel)
        by (unfold availableInput in *; simpl; lia).
      specialize (IH' H1 H2).
      assert (Hw : forall o, with_offset o (with_offset (S (_offset t)) t)
                             = with_offset o t) by reflexivity.
      assert (Hf' : forall e o, failed e o (with_offset (S (_offset t)) t)
                                = failed e o t) by reflexivity.
      change (fst (?a, ?b)) with a. change (snd (?a, ?b)) with b.
      replace (_offset t + S (snd (string_body r)))
        with (S (_offset t) + snd (string_body r)) by lia.
      destruct (fst (string_body r));
        rewrite ?Hw, ?Hf' in IH'; try exact IH'.
      destruct IH' as (b' & Hrr & Hb). rewrite ?Hw in Hrr.
      exists b'. split; [exact Hrr|].
      right. split; [discriminate|].
      destruct Hb as [[_ ->]|[_ Hb]]; [exact Cq|exact Hb].
Qed.

Lemma string_body_le (s : list ascii) : snd (string_body s) <= length s.
Proof.
  assert (H : forall n s, length s <= n -> snd (string_body s) <= length s).
  { clear s. induction n as [|n IH]; intros [|c s] Hl; simpl in *; try lia.
    destruct (c =? BACKSLASH)%char.
    - destruct s as [|d s]; simpl; [lia|].
      assert (snd (string_body s) <= length s) by (apply IH; simpl in Hl; lia). lia.
    - destruct (c =? DQUOTE)%char; [simpl; lia|].
      destruct (c =? NUL)%char; [simpl; lia|]. simpl.
      assert (snd (string_body s) <= length s) by (apply IH; lia). lia. }
  apply (H (length s)). lia.
Qed.

(** The slice and the look-ahead behind a string literal that ends at the
    cursor. *)
Lemma readString_value_spec (token_start : nat) (t : Tokenizer) :
  cursor_ok t -> token_start < _offset t ->
  exists k t', readString_value token_start t = Ok (k, t') /\
    advances t t' /\ _token t' = k /\
    (k = Error \/
     (k = String \/ k = FieldName) /\
     _value t' = {| sv_data := token_start; sv_size := _offset t - token_start |} /\
     match k with
     | FieldName =>
         _offset t < _offset t' /\
         forallb is_ws (bytes_between (_input t) (_offset t) (_offset t' - 1)) = true /\
         nth_error (_input t) (_offset t' - 1) = Some ":"%char
     | _ =>
         forallb is_ws (bytes_between (_input t) (_offset t) (_offset t')) = true /\
         (_offset t' = length (_input t) \/
          exists c, nth_error (_input t) (_offset t') = Some c /\
                    (c = ","%char \/ c = "]"%char \/ c = "}"%char))
     end).
Proof.
  intros Hc Hs. unfold cursor_ok in Hc.
  unfold readString_value, bind at 1, gets, obind, fst, snd.
  erewrite bind_Ok by (apply substr_eq; lia).
  unfold bind at 1, modify, obind, fst, snd.
  unfold bind at 1. rewrite skipWS_eq. unfold obind, fst, snd.
  change (_input (with_value _ t)) with (_input t).
  change (_offset (with_value _ t)) with (_offset t).
  set (o1 := _offset t) in *.
  set (o2 := o1 + span is_ws (skipn o1 (_input t))).
  assert (Ho2 : o1 <= o2 <= length (_input t)).
  { pose proof (span_le is_ws (skipn o1 (_input t))) as Hl.
    rewrite length_skipn in Hl. subst o2. lia. }
  assert (Hsz : subview (_input t) token_start (o1 - token_start) =
                {| sv_data := token_start; sv_size := o1 - token_start |}).
  { unfold subview. f_equal. lia. }
  rewrite Hsz.
  assert (Hws : forallb is_ws (bytes_between (_input t) o1 o2) = true)
    by (subst o2; apply bytes_between_span).
  unfold bind at 1, gets, obind, fst, snd.
  match goal with |- context [endOfInput ?u] => destruct (endOfInput u) eqn:E end.
  - apply endOfInput_true in E. simpl in E.
    rewrite setToken_eq. eexists; eexists; split; [reflexivity|].
    unfold advances; simpl.
    split; [split; [reflexivity|lia]|]. split; [reflexivity|]. right.
    split; [auto|]. split; [reflexivity|]. split; [exact Hws|]. left. lia.
  - apply endOfInput_false in E. simpl in E.
    destruct (nth_error_in_range _ E) as [c Hn].
    erewrite bind_Ok by (apply input_next_eq; simpl; exact Hn). simpl.
    destruct (c =? ":")%char eqn:C1.
    { apply Ascii.eqb_eq in C1. subst c.
      eexists; eexists; split; [reflexivity|].
      unfold advances; simpl. rewrite Nat.sub_0_r.
      split; [split; [reflexivity|lia]|]. split; [reflexivity|]. right.
      split; [auto|]. split; [reflexivity|]. split; [lia|]. auto. }
    destruct ((c =? ",")%char || (c =? "]")%char || (c =? "}")%char) eqn:C2.
    { eexists; eexists; split; [reflexivity|].
      unfold advances; simpl.
      split; [split; [reflexivity|lia]|]. split; [reflexivity|]. right.
      split; [auto|]. split; [reflexivity|]. split; [exact Hws|].
      right. exists c. split; [exact Hn|].
      apply orb_true_iff in C2. destruct C2 as [C2|C2];
        [apply orb_true_iff in C2; destruct C2 as [C2|C2]|];
        apply Ascii.eqb_eq in C2; auto. }
    destruct (c =? NUL)%char;
      (eexists; eexists; split; [reflexivity|]);
      unfold advances; simpl; (split; [split; [reflexivity|lia]|]); auto.
Qed.

Lemma readString_spec (b : ascii) (token_start : nat) (t : Tokenizer) :
  cursor_ok t -> _offset t = S token_start ->
  nth_error (_input t) token_start = Some DQUOTE ->
  exists k t', readString b token_start t = Ok (k, t') /\
    advances t t' /\ _token t' = k /\
    (k = Error \/ k = String \/ k = FieldName) /\
    slice_ok (with_offset token_start t) k t'.
Proof.
  intros Hc Hs Hq. unfold readString, bind at 1, gets, obind, fst, snd.
  pose proof (@readString_loop_eq (availableInput t) b t Hc (le_n _)) as Hloop.
  cbv zeta in Hloop. rewrite Hs in Hloop.
  pose proof (string_body_le (skipn (S token_start) (_input t))) as Hle.
  rewrite length_skipn in Hle. unfold cursor_ok in Hc.
  set (body := string_body (skipn (S token_start) (_input t))) in *.
  assert (Hfail : forall e o, o <= length (_input t) -> S token_start <= o ->
            exists k t', Ok (Error, failed e o t) = Ok (k, t') /\
              advances t t' /\ _token t' = k /\
              (k = Error \/ k = String \/ k = FieldName) /\
              slice_ok (with_offset token_start t) k t').
  { intros e o H1 H2. eexists; eexists; split; [reflexivity|].
    unfold advances; simpl. split; [split; [reflexivity|lia]|]. auto. }
  assert (Hval : forall n,
            (S token_start < length (_input t) -> body = (Closed, n)) ->
            S token_start + n <= length (_input t) ->
            exists k t',
              readString_value token_start (with_offset (S token_start + n) t) = Ok (k, t') /\
              advances t t' /\ _token t' = k /\
              (k = Error \/ k = String \/ k = FieldName) /\
              slice_ok (with_offset token_start t) k t').
  { intros n Hclosed Hn.
    destruct (@readString_value_spec token_start (with_offset (S token_start + n) t))
      as (k & t' & Hr & [Hi Ho] & Hk & Hd).
    { unfold cursor_ok; simpl; lia. }
    { simpl; lia. }
    cbn [_input _offset with_offset] in Hi, Ho, Hd.
    exists k, t'. split; [exact Hr|].
    split; [split; [exact Hi|lia]|]. split; [exact Hk|].
    assert (Hsz : S token_start + n - token_start = S n) by lia.
    assert (Hcl : S token_start < length (_input t) ->
                  string_body (skipn (S token_start) (_input t)) = (Closed, S n - 1)).
    { intros Hlt. replace (S n - 1) with n by lia. exact (Hclosed Hlt). }
    destruct Hd as [->|([->| ->] & Hv & Hd)]; [simpl; auto| |].
    - split; [auto|]. destruct Hd as (Hw & Hl). rewrite Hsz in Hv.
      exists token_start, (S n). cbn [_input _offset with_offset].
      replace (token_start + S n) with (S token_start + n) by lia.
      split; [lia|]. split; [lia|]. split; [lia|]. auto 10.
    - split; [auto|]. destruct Hd as (Hlt & Hw & Hl). rewrite Hsz in Hv.
      exists token_start, (S n). cbn [_input _offset with_offset].
      replace (token_start + S n) with (S token_start + n) by lia.
      split; [lia|]. split; [lia|]. split; [lia|]. auto 10. }
  destruct body as [e n] eqn:Hbody. cbn [fst snd] in Hloop, Hle.
  destruct e.
  - erewrite bind_Ok by exact Hloop. cbv beta iota.
    change (negb (DQUOTE =? DQUOTE)%char) with false. cbv iota.
    apply Hval; [auto|lia].
  - destruct Hloop as (b' & Hr & Hb). erewrite bind_Ok by exact Hr.
    cbv beta iota.
    destruct (b' =? DQUOTE)%char eqn:Eq; cbn [negb].
    + destruct Hb as [[Hnil _]|[_ Hb]]; [|congruence].
      apply skipn_all_iff in Hnil.
      subst body. rewrite (skipn_all2 _ Hnil) in Hbody.
      cbn [string_body] in Hbody. injection Hbody as <-.
      apply Hval; lia.
    + rewrite setError_eq. apply Hfail; lia.
  - erewrite bind_Ok by exact Hloop. apply Hfail; lia.
  - erewrite bind_Ok by exact Hloop. apply Hfail; lia.
Qed.

(** ** The driving loop *)

Lemma slice_ok_earlier (t u : Tokenizer) (k : Token) (t' : Tokenizer) :
  _input u = _input t -> _offset t <= _offset u ->
  slice_ok u k t' -> slice_ok t k t'.
Proof.
  intros Hi Ho. unfold slice_ok. rewrite Hi.
  destruct k; auto.
  - intros (start & c & H1 & H2). exists start, c. intuition lia.
  - intros (start & c & H1 & H2). exists start, c. intuition lia.
  - intros (start & n & H1 & H2). exists start, n. intuition lia.
  - intros (start & n & H1 & H2). exists start, n. intuition lia.
Qed.

Lemma next_post_earlier (t u : Tokenizer) (k : Token) (t' : Tokenizer) :
  advances t u -> next_post u k t' -> next_post t k t'.
Proof.
  intros A (A' & Hk & Hc & He & Hs).
  split; [exact (advances_trans A A')|]. destruct A as [Hi Ho].
  split; [exact Hk|]. split; [exact Hc|]. split; [rewrite <- Hi; exact He|].
  apply slice_ok_earlier with u; auto. lia.
Qed.

Lemma readEndBracket_spec (token : Token) (t : Tokenizer) :
  exists k t', readEndBracket token t = Ok (k, t') /\
    _input t' = _input t /\ _offset t' = _offset t /\ _token t' = k /\
    (k = Error \/ k = token).
Proof.
  unfold readEndBracket, bind at 1, gets. simpl.
  destruct (Token_eqb (_token t) Comma).
  - rewrite setError_eq. eexists; eexists; split; [reflexivity|]. simpl. auto.
  - rewrite setToken_eq. eexists; eexists; split; [reflexivity|]. simpl. auto.
Qed.

Lemma next_post_plain (t : Tokenizer) (k : Token) (t' : Tokenizer) :
  advances t t' -> _token t' = k -> plain_token k -> next_post t k t'.
Proof.
  intros A Hk Hp. unfold next_post.
  destruct k; simpl in Hp; try contradiction;
    (split; [exact A|]); (split; [exact Hk|]);
    (split; [discriminate|]); (split; [discriminate|]); exact I.
Qed.

Lemma next_fuel_spec (fuel : nat) :
  forall t, cursor_ok t -> availableInput t < fuel ->
    exists k t', next_fuel fuel t = Ok (k, t') /\ next_post t k t'.
Proof.
  induction fuel as [|fuel IH]; intros t Hc Hf; [lia|].
  unfold cursor_ok in Hc. simpl.
  unfold bind at 1. rewrite skipWS_eq. simpl.
  set (o1 := _offset t + span is_ws (skipn (_offset t) (_input t))).
  assert (Ho1 : _offset t <= o1 <= length (_input t)).
  { pose proof (span_le is_ws (skipn (_offset t) (_input t))) as Hl.
    rewrite length_skipn in Hl. subst o1. lia. }
  unfold bind at 1, gets. simpl.
  destruct (endOfInput (with_offset o1 t)) eqn:E.
  { apply endOfInput_true in E. simpl in E.
    rewrite setToken_eq. eexists; eexists; split; [reflexivity|].
    unfold next_post, advances; simpl.
    repeat split; auto; try lia; discriminate. }
  apply endOfInput_false in E. simpl in E.
  destruct (nth_error_in_range _ E) as [c Hn].
  unfold bind at 1, gets. simpl.
  erewrite bind_Ok by (apply input_next_eq; simpl; exact Hn). simpl.
  set (u := with_offset (S o1) t).
  assert (Au : advances t u) by (unfold advances; simpl; split; [reflexivity|lia]).
  assert (Hplain : forall k t', _input t' = _input t -> _offset t' = S o1 ->
            _token t' = k -> plain_token k -> next_post t k t').
  { intros k t' Hi Ho Hk Hp. apply next_post_plain; auto.
    unfold advances. rewrite Hi, Ho. split; [reflexivity|lia]. }
  assert (Hbr : forall token, plain_token token ->
            exists k t', readEndBracket token u = Ok (k, t') /\ next_post t k t').
  { intros token Hp.
    destruct (readEndBracket_spec token u) as (k & t' & Hr & Hi & Ho & Hk & Hd).
    exists k, t'. split; [exact Hr|]. apply Hplain; auto.
    destruct Hd as [->| ->]; [exact I|exact Hp]. }
  assert (Hat : forall atom token, plain_token token ->
            exists k t', readAtom atom token u = Ok (k, t') /\ next_post t k t').
  { intros atom token Hp.
    destruct (@readAtom_spec atom token u) as (k & t' & Hr & A & Hk & Hd).
    { unfold cursor_ok; simpl; lia. }
    exists k, t'. split; [exact Hr|].
    apply next_post_plain; [exact (advances_trans Au A)|exact Hk|].
    destruct Hd as [->| ->]; [exact I|exact Hp]. }
  unfold next_switch.
  destruct (c =? "{")%char.
  { rewrite setToken_eq. eexists; eexists; split; [reflexivity|].
    apply Hplain; simpl; auto. }
  destruct (c =? "}")%char; [apply Hbr; exact I|].
  destruct (c =? "[")%char.
  { rewrite setToken_eq. eexists; eexists; split; [reflexivity|].
    apply Hplain; simpl; auto. }
  destruct (c =? "]")%char; [apply Hbr; exact I|].
  destruct (c =? "n")%char; [apply Hat; exact I|].
  destruct (c =? "t")%char; [apply Hat; exact I|].
  destruct (c =? "f")%char; [apply Hat; exact I|].
  destruct (c =? NUL)%char.
  { rewrite setError_eq. eexists; eexists; split; [reflexivity|].
    apply Hplain; simpl; auto. }
  destruct (c =? DQUOTE)%char eqn:Cq.
  { apply Ascii.eqb_eq in Cq. subst c.
    destruct (@readString_spec DQUOTE o1 u) as (k & t' & Hr & A & Hk & Hd & Hs).
    { unfold cursor_ok; simpl; lia. }
    { simpl; lia. }
    { exact Hn. }
    exists k, t'. split; [exact Hr|].
    pose proof (advances_trans Au A) as At.
    destruct Hd as [->|[->| ->]].
    - apply next_post_plain; simpl; auto.
    - split; [exact At|]. split; [exact Hk|]. split; [discriminate|].
      split; [discriminate|].
      apply slice_ok_earlier with (with_offset o1 u); simpl; auto; lia.
    - split; [exact At|]. split; [exact Hk|]. split; [discriminate|].
      split; [discriminate|].
      apply slice_ok_earlier with (with_offset o1 u); simpl; auto; lia. }
  destruct (c =? ",")%char.
  { unfold readComma, bind at 1, gets. simpl.
    destruct (comma_allowed_after (_token t)).
    - unfold bind at 1, modify. simpl.
      destruct (IH (with_token Comma u)) as (k & t' & Hr & Hp).
      { unfold cursor_ok; simpl; lia. }
      { unfold availableInput in *; simpl; lia. }
      exists k, t'. split; [exact Hr|].
      apply next_post_earlier with (with_token Comma u); auto.
    - rewrite setError_eq. eexists; eexists; split; [reflexivity|].
      apply Hplain; simpl; auto. }
  destruct (@readNumber_spec c o1 u) as (k & t' & Hr & A & Hk & Hd).
  { unfold cursor_ok; simpl; lia. }
  { simpl; lia. }
  exists k, t'. split; [exact Hr|].
  pose proof (advances_trans Au A) as At.
  destruct Hd as [[-> _]|(Hd & Hv & Hb & T')].
  - apply next_post_plain; simpl; auto.
  - assert (Hg : ends_cleanly t' ->
                 number_literal (skipn o1 (_input t)) = Some (k, _offset t' - o1)).
    { apply (@readNumber_grammar c o1 u k t'); auto. }
    assert (Hsl : exists start c0,
              _offset t <= start < _offset t' /\
              _value t' = {| sv_data := start; sv_size := _offset t' - start |} /\
              nth_error (_input t) start = Some c0 /\
              (safe_isdigit c0 = true \/ c0 = "-"%char) /\
              two_left t' /\
              (ends_cleanly t' ->
               number_literal (skipn start (_input t)) = Some (k, _offset t' - start))).
    { exists o1, c. destruct A as [_ Ho]. simpl in Ho.
      repeat split; auto; lia. }
    split; [exact At|]. split; [exact Hk|].
    destruct Hd as [->| ->]; (split; [discriminate|]);
      (split; [discriminate|]); exact Hsl.
Qed.

Lemma next_spec (t : Tokenizer) :
  cursor_ok t -> exists k t', next t = Ok (k, t') /\ next_post t k t'.
Proof. intros Hc. unfold next. apply next_fuel_spec; [exact Hc|lia]. Qed.

Lemma next_at_end (t : Tokenizer) :
  length (_input t) <= _offset t -> next t = Ok (End, with_token End t).
Proof.
  intros H. unfold next. simpl.
  unfold bind at 1. rewrite skipWS_eq. rewrite (skipn_all2 _ H). simpl.
  rewrite with_offset_same by lia.
  unfold bind at 1, gets. simpl.
  apply endOfInput_true in H. rewrite H. reflexivity.
Qed.

(** Every call of [next] returns a token: the loops end within their bound,
    nothing throws and no read leaves the buffer. *)
Lemma next_total (t : Tokenizer) : exists k t', next t = Ok (k, t').
Proof.
  destruct (Nat.le_gt_cases (_offset t) (length (_input t))) as [H|H].
  - destruct (next_spec H) as (k & t' & Hr & _). now exists k, t'.
  - rewrite next_at_end by lia. eauto.
Qed.

Lemma next_End_fixed (t' : Tokenizer) :
  length (_input t') <= _offset t' -> _token t' = End ->
  next t' = Ok (End, t').
Proof.
  intros Ho Hk. rewrite next_at_end by exact Ho.
  destruct t'; simpl in *. subst. reflexivity.
Qed.

Lemma next_End_state (t t' : Tokenizer) :
  next t = Ok (End, t') ->
  length (_input t') <= _offset t' /\ _token t' = End.
Proof.
  intros Hr.
  destruct (Nat.le_gt_cases (_offset t) (length (_input t))) as [H|H].
  - destruct (next_spec H) as (k & u & Hr' & (Hi & Ho) & Hk & _ & He & _).
    rewrite Hr in Hr'. injection Hr' as <- <-.
    rewrite Hi. split; [rewrite (He eq_refl); lia|exact Hk].
  - rewrite next_at_end in Hr by lia. injection Hr as <-. simpl. split; [lia|reflexivity].
Qed.

(** ** Dispatch on the next significant byte *)

Lemma span_app (p : ascii -> bool) (ws s : list ascii) :
  forallb p ws = true -> span p (ws ++ s) = length ws + span p s.
Proof.
  induction ws as [|x ws IH]; simpl; [reflexivity|].
  intros H. apply andb_true_iff in H. destruct H as [Hx Hw].
  rewrite Hx, (IH Hw). reflexivity.
Qed.

Lemma skipn_decompose (input : list ascii) (o : nat) (ws : list ascii)
      (c : ascii) (rest : list ascii) :
  skipn o input = ws ++ c :: rest ->
  nth_error input (o + length ws) = Some c /\
  skipn (S (o + length ws)) input = rest /\
  length input = o + length ws + 1 + length rest.
Proof.
  intros H. split; [|split].
  - rewrite <- nth_error_skipn, H, nth_error_app2 by lia.
    rewrite Nat.sub_diag. reflexivity.
  - replace (S (o + length ws)) with (S (length ws) + o) by lia.
    rewrite <- skipn_skipn, H, skipn_app.
    rewrite skipn_all2 by lia.
    replace (S (length ws) - length ws) with 1 by lia. reflexivity.
  - pose proof (length_skipn o input) as L. rewrite H in L.
    rewrite length_app in L. simpl in L. lia.
Qed.

(** After the white space [ws], a call of [next] reads the byte [c] and
    enters its [switch] with the cursor behind [c]. *)
Lemma next_dispatch (t : Tokenizer) (ws : list ascii) (c : ascii) (rest : list ascii) :
  skipn (_offset t) (_input t) = ws ++ c :: rest ->
  forallb is_ws ws = true -> is_ws c = false ->
  next t =
  next_switch (next_fuel (availableInput t)) c (_offset t + length ws)
    (with_offset (S (_offset t + length ws)) t).
Proof.
  intros H Hws Hc.
  destruct (@skipn_decompose _ _ _ _ _ H) as (Hn & _ & Hl).
  unfold next. simpl. unfold bind at 1. rewrite skipWS_eq. simpl.
  rewrite H, span_app by exact Hws. simpl. rewrite Hc, Nat.add_0_r.
  unfold bind at 1, gets. simpl.
  replace (endOfInput (with_offset (_offset t + length ws) t)) with false
    by (symmetry; apply endOfInput_false; simpl; lia).
  unfold bind at 1, gets. simpl.
  erewrite bind_Ok by (apply input_next_eq; simpl; exact Hn). reflexivity.
Qed.

Lemma next_fuel_S (fuel : nat) (t : Tokenizer) :
  next_fuel (S fuel) t =
  let o1 := _offset t + span is_ws (skipn (_offset t) (_input t)) in
  if endOfInput (with_offset o1 t) then Ok (End, with_token End (with_offset o1 t))
  else match nth_error (_input t) o1 with
       | Some c => next_switch (next_fuel fuel) c o1 (with_offset (S o1) t)
       | None => OutOfBounds
       end.
Proof.
  cbv zeta.
  change (next_fuel (S fuel) t) with
    ((skipWS ;;
      eoi <- gets endOfInput ;;
      if eoi then setToken End
      else token_start <- gets _offset ;;
           b <- input_next ;;
           next_switch (next_fuel fuel) b token_start) t).
  unfold bind at 1. rewrite skipWS_eq.
  set (o1 := _offset t + span is_ws (skipn (_offset t) (_input t))).
  unfold obind, fst, snd, bind at 1, gets, obind, fst, snd.
  destruct (endOfInput (with_offset o1 t)); [reflexivity|].
  unfold bind at 1, obind, fst, snd, bind at 1, input_next, bind at 1, gets, obind, fst, snd.
  unfold bind at 1, input_at.
  change (_input (with_offset o1 t)) with (_input t).
  change (_offset (with_offset o1 t)) with o1.
  destruct (nth_error (_input t) o1); reflexivity.
Qed.

(** More fuel does not change a result. *)
Lemma next_fuel_mono (fuel : nat) :
  forall t r, next_fuel fuel t = Ok r -> next_fuel (S fuel) t = Ok r.
Proof.
  induction fuel as [|fuel IH]; intros t r H; [discriminate|].
  rewrite next_fuel_S in H. rewrite next_fuel_S. cbv zeta in *.
  destruct (endOfInput _); [exact H|].
  destruct (nth_error _ _) as [c|]; [|exact H].
  revert H. unfold next_switch.
  repeat match goal with
         | |- context [if (?a =? ?b)%char then _ else _] =>
             destruct (a =? b)%char; [exact (fun H => H)|]
         end.
  destruct (c =? ",")%char; [|exact (fun H => H)].
  unfold readComma, bind at 1 3, gets, obind, fst, snd.
  destruct (comma_allowed_after _); [|exact (fun H => H)].
  unfold bind, modify, obind, fst, snd. apply IH.
Qed.

Lemma next_fuel_enough (fuel : nat) (t : Tokenizer) :
  availableInput t < fuel -> next_fuel fuel t = next t.
Proof.
  intros H. destruct (next_total t) as (k & t' & Hr). rewrite Hr.
  unfold next in Hr.
  induction H as [|m Hm IH]; [exact Hr|].
  apply next_fuel_mono. exact IH.
Qed.

Lemma readAtom_rest (atom : list ascii) (token : Token) (u : Tokenizer) :
  cursor_ok u ->
  readAtom atom token u =
  let rest := skipn (_offset u) (_input u) in
  if length rest <? length atom then setError PrematureEndOfInput u
  else if negb (bytes_eqb (firstn (length atom) rest) atom)
       then setError InvalidByte u
  else if alnum_at rest (length atom) then setError SyntaxError u
  else Ok (token, with_token token (with_offset (_offset u + length atom) u)).
Proof.
  intros Hc. cbv zeta. rewrite readAtom_eq by exact Hc.
  assert (Ha : availableInput u = length (skipn (_offset u) (_input u)))
    by (unfold availableInput; now rewrite length_skipn).
  rewrite Ha.
  destruct (length (skipn (_offset u) (_input u)) <? length atom) eqn:L;
    [reflexivity|].
  destruct (negb _); [reflexivity|].
  unfold alnum_at. rewrite nth_error_skipn.
  destruct (length atom <? length (skipn (_offset u) (_input u))) eqn:L2.
  - apply Nat.ltb_lt in L2. rewrite length_skipn in L2.
    rewrite (@nth_error_nth' _ (_input u) (_offset u + length atom) NUL) by lia.
    reflexivity.
  - apply Nat.ltb_ge in L2. rewrite length_skipn in L2.
    replace (nth_error (_input u) (_offset u + length atom)) with (@None ascii)
      by (symmetry; apply nth_error_None; lia).
    reflexivity.
Qed.

(** ** Integer conversion of a numeric token *)

Lemma digit_or_minus_not_space (c : ascii) :
  safe_isdigit c = true \/ c = "-"%char -> isspace c = false.
Proof.
  intros [H| ->]; [|reflexivity].
  destruct c as [[] [] [] [] [] [] [] []]; try discriminate H; reflexivity.
Qed.

(** A run of digits that is followed by a byte which is no digit ends on
    that byte at the latest: its value and length do not depend on that byte
    nor on what comes behind it. *)
Lemma read_run_bounded (isd : ascii -> bool) (val : ascii -> Z) (base : Z)
      (s : list ascii) :
  forall acc n, exists v m,
    forall d r, isd d = false ->
      exists rest, read_run isd val base (s ++ d :: r) acc n = Ok (v, m, rest).
Proof.
  induction s as [|c s IH]; intros acc n; simpl.
  - exists acc, n. intros d r Hd. rewrite Hd. eauto.
  - destruct (isd c).
    + apply IH.
    + exists acc, n. intros d r _. eauto.
Qed.

Lemma strtoll_scan_bounded (s : list ascii) (c0 : ascii) :
  hd_error s = Some c0 -> safe_isdigit c0 = true \/ c0 = "-"%char ->
  exists res, forall d r, safe_isdigit d = false ->
    strtoll_scan (s ++ d :: r) = Ok res.
Proof.
  intros Hs Hc. destruct s as [|x s]; [discriminate|]. injection Hs as ->.
  pose proof (digit_or_minus_not_space Hc) as Hsp.
  unfold strtoll_scan. simpl. rewrite Hsp. simpl.
  destruct (c0 =? "-")%char eqn:Em.
  - destruct (read_run_bounded safe_isdigit digit_val 10 s 0 0) as (v & m & Hrun).
    eexists. intros d r Hd. unfold obind. destruct (Hrun d r Hd) as [rest ->]. reflexivity.
  - destruct (c0 =? "+")%char eqn:Ep.
    + destruct (read_run_bounded safe_isdigit digit_val 10 s 0 0) as (v & m & Hrun).
      eexists. intros d r Hd. unfold obind. destruct (Hrun d r Hd) as [rest ->]. reflexivity.
    + destruct (read_run_bounded safe_isdigit digit_val 10 (c0 :: s) 0 0) as (v & m & Hrun).
      eexists. intros d r Hd. unfold obind. destruct (Hrun d r Hd) as [rest Hr].
      rewrite <- app_comm_cons in Hr. rewrite Hr. reflexivity.
Qed.

(** What the slice of a numeric token looks like in the buffer: the bytes
    from its start are the slice followed by the rest of the buffer from the
    cursor on. *)
Lemma slice_then_rest (input : list ascii) (start o : nat) :
  start <= o <= length input ->
  skipn start input =
  sv_bytes input {| sv_data := start; sv_size := o - start |} ++ skipn o input.
Proof.
  intros H. unfold sv_bytes. simpl.
  replace o with ((o - start) + start) at 2 by lia.
  rewrite <- skipn_skipn. symmetry. apply firstn_skipn.
Qed.

(** After a numeric token, [intValue] converts the copy exactly when the
    slice ends where the buffer ends, and the conversion in place sees what
    a conversion of the terminated copy would see: it stops inside the
    buffer, on the byte behind the slice at the latest. *)
Lemma intValue_numeric (t : Tokenizer) (k : Token) (t' : Tokenizer) :
  cursor_ok t -> next t = Ok (k, t') -> k = Integer \/ k = Float ->
  (availableInput t' = 0 <->
   sv_data (_value t') + sv_size (_value t') = length (_input t')) /\
  intValue t' =
  (if availableInput t' =? 0
   then stoll (sv_bytes (_input t') (_value t'))
   else strtoll (sv_bytes (_input t') (_value t') ++ [NUL])).
Proof.
  intros Hc Hr Hk.
  destruct (next_spec Hc) as (k' & u & Hr' & (Hi & Ho) & Htok & _ & _ & Hs).
  rewrite Hr in Hr'. injection Hr' as <- <-.
  assert (Hn : exists start c,
             _offset t <= start < _offset t' /\
             _value t' = {| sv_data := start; sv_size := _offset t' - start |} /\
             nth_error (_input t) start = Some c /\
             (safe_isdigit c = true \/ c = "-"%char) /\ two_left t').
  { destruct Hk as [->| ->]; destruct Hs as (start & c & H1 & H2 & H3 & H4 & H5 & _);
      exists start, c; auto. }
  destruct Hn as (start & c & Hst & Hv & Hn & Hd & T').
  assert (Hhas : hasValue t' = true)
    by (unfold hasValue; rewrite Htok; destruct Hk as [->| ->]; reflexivity).
  unfold availableInput. rewrite Hv, Hi. simpl. split; [lia|].
  unfold intValue. rewrite Hhas. simpl. unfold availableInput.
  rewrite Hv, Hi. simpl.
  destruct (length (_input t) - _offset t' =? 0) eqn:E; [reflexivity|].
  apply Nat.eqb_neq in E.
  destruct T' as [T'|(_ & d & Hd' & Hdd)]; [rewrite Hi in T'; lia|].
  rewrite Hi in Hd'.
  rewrite (@slice_then_rest (_input t) start (_offset t')) by lia.
  rewrite (skipn_nth_error _ _ Hd').
  set (slice := sv_bytes (_input t) {| sv_data := start; sv_size := _offset t' - start |}).
  assert (Hhd : hd_error slice = Some c).
  { subst slice. unfold sv_bytes. simpl.
    rewrite (skipn_nth_error _ _ Hn).
    destruct (_offset t' - start) eqn:L; [lia|reflexivity]. }
  destruct (strtoll_scan_bounded _ Hhd Hd) as (res & Hres).
  unfold strtoll. rewrite (Hres d _ Hdd), (Hres NUL [] eq_refl). reflexivity.
Qed.

Lemma strtoll_scan_terminated (s : list ascii) :
  exists res, strtoll_scan (s ++ [NUL]) = Ok res.
Proof.
  unfold strtoll_scan.
  assert (Hsp : exists x r, skip_space (s ++ [NUL]) = x :: r /\
                  exists s', x :: r = s' ++ [NUL]).
  { induction s as [|x s IH]; simpl.
    - exists NUL, []. split; [reflexivity|]. now exists [].
    - destruct (isspace x); [exact IH|].
      exists x, (s ++ [NUL]). split; [reflexivity|]. now exists (x :: s). }
  destruct Hsp as (x & r & -> & s' & Hs'). simpl.
  assert (Hrun : forall l, exists v m rest,
             read_run safe_isdigit digit_val 10 (l ++ [NUL]) 0 0 = Ok (v, m, rest)).
  { intros l.
    destruct (read_run_bounded safe_isdigit digit_val 10 l 0 0) as (v & m & H).
    destruct (H NUL [] eq_refl) as [rest Hrest]. eauto. }
  destruct s' as [|y s'].
  - simpl in Hs'. injection Hs' as -> ->. simpl. eauto.
  - simpl in Hs'. injection Hs' as -> ->.
    destruct (y =? "-")%char; [|destruct (y =? "+")%char]; unfold obind.
    + destruct (Hrun s') as (v & m & rest & ->). eauto.
    + destruct (Hrun s') as (v & m & rest & ->). eauto.
    + destruct (Hrun (y :: s')) as (v & m & rest & H).
      rewrite <- app_comm_cons in H. rewrite H. eauto.
Qed.

(** X11: [intValue] after a numeric token never reads outside the buffer,
    whether it converts in place or converts the copy. *)
Lemma intValue_in_bounds (t : Tokenizer) (k : Token) (t' : Tokenizer) :
  cursor_ok t -> next t = Ok (k, t') -> k = Integer \/ k = Float ->
  intValue t' <> OutOfBounds.
Proof.
  intros Hc Hr Hk. destruct (intValue_numeric Hc Hr Hk) as [_ ->].
  destruct (strtoll_scan_terminated (sv_bytes (_input t') (_value t'))) as [res Hres].
  destruct (availableInput t' =? 0).
  - unfold stoll. rewrite Hres. simpl.
    destruct (negb _); [discriminate|]. destruct (ll_out_of_range _); discriminate.
  - unfold strtoll. rewrite Hres. discriminate.
Qed.

(** X12: on a numeric token whose value fits, the conversion in place and
    the conversion of the copy give the same integer: whatever [stoll]
    returns for the copy of the slice is what [intValue] returns. *)
Lemma intValue_paths_agree (t : Tokenizer) (k : Token) (t' : Tokenizer) (v : Z) :
  cursor_ok t -> next t = Ok (k, t') -> k = Integer \/ k = Float ->
  stoll (sv_bytes (_input t') (_value t')) = Ok v ->
  intValue t' = Ok v.
Proof.
  intros Hc Hr Hk Hv. destruct (intValue_numeric Hc Hr Hk) as [_ ->].
  destruct (availableInput t' =? 0); [exact Hv|].
  unfold stoll in Hv. unfold strtoll.
  destruct (strtoll_scan _) as [res| | |]; try discriminate. simpl in *.
  destruct (negb (converted res)); [discriminate|].
  destruct (ll_out_of_range (exact res)) eqn:R; [discriminate|].
  injection Hv as <-. f_equal.
  unfold ll_out_of_range in R. apply orb_false_iff in R. destruct R as [R1 R2].
  apply Z.ltb_ge in R1. apply Z.ltb_ge in R2. lia.
Qed.

(** ** Floating-point conversion of a numeric token *)

Lemma span_copy (p : ascii -> bool) (s : list ascii) (n : nat) :
  p NUL = false -> span p s <= n ->
  span p (firstn n s ++ [NUL]) = span p s.
Proof.
  intros Hp. revert n. induction s as [|c s IH]; intros n H.
  - rewrite firstn_nil. simpl. now rewrite Hp.
  - destruct n as [|n]; simpl in *.
    + destruct (p c); [lia|]. now rewrite Hp.
    + destruct (p c); [|reflexivity]. f_equal. apply IH. lia.
Qed.

Lemma skipn_copy (s : list ascii) (k n : nat) :
  k <= n -> n <= length s ->
  skipn k (firstn n s ++ [NUL]) = firstn (n - k) (skipn k s) ++ [NUL].
Proof.
  intros Hk Hn. rewrite skipn_app, length_firstn, skipn_firstn_comm.
  replace (k - Nat.min n (length s)) with 0 by lia. reflexivity.
Qed.

Lemma firstn_copy (s : list ascii) (k n : nat) :
  k <= n -> n <= length s ->
  firstn k (firstn n s ++ [NUL]) = firstn k s.
Proof.
  intros Hk Hn. rewrite firstn_app, length_firstn, firstn_firstn.
  replace (k - Nat.min n (length s)) with 0 by lia.
  replace (Nat.min k n) with k by lia. simpl. apply app_nil_r.
Qed.

Lemma read_run_span (isd : ascii -> bool) (val : ascii -> Z) (base : Z)
      (s : list ascii) :
  forall acc n,
    span isd s < length s ->
    read_run isd val base s acc n =
    Ok (run_value val base (firstn (span isd s) s) acc, n + span isd s,
        skipn (span isd s) s).
Proof.
  induction s as [|c s IH]; intros acc n H; simpl in *; [lia|].
  destruct (isd c).
  - rewrite IH by lia. simpl. do 3 f_equal. lia.
  - simpl. now rewrite Nat.add_0_r.
Qed.

Lemma read_run_copy (isd : ascii -> bool) (val : ascii -> Z) (base : Z)
      (s : list ascii) (m : nat) (acc : Z) (n : nat) :
  isd NUL = false -> span isd s <= m -> m <= length s ->
  read_run isd val base (firstn m s ++ [NUL]) acc n =
  Ok (run_value val base (firstn (span isd s) s) acc, n + span isd s,
      firstn (m - span isd s) (skipn (span isd s) s) ++ [NUL]).
Proof.
  intros Hp Hk Hm.
  rewrite read_run_span; rewrite (span_copy _ _ Hp Hk).
  - now rewrite firstn_copy, skipn_copy.
  - rewrite length_app, length_firstn. simpl. lia.
Qed.

Lemma digit_bytes (c : ascii) :
  safe_isdigit c = true ->
  isspace c = false /\ (c =? "-")%char = false /\ (c =? "+")%char = false /\
  (c =? ".")%char = false /\
  (to_lower c =? "i")%char = false /\ (to_lower c =? "n")%char = false.
Proof.
  intros H.
  destruct c as [[] [] [] [] [] [] [] []]; try discriminate H; repeat split.
Qed.

Lemma exponent_introducer_lower (c : ascii) :
  (to_lower c =? "e")%char = is_exponent_introducer c.
Proof. destruct c as [[] [] [] [] [] [] [] []]; reflexivity. Qed.

Lemma read_sign_plus_minus (d : ascii) (r : list ascii) :
  read_sign (d :: r) =
  Ok (if is_plus_minus d then ((d =? "-")%char, r) else (false, d :: r)).
Proof.
  unfold read_sign, is_plus_minus.
  destruct (d =? "-")%char eqn:Em.
  - now rewrite orb_true_r.
  - rewrite orb_false_r. destruct (d =? "+")%char; reflexivity.
Qed.

Lemma span_positive (p : ascii -> bool) (s : list ascii) :
  span p s <> 0 -> exists c r, s = c :: r /\ p c = true.
Proof.
  destruct s as [|c r]; simpl; [congruence|].
  destruct (p c) eqn:E; [eauto|congruence].
Qed.

(** The exponent that [strtod] reads behind a significand is the one of the
    number grammar, and it is the same whether the literal is followed by
    the rest of the buffer or by the NUL of a copy. *)
Lemma exponent_scan_copy (kind : Token) (n0 : nat) (s : list ascii)
      (k : Token) (n : nat) :
  exponent_part kind n0 s = Some (k, n) -> n - n0 < length s ->
  n0 <= n /\
  exists e, exponent_scan "e" s = Ok e /\
            exponent_scan "e" (firstn (n - n0) s ++ [NUL]) = Ok e.
Proof.
  intros H Hl. destruct s as [|c r]; [simpl in Hl; lia|].
  unfold exponent_part in H. unfold exponent_scan at 1.
  rewrite exponent_introducer_lower.
  destruct (is_exponent_introducer c) eqn:Ec.
  - set (sg := match r with
               | d :: _ => if is_plus_minus d then 1 else 0
               | [] => 0
               end) in *.
    remember (span safe_isdigit (skipn sg r)) as k2 eqn:Ek2.
    destruct (k2 =? 0) eqn:Ek; [discriminate|].
    apply Nat.eqb_neq in Ek. injection H as _ <-. split; [lia|].
    replace (n0 + 1 + sg + k2 - n0) with (S (sg + k2)) in * by lia.
    cbn [length] in Hl. cbn [firstn app]. unfold exponent_scan.
    rewrite exponent_introducer_lower, Ec.
    destruct r as [|d r2]; [subst sg; simpl in Ek2; congruence|].
    pose proof (span_le safe_isdigit (skipn sg (d :: r2))) as Hle.
    rewrite <- Ek2 in Hle. cbn [length] in Hl.
    rewrite read_sign_plus_minus.
    destruct (is_plus_minus d) eqn:Ed; subst sg; cbn [skipn] in *.
    + cbn [Nat.add firstn app]. rewrite read_sign_plus_minus, Ed. unfold obind.
      rewrite read_run_span by lia.
      rewrite read_run_copy by (try reflexivity; lia).
      rewrite <- Ek2. eexists; split; reflexivity.
    + cbn [Nat.add]. cbn [length] in Hle.
      destruct k2 as [|k2']; [congruence|].
      cbn [firstn app]. rewrite read_sign_plus_minus, Ed. unfold obind.
      change (d :: firstn k2' r2 ++ [NUL]) with (firstn (S k2') (d :: r2) ++ [NUL]).
      rewrite read_run_span by (rewrite <- Ek2; simpl; lia).
      rewrite read_run_copy by (try reflexivity; rewrite <- ?Ek2; simpl; lia).
      rewrite <- Ek2. eexists; split; reflexivity.
  - injection H as _ <-. split; [lia|].
    eexists; split; [reflexivity|].
    rewrite Nat.sub_diag. reflexivity.
Qed.

Lemma exponent_part_ge (kind : Token) (n0 : nat) (s : list ascii)
      (k : Token) (n : nat) :
  exponent_part kind n0 s = Some (k, n) -> n0 <= n.
Proof.
  unfold exponent_part. destruct s as [|c r].
  - intros H. injection H as _ <-. lia.
  - destruct (is_exponent_introducer c).
    + destruct (_ =? 0); [discriminate|]. intros H. injection H as _ <-. lia.
    + intros H. injection H as _ <-. lia.
Qed.

(** The decimal number that [strtod] reads at the first digit of a literal
    of the number grammar is the same whether the literal is followed by the
    rest of the buffer or by the NUL of a copy. *)
Lemma dec_scan_copy (neg : bool) (n0 : nat) (s : list ascii)
      (k : Token) (n : nat) :
  span safe_isdigit s <> 0 ->
  fraction_part (n0 + span safe_isdigit s) (skipn (span safe_isdigit s) s)
    = Some (k, n) ->
  n - n0 < length s ->
  n0 + span safe_isdigit s <= n /\
  exists v,
    dec_scan neg s = Ok {| converted := true; exact := v |} /\
    dec_scan neg (firstn (n - n0) s ++ [NUL])
      = Ok {| converted := true; exact := v |}.
Proof.
  intros Hk H Hl.
  pose proof (span_le safe_isdigit s) as Hle.
  pose proof (length_skipn (span safe_isdigit s) s) as Hlen.
  remember (span safe_isdigit s) as k0 eqn:Ek0.
  remember (skipn k0 s) as s2 eqn:Es2.
  unfold fraction_part in H.
  destruct s2 as [|c r].
  - injection H as _ <-. simpl in Hlen. lia.
  - cbn [length] in Hlen.
    destruct (c =? ".")%char eqn:Edot.
    + remember (span safe_isdigit r) as k1 eqn:Ek1.
      pose proof (span_le safe_isdigit r) as Hle1. rewrite <- Ek1 in Hle1.
      destruct (k1 =? 0) eqn:Ek; [discriminate|]. apply Nat.eqb_neq in Ek.
      pose proof (exponent_part_ge _ _ _ H) as Hge.
      destruct (@exponent_scan_copy _ _ _ _ _ H) as (_ & e & He1 & He2);
        [rewrite length_skipn; lia|].
      split; [lia|].
      exists (FDec neg (run_value digit_val 10 (firstn k1 r)
                          (run_value digit_val 10 (firstn k0 s) 0))
                (e - Z.of_nat k1)).
      split.
      * unfold dec_scan, significand_scan.
        rewrite read_run_span by (rewrite <- Ek0; lia).
        rewrite <- Ek0, <- Es2. unfold obind at 2. cbv beta iota. rewrite Edot.
        rewrite read_run_span by (rewrite <- Ek1; lia).
        rewrite <- Ek1. unfold obind at 2. cbv beta iota. unfold obind at 1.
        cbv beta iota.
        replace (0 + k0 + (0 + k1) =? 0) with false
          by (symmetry; apply Nat.eqb_neq; lia).
        rewrite He1. reflexivity.
      * unfold dec_scan, significand_scan.
        rewrite read_run_copy by (try reflexivity; rewrite <- ?Ek0; lia).
        rewrite <- Ek0, <- Es2. unfold obind at 2. cbv beta iota.
        destruct (n - n0 - k0) as [|j] eqn:Ej; [lia|].
        cbn [firstn app]. rewrite Edot.
        rewrite read_run_copy by (try reflexivity; rewrite <- ?Ek1; lia).
        rewrite <- Ek1. unfold obind at 2. cbv beta iota. unfold obind at 1.
        cbv beta iota.
        replace (0 + k0 + (0 + k1) =? 0) with false
          by (symmetry; apply Nat.eqb_neq; lia).
        replace (j - k1) with (n - (n0 + k0 + 1 + k1)) by lia.
        rewrite He2. reflexivity.
    + pose proof (exponent_part_ge _ _ _ H) as Hge.
      destruct (@exponent_scan_copy _ _ _ _ _ H) as (_ & e & He1 & He2);
        [cbn [length]; lia|].
      split; [lia|].
      exists (FDec neg (run_value digit_val 10 (firstn k0 s) 0) (e - Z.of_nat 0)).
      split.
      * unfold dec_scan, significand_scan.
        rewrite read_run_span by (rewrite <- Ek0; lia).
        rewrite <- Ek0, <- Es2. unfold obind at 2. cbv beta iota. rewrite Edot.
        unfold obind at 1. cbv beta iota.
        replace (0 + k0 + 0 =? 0) with false
          by (symmetry; apply Nat.eqb_neq; lia).
        rewrite He1. reflexivity.
      * unfold dec_scan, significand_scan.
        rewrite read_run_copy by (try reflexivity; rewrite <- ?Ek0; lia).
        rewrite <- Ek0, <- Es2. unfold obind at 2. cbv beta iota.
        replace (n - n0 - k0) with (n - (n0 + k0)) by lia.
        assert (Hhd : exists c' r', firstn (n - (n0 + k0)) (c :: r) ++ [NUL] = c' :: r'
                                   /\ (c' =? ".")%char = false).
        { destruct (n - (n0 + k0)); cbn [firstn app]; eauto. }
        destruct Hhd as (c' & r' & Hhd & Edot').
        rewrite Hhd in *. rewrite Edot'.
        unfold obind at 1. cbv beta iota.
        replace (0 + k0 + 0 =? 0) with false
          by (symmetry; apply Nat.eqb_neq; lia).
        rewrite He2. reflexivity.
Qed.

Lemma subject_scan_dec (neg : bool) (c : ascii) (tl : list ascii) :
  safe_isdigit c = true -> tl <> [] -> hex_head (c :: tl) = false ->
  subject_scan neg (c :: tl) = dec_scan neg (c :: tl).
Proof.
  intros Hd Htl Hh.
  destruct (digit_bytes _ Hd) as (_ & _ & _ & _ & Hi & Hn).
  unfold subject_scan. rewrite Hi, Hn.
  destruct (c =? "0")%char eqn:E0; [|reflexivity].
  destruct tl as [|x r']; [congruence|].
  unfold hex_head in Hh. rewrite E0 in Hh. simpl in Hh. now rewrite Hh.
Qed.

Lemma hex_head_copy (s : list ascii) (m : nat) :
  hex_head s = false -> hex_head (firstn m s ++ [NUL]) = false.
Proof.
  destruct s as [|c [|x r]]; destruct m as [|[|m]]; simpl; auto using andb_false_r.
Qed.

(** What [strtod] converts at the start of a literal of the number grammar
    that does not open a hexadecimal form: it stops inside the buffer, and
    the value is the one it converts from the terminated copy of the
    literal. *)
Lemma strtod_scan_copy (s : list ascii) (k : Token) (n : nat) :
  number_literal s = Some (k, n) -> n < length s -> hex_prefixed s = false ->
  exists v,
    strtod_scan s = Ok {| converted := true; exact := v |} /\
    strtod_scan (firstn n s ++ [NUL]) = Ok {| converted := true; exact := v |}.
Proof.
  intros H Hl Hh. unfold number_literal in H.
  destruct s as [|c0 r0]; [simpl in Hl; lia|].
  cbn [length] in Hl. unfold hex_prefixed in Hh.
  destruct (c0 =? "-")%char eqn:Em.
  - cbn [skipn] in H.
    remember (span safe_isdigit r0) as k0 eqn:Ek0.
    destruct (k0 =? 0) eqn:Ek; [discriminate|]. apply Nat.eqb_neq in Ek.
    change (skipn (1 + k0) (c0 :: r0)) with (skipn k0 r0) in H.
    rewrite Ek0 in H, Ek.
    pose proof (span_le safe_isdigit r0) as Hsle.
    destruct (@dec_scan_copy true 1 r0 k n Ek H) as (Hge & v & Hv1 & Hv2); [lia|].
    destruct (span_positive _ _ Ek) as (c & r & -> & Hd).
    rewrite <- Ek0 in Hge.
    apply Ascii.eqb_eq in Em. subst c0.
    exists v. split.
    + unfold strtod_scan. cbn [skip_space isspace]. simpl read_sign. unfold obind.
      rewrite subject_scan_dec; auto.
      intros ->. simpl in Ek0. cbn [length] in Hl.
      destruct (safe_isdigit c); simpl in Ek0; lia.
    + destruct n as [|n']; [lia|]. cbn [firstn app].
      unfold strtod_scan. cbn [skip_space isspace]. simpl read_sign. unfold obind.
      replace (S n' - 1) with n' in Hv2 by lia.
      destruct n' as [|n'']; [lia|]. cbn [firstn app] in *.
      rewrite subject_scan_dec; auto.
      * destruct (firstn n'' r); discriminate.
      * apply (hex_head_copy (c :: r) (S n'')). exact Hh.
  - cbn [skipn] in H.
    remember (span safe_isdigit (c0 :: r0)) as k0 eqn:Ek0.
    destruct (k0 =? 0) eqn:Ek; [discriminate|]. apply Nat.eqb_neq in Ek.
    change (skipn (0 + k0) (c0 :: r0)) with (skipn k0 (c0 :: r0)) in H.
    rewrite Ek0 in H, Ek.
    destruct (@dec_scan_copy false 0 (c0 :: r0) k n Ek H) as (Hge & v & Hv1 & Hv2);
      [cbn [length]; lia|].
    destruct (span_positive _ _ Ek) as (c & r & Hcr & Hd).
    injection Hcr as <- <-.
    destruct (digit_bytes _ Hd) as (Hsp & _ & Hp & _).
    rewrite <- Ek0 in Hge.
    exists v. split.
    + unfold strtod_scan. cbn [skip_space]. rewrite Hsp.
      unfold read_sign. rewrite Em, Hp. unfold obind.
      rewrite subject_scan_dec; auto.
      intros ->. simpl in Ek0. cbn [length] in Hl.
      destruct (safe_isdigit c0); simpl in Ek0; lia.
    + rewrite Nat.sub_0_r in Hv2.
      destruct n as [|n']; [lia|]. cbn [firstn app] in *.
      unfold strtod_scan. cbn [skip_space]. rewrite Hsp.
      unfold read_sign. rewrite Em, Hp. unfold obind.
      rewrite subject_scan_dec; auto.
      * destruct (firstn n' r0); discriminate.
      * apply (hex_head_copy (c0 :: r0) (S n')). exact Hh.
Qed.

(** X13: after a numeric token that is followed by further bytes and does
    not open a hexadecimal form (a 0 or -0 directly followed by x or X),
    [floatValue] converts in place without leaving the buffer, and to the
    value that the conversion of the copy of the slice gives. *)
Lemma floatValue_in_place (range_error : fvalue -> bool)
      (t : Tokenizer) (k : Token) (t' : Tokenizer) :
  cursor_ok t -> next t = Ok (k, t') -> k = Integer \/ k = Float ->
  availableInput t' <> 0 ->
  hex_prefixed (skipn (sv_data (_value t')) (_input t')) = false ->
  exists v,
    floatValue range_error t' = Ok v /\
    stod range_error (sv_bytes (_input t') (_value t'))
      = (if range_error v then Terminated else Ok v).
Proof.
  intros Hc Hr Hk Ha Hh.
  destruct (next_spec Hc) as (k' & u & Hr' & (Hi & Ho) & Htok & _ & _ & Hs).
  rewrite Hr in Hr'. injection Hr' as <- <-.
  assert (Hn : exists start,
             _offset t <= start < _offset t' /\
             _value t' = {| sv_data := start; sv_size := _offset t' - start |} /\
             (ends_cleanly t' ->
              number_literal (skipn start (_input t))
                = Some (k, _offset t' - start))).
  { destruct Hk as [->| ->]; destruct Hs as (start & c & H1 & H2 & _ & _ & _ & H6);
      exists start; auto. }
  destruct Hn as (start & Hst & Hv & Hlit).
  assert (Hhas : hasValue t' = true)
    by (unfold hasValue; rewrite Htok; destruct Hk as [->| ->]; reflexivity).
  unfold availableInput in Ha. rewrite Hi in Ha.
  assert (Hend : ends_cleanly t') by (left; rewrite Hi; lia).
  specialize (Hlit Hend).
  rewrite Hv, Hi in Hh. cbn [sv_data] in Hh.
  destruct (strtod_scan_copy _ Hlit) as (v & Hv1 & Hv2); auto.
  { rewrite length_skipn. lia. }
  exists v. split.
  - unfold floatValue. rewrite Hhas. cbn [negb]. unfold availableInput.
    rewrite Hi. destruct (length (_input t) - _offset t' =? 0) eqn:E;
      [apply Nat.eqb_eq in E; lia|].
    rewrite Hv. cbn [sv_data]. unfold strtod. now rewrite Hv1.
  - unfold stod, sv_bytes. rewrite Hv, Hi. cbn [sv_data sv_size].
    now rewrite Hv2.
Qed.

(** ** String bodies *)

(** X24: with at least one byte behind the opening quote, [next] fails as
    the spec says of a string body: [UnterminatedString] when the input ends
    before a closing quote, [PrematureEndOfInput] when its last byte is a
    backslash that nothing follows, [InvalidByte] on a NUL. *)
Lemma string_scan_failures (t : Tokenizer) (ws body : list ascii) :
  skipn (_offset t) (_input t) = ws ++ DQUOTE :: body ->
  forallb is_ws ws = true -> body <> [] ->
  let o' := _offset t + length ws + 1 + snd (string_body body) in
  match fst (string_body body) with
  | Open => next t = Ok (Error, failed UnterminatedString o' t)
  | DanglingEscape => next t = Ok (Error, failed PrematureEndOfInput o' t)
  | EmbeddedNUL => next t = Ok (Error, failed InvalidByte o' t)
  | Closed => Logic.True
  end.
Proof.
  intros H Hws Hbody. cbv zeta.
  destruct (@skipn_decompose _ _ _ _ _ H) as (_ & Hr & Hl).
  rewrite (@next_dispatch t ws DQUOTE body H Hws eq_refl).
  set (first := _offset t + length ws) in *.
  change (next_switch (next_fuel (availableInput t)) DQUOTE first)
    with (readString DQUOTE first).
  set (u := with_offset (S first) t).
  assert (Hc : cursor_ok u) by (unfold cursor_ok; simpl; lia).
  pose proof (@readString_loop_eq (availableInput u) DQUOTE u Hc (le_n _)) as Hloop.
  cbv zeta in Hloop.
  change (_input u) with (_input t) in Hloop.
  change (_offset u) with (S first) in Hloop.
  rewrite Hr in Hloop.
  replace (first + 1 + snd (string_body body))
    with (S first + snd (string_body body)) by lia.
  unfold readString. rewrite bind_gets.
  destruct (fst (string_body body)); [exact I| | |].
  - destruct Hloop as (b' & Hrun & [[Hnil _]|[_ Hb]]); [contradiction|].
    erewrite bind_Ok by exact Hrun. cbv beta iota. rewrite Hb. reflexivity.
  - erewrite bind_Ok by exact Hloop. reflexivity.
  - erewrite bind_Ok by exact Hloop. reflexivity.
Qed.

(** * The claims of the specification *)

(** C1 on the code: on the buffer [{"a":1}] the third call returns [Integer]
    with the two-byte slice [1}] and the fourth returns [End], so no
    [ObjectEnd] is produced; on [["a","b"]] the four calls return
    [ArrayStart], two strings and [ArrayEnd]. *)
Theorem object_example_swallows_brace :
  scan 4 (reset ["{"; DQUOTE; "a"; DQUOTE; ":"; "1"; "}"]%char)
    = [Ok (Plain ObjectStart);
       Ok (Valued FieldName [DQUOTE; "a"; DQUOTE]%char);
       Ok (Valued Integer ["1"; "}"]%char);
       Ok (Plain End)] /\
  scan 4 (reset ["["; DQUOTE; "a"; DQUOTE; ","; DQUOTE; "b"; DQUOTE; "]"]%char)
    = [Ok (Plain ArrayStart);
       Ok (Valued String [DQUOTE; "a"; DQUOTE]%char);
       Ok (Valued String [DQUOTE; "b"; DQUOTE]%char);
       Ok (Plain ArrayEnd)].
Proof. split; reflexivity. Qed.

(** C2, as the code has it: every call of [next] returns, keeps the buffer
    and leaves the cursor between its old position and the buffer length.  A
    numeric token's slice starts on the token's first byte and ends exactly
    at the cursor, and it is the literal of the number grammar, with the
    token's kind, whenever the cursor stops before the end of the buffer or
    the buffer ends with a digit.  A string token's slice starts on the
    opening quote and, unless that quote is the last byte of the buffer,
    ends with the first quote that closes the body; between its end and the
    cursor lie only the white space skipped while looking ahead and, for a
    field name, the colon, which is consumed, while the ',', ']' or '}'
    after a string is not. *)
Theorem next_cursor_and_slice (t : Tokenizer) :
  cursor_ok t ->
  exists k t', next t = Ok (k, t') /\
    _input t' = _input t /\
    _offset t <= _offset t' <= length (_input t) /\
    slice_ok t k t'.
Proof.
  intros Hc. destruct (next_spec Hc) as (k & t' & Hr & (Hi & Ho) & _ & _ & _ & Hs).
  exists k, t'. auto.
Qed.

Lemma next_cursor_and_slice_witness :
  cursor_ok (reset ["{"; DQUOTE; "a"; DQUOTE; ":"; "1"; "}"]%char) /\
  exists k t', next (reset ["{"; DQUOTE; "a"; DQUOTE; ":"; "1"; "}"]%char) = Ok (k, t') /\
    _input t' = ["{"; DQUOTE; "a"; DQUOTE; ":"; "1"; "}"]%char /\
    0 <= _offset t' <= 7 /\
    slice_ok (reset ["{"; DQUOTE; "a"; DQUOTE; ":"; "1"; "}"]%char) k t'.
Proof.
  split.
  - unfold cursor_ok. simpl. lia.
  - apply (@next_cursor_and_slice (reset ["{"; DQUOTE; "a"; DQUOTE; ":"; "1"; "}"]%char)).
    unfold cursor_ok. simpl. lia.
Defined.

(** C2 as stated fails for a field name: on the buffer ["a":1] the call
    returns [FieldName] with the three bytes of the literal as its slice,
    and the cursor is behind the colon, one byte past the first byte after
    the literal. *)
Lemma field_name_consumes_colon :
  exists t',
    next (reset [DQUOTE; "a"; DQUOTE; ":"; "1"]%char) = Ok (FieldName, t') /\
    sv_bytes (_input t') (_value t') = [DQUOTE; "a"; DQUOTE]%char /\
    sv_data (_value t') + sv_size (_value t') = 3 /\
    _offset t' = 4 /\
    ~ (_offset t' <= sv_data (_value t') + sv_size (_value t')).
Proof.
  eexists. split; [vm_compute; reflexivity|]. simpl.
  repeat split. lia.
Qed.

(** C3 on the code: the buffer [1.] is accepted as [Integer] with the slice
    [1.] instead of failing with [MalformedNumberLiteral]; the other
    examples of the spec come out as it says, and [1.] fails as it says
    once another byte follows. *)
Theorem number_examples :
  scan 1 (reset ["1"; "."]%char) = [Ok (Valued Integer ["1"; "."]%char)] /\
  scan 1 (reset ["4"; "2"]%char) = [Ok (Valued Integer ["4"; "2"]%char)] /\
  (exists t', next (reset ["4"; "2"]%char) = Ok (Integer, t') /\
              intValue t' = Ok 42%Z) /\
  scan 1 (reset ["4"; "2"; "."; "0"]%char)
    = [Ok (Valued Float ["4"; "2"; "."; "0"]%char)] /\
  scan 1 (reset ["4"; "2"; "e"; "3"]%char)
    = [Ok (Valued Float ["4"; "2"; "e"; "3"]%char)] /\
  scan 1 (reset ["-"; "0"]%char) = [Ok (Valued Integer ["-"; "0"]%char)] /\
  scan 1 (reset ["-"]%char) = [Ok (Failed MalformedNumberLiteral)] /\
  scan 1 (reset ["1"; "."; " "]%char) = [Ok (Failed MalformedNumberLiteral)].
Proof.
  split; [reflexivity|]. split; [reflexivity|].
  split; [eexists; split; [vm_compute; reflexivity|reflexivity]|].
  repeat split.
Qed.

(** The read behind an exponent introducer is a checked read like every
    other: [readExponent] on its own, started on an introducer that is the
    last byte of the buffer, reads past the end.  [next] never starts it
    there. *)
Example readExponent_alone_reads_past_end :
  readExponent (reset ["e"]%char) = OutOfBounds.
Proof. reflexivity. Qed.

(** C4: for every buffer and every cursor position, no step of a call of
    [next] (white-space skip, atom match, number scan with its exponent
    path, string scan) reads a byte at an index at or beyond the buffer
    length: with checked reads the out-of-bounds outcome is unreachable. *)
Theorem next_never_reads_out_of_bounds (t : Tokenizer) : next t <> OutOfBounds.
Proof.
  destruct (next_total t) as (k & t' & Hr). rewrite Hr. discriminate.
Qed.

(** C5 on the code: a buffer that ends with the opening quote yields a
    [String] token whose slice is that quote instead of failing with
    [UnterminatedString]; with at least one byte after the opening quote the
    three failures come out as the spec says. *)
Theorem lone_quote_is_a_string :
  scan 1 (reset [DQUOTE]) = [Ok (Valued String [DQUOTE])] /\
  scan 1 (reset [DQUOTE; "a"]%char) = [Ok (Failed UnterminatedString)] /\
  scan 1 (reset [DQUOTE; "a"; BACKSLASH]%char) = [Ok (Failed PrematureEndOfInput)] /\
  scan 1 (reset [DQUOTE; "a"; NUL; DQUOTE]%char) = [Ok (Failed InvalidByte)].
Proof. repeat split. Qed.

(** C6: when the next significant byte is 'n', 't' or 'f', [next] fails with
    [PrematureEndOfInput] if fewer bytes follow than the rest of the atom
    needs, else with [InvalidByte] if they differ from it, else with
    [SyntaxError] if an alphanumeric byte follows the atom directly;
    otherwise it yields [Null], [True] or [False] with the cursor behind the
    atom, 4, 4 or 5 bytes after the atom's first byte. *)
Theorem atom_scan (t : Tokenizer) (ws : list ascii) (c : ascii)
        (rest atom : list ascii) (token : Token) :
  skipn (_offset t) (_input t) = ws ++ c :: rest ->
  forallb is_ws ws = true ->
  atom_of c = Some (atom, token) ->
  let first := _offset t + length ws in
  next t =
  (if length rest <? length atom
   then Ok (Error, failed PrematureEndOfInput (first + 1) t)
   else if negb (bytes_eqb (firstn (length atom) rest) atom)
   then Ok (Error, failed InvalidByte (first + 1) t)
   else if alnum_at rest (length atom)
   then Ok (Error, failed SyntaxError (first + 1) t)
   else Ok (token, with_token token (with_offset (first + 1 + length atom) t)))
  /\ 1 + length atom = match token with False => 5 | _ => 4 end
  /\ (token = Null \/ token = True \/ token = False).
Proof.
  intros H Hws Ha first.
  destruct (@skipn_decompose _ _ _ _ _ H) as (_ & Hr & Hl).
  assert (Hsw : is_ws c = false /\
                next_switch (next_fuel (availableInput t)) c first =
                readAtom atom token /\
                1 + length atom = match token with False => 5 | _ => 4 end /\
                (token = Null \/ token = True \/ token = False)).
  { unfold atom_of in Ha.
    destruct (Ascii.eqb_spec c "n") as [->|_];
      [injection Ha as <- <-; repeat split; auto|].
    destruct (Ascii.eqb_spec c "t") as [->|_];
      [injection Ha as <- <-; repeat split; auto|].
    destruct (Ascii.eqb_spec c "f") as [->|_];
      [injection Ha as <- <-; repeat split; auto|discriminate]. }
  destruct Hsw as (Hc & Hsw & Hlen & Htok).
  split; [|split; [exact Hlen|exact Htok]].
  rewrite (@next_dispatch t ws c rest H Hws Hc). fold first. rewrite Hsw.
  rewrite readAtom_rest by (unfold cursor_ok; simpl; fold first; lia). cbv zeta.
  change (_input (with_offset (S first) t)) with (_input t).
  change (_offset (with_offset (S first) t)) with (S first).
  fold first in Hr. rewrite Hr.
  replace (first + 1) with (S first) by lia.
  destruct (length rest <? length atom); [reflexivity|].
  destruct (negb _); [reflexivity|].
  destruct (alnum_at rest (length atom)); reflexivity.
Qed.

Lemma atom_scan_witness :
  skipn 0 [" "; "n"; "u"; "l"; "l"; "]"]%char
    = [" "]%char ++ "n"%char :: ["u"; "l"; "l"; "]"]%char /\
  forallb is_ws [" "]%char = true /\
  atom_of "n" = Some (["u"; "l"; "l"]%char, Null) /\
  next (reset [" "; "n"; "u"; "l"; "l"; "]"]%char)
    = Ok (Null, with_token Null
                  (with_offset 5 (reset [" "; "n"; "u"; "l"; "l"; "]"]%char))).
Proof.
  split; [reflexivity|]. split; [reflexivity|]. split; [reflexivity|].
  exact (proj1 (@atom_scan (reset [" "; "n"; "u"; "l"; "l"; "]"]%char)
                  [" "]%char "n"%char ["u"; "l"; "l"; "]"]%char
                  ["u"; "l"; "l"]%char Null eq_refl eq_refl eq_refl)).
Defined.

(** The atoms of the spec's examples: each of "null", "true" and "false" is
    one token that moves the cursor by 4, 4 and 5 bytes, and "nullable" is
    rejected. *)
Example atoms_round_trip :
  next (reset ["n"; "u"; "l"; "l"]%char)
    = Ok (Null, with_token Null (with_offset 4 (reset ["n"; "u"; "l"; "l"]%char))) /\
  next (reset ["t"; "r"; "u"; "e"]%char)
    = Ok (True, with_token True (with_offset 4 (reset ["t"; "r"; "u"; "e"]%char))) /\
  next (reset ["f"; "a"; "l"; "s"; "e"]%char)
    = Ok (False, with_token False (with_offset 5 (reset ["f"; "a"; "l"; "s"; "e"]%char))) /\
  scan 1 (reset ["n"; "u"; "l"; "l"; "a"; "b"; "l"; "e"]%char) = [Ok (Failed SyntaxError)].
Proof. repeat split. Qed.

(** C7 on the code: on the three-byte buffer [0x1] the call returns
    [Integer] with the slice [0] and two bytes left, so [floatValue]
    converts in place, where the hexadecimal form makes [strtod] read the
    byte at index 3; on the buffer [123] the token is [Integer], nothing is
    left, and [intValue] converts the copy to 123. *)
Theorem float_value_reads_past_buffer :
  (exists t',
      next (reset ["0"; "x"; "1"]%char) = Ok (Integer, t') /\
      sv_bytes (_input t') (_value t') = ["0"]%char /\
      availableInput t' = 2 /\
      forall range_error, floatValue range_error t' = OutOfBounds) /\
  (exists t',
      next (reset ["1"; "2"; "3"]%char) = Ok (Integer, t') /\
      sv_bytes (_input t') (_value t') = ["1"; "2"; "3"]%char /\
      availableInput t' = 0 /\
      intValue t' = Ok 123%Z).
Proof.
  split; eexists; (split; [vm_compute; reflexivity|]); repeat split.
Qed.

(** C8: once [next] has returned [End], every later call returns [End]
    again and leaves the tokenizer, its cursor included, as it is. *)
Theorem next_End_idempotent (t t' : Tokenizer) :
  next t = Ok (End, t') ->
  next t' = Ok (End, t') /\ forall n, repeat_next n t' = Ok (End, t').
Proof.
  intros Hr. destruct (next_End_state _ Hr) as [Ho Hk].
  pose proof (next_End_fixed _ Ho Hk) as Hfix.
  split; [exact Hfix|].
  induction n as [|n IH]; simpl; [exact Hfix|].
  erewrite bind_Ok by exact Hfix. exact IH.
Qed.

Lemma next_End_idempotent_witness :
  next (reset [" "; " "]%char)
    = Ok (End, with_token End (with_offset 2 (reset [" "; " "]%char))) /\
  next (with_token End (with_offset 2 (reset [" "; " "]%char)))
    = Ok (End, with_token End (with_offset 2 (reset [" "; " "]%char))).
Proof.
  split; [reflexivity|].
  exact (proj1 (@next_End_idempotent (reset [" "; " "]%char)
                  (with_token End (with_offset 2 (reset [" "; " "]%char)))
                  eq_refl)).
Defined.

(** C9: a comma that has no value, ']' or '}' before it fails with
    [UnexpectedComma]; a legal comma directly followed (white space apart)
    by a closing bracket fails with [UnexpectedTrailingComma] in the call
    that scans the bracket.  On the buffer [,1] the call after [ArrayStart]
    fails with [UnexpectedComma]; on [1,] the call that scans ']' fails with
    [UnexpectedTrailingComma]. *)
Theorem comma_misuse :
  (forall t ws rest,
      skipn (_offset t) (_input t) = ws ++ ","%char :: rest ->
      forallb is_ws ws = true ->
      comma_allowed_after (_token t) = false ->
      next t = Ok (Error, failed UnexpectedComma (_offset t + length ws + 1) t)) /\
  (forall t ws ws' c rest,
      skipn (_offset t) (_input t) = ws ++ ","%char :: ws' ++ c :: rest ->
      forallb is_ws ws = true -> forallb is_ws ws' = true ->
      comma_allowed_after (_token t) = true ->
      c = "]"%char \/ c = "}"%char ->
      next t = Ok (Error, failed UnexpectedTrailingComma
                            (_offset t + length ws + 1 + length ws' + 1) t)) /\
  scan 2 (reset ["["; ","; "1"; "]"]%char)
    = [Ok (Plain ArrayStart); Ok (Failed UnexpectedComma)] /\
  scan 3 (reset ["["; "1"; ","; "]"]%char)
    = [Ok (Plain ArrayStart); Ok (Valued Integer ["1"]%char);
       Ok (Failed UnexpectedTrailingComma)].
Proof.
  split; [|split; [|split; reflexivity]].
  - intros t ws rest H Hws Hk.
    rewrite (@next_dispatch t ws ","%char rest H Hws eq_refl).
    change (next_switch (next_fuel (availableInput t)) "," (_offset t + length ws))
      with (readComma (next_fuel (availableInput t))).
    unfold readComma, bind at 1, gets, obind, fst, snd.
    change (_token (with_offset (S (_offset t + length ws)) t)) with (_token t).
    rewrite Hk. rewrite setError_eq.
    replace (_offset t + length ws + 1) with (S (_offset t + length ws)) by lia.
    reflexivity.
  - intros t ws ws' c rest H Hws Hws' Hk Hc.
    destruct (@skipn_decompose _ _ _ _ _ H) as (_ & Hr & Hl).
    rewrite length_app in Hl. simpl in Hl.
    rewrite (@next_dispatch t ws ","%char (ws' ++ c :: rest) H Hws eq_refl).
    change (next_switch (next_fuel (availableInput t)) "," (_offset t + length ws))
      with (readComma (next_fuel (availableInput t))).
    unfold readComma, bind at 1, gets, obind, fst, snd.
    change (_token (with_offset (S (_offset t + length ws)) t)) with (_token t).
    rewrite Hk. unfold bind, modify, obind, fst, snd.
    set (u := with_token Comma (with_offset (S (_offset t + length ws)) t)).
    rewrite next_fuel_enough by (unfold availableInput; simpl; lia).
    assert (Hcw : is_ws c = false) by (destruct Hc as [->| ->]; reflexivity).
    rewrite (@next_dispatch u ws' c rest Hr Hws' Hcw).
    replace (_offset t + length ws + 1 + length ws' + 1)
      with (S (_offset u + length ws')) by (simpl; lia).
    destruct Hc as [->| ->]; reflexivity.
Qed.

Lemma comma_misuse_witness :
  next (with_token ArrayStart (with_offset 1 (reset ["["; ","; "1"; "]"]%char)))
    = Ok (Error, failed UnexpectedComma 2
                   (with_token ArrayStart (with_offset 1 (reset ["["; ","; "1"; "]"]%char)))) /\
  next (with_token Integer (with_offset 2 (reset ["["; "1"; ","; "]"]%char)))
    = Ok (Error, failed UnexpectedTrailingComma 4
                   (with_token Integer (with_offset 2 (reset ["["; "1"; ","; "]"]%char)))).
Proof.
  split.
  - exact (proj1 comma_misuse
             (with_token ArrayStart (with_offset 1 (reset ["["; ","; "1"; "]"]%char)))
             [] ["1"; "]"]%char eq_refl eq_refl eq_refl).
  - exact (proj1 (proj2 comma_misuse)
             (with_token Integer (with_offset 2 (reset ["["; "1"; ","; "]"]%char)))
             [] [] "]"%char [] eq_refl eq_refl eq_refl eq_refl (or_introl eq_refl)).
Defined.

(** C10 on the code: the token [Integer] with the slice [0] converts to 0
    by the copy when the buffer ends behind it, and to 1 in place when the
    bytes [x1] follow it, although [intValue] is 0 both times. *)
Theorem float_value_depends_on_following_bytes :
  exists t1 t2,
    next (reset ["0"]%char) = Ok (Integer, t1) /\
    next (reset ["0"; "x"; "1"; " "]%char) = Ok (Integer, t2) /\
    sv_bytes (_input t1) (_value t1) = ["0"]%char /\
    sv_bytes (_input t2) (_value t2) = ["0"]%char /\
    availableInput t1 = 0 /\ availableInput t2 = 3 /\
    intValue t1 = Ok 0%Z /\ intValue t2 = Ok 0%Z /\
    (forall range_error,
        floatValue range_error t1 =
        (if range_error (FDec false 0 0) then Terminated else Ok (FDec false 0 0)) /\
        floatValue range_error t2 = Ok (FHex false 1 0)) /\
    fvalue_Q (FDec false 0 0) = Some (0 # 1)%Q /\
    fvalue_Q (FHex false 1 0) = Some (1 # 1)%Q.
Proof.
  eexists; eexists.
  split; [vm_compute; reflexivity|]. split; [vm_compute; reflexivity|].
  repeat split.
Qed.

(** * Further properties of the scanner *)

(** ** White space and the end of the input *)

(** X1: [skipWS] always returns; it moves the cursor forward over bytes that
    are all white space (space, tab, CR, LF), changes nothing else, and
    leaves the cursor at the end of the buffer or on a byte that is no
    white space. *)
Theorem skipWS_stops_on_significant_byte (t : Tokenizer) :
  exists n,
    skipWS t = Ok (tt, with_offset (_offset t + n) t) /\
    forallb is_ws (bytes_between (_input t) (_offset t) (_offset t + n)) = true /\
    match nth_error (_input t) (_offset t + n) with
    | Some c => is_ws c = false
    | None => Logic.True
    end.
Proof.
  exists (span is_ws (skipn (_offset t) (_input t))).
  split; [apply skipWS_eq|]. split; [apply bytes_between_span|].
  destruct (nth_error _ _) as [c|] eqn:E; [|exact I].
  apply (span_stop is_ws (skipn (_offset t) (_input t))).
  now rewrite nth_error_skipn.
Qed.

Lemma span_forallb (p : ascii -> bool) (s : list ascii) :
  forallb p s = true -> span p s = length s.
Proof.
  induction s as [|c s IH]; simpl; [reflexivity|].
  destruct (p c); [|discriminate]. intros H. f_equal. now apply IH.
Qed.

(** X2: when only white space is left between the cursor and the end of the
    buffer (nothing at all included), [next] returns [End] with the cursor
    at the end of the buffer and the value and error untouched. *)
Theorem next_on_white_space (t : Tokenizer) :
  cursor_ok t ->
  forallb is_ws (skipn (_offset t) (_input t)) = true ->
  next t = Ok (End, with_token End (with_offset (length (_input t)) t)).
Proof.
  intros Hc Hws. unfold next. rewrite next_fuel_S. cbv zeta.
  rewrite (span_forallb _ _ Hws), length_skipn.
  unfold cursor_ok in Hc.
  replace (_offset t + (length (_input t) - _offset t)) with (length (_input t)) by lia.
  unfold endOfInput. cbn [_input _offset with_offset].
  now rewrite Nat.leb_refl.
Qed.

Lemma next_on_white_space_witness :
  next (reset [" "; "009"; "010"; "013"]%char)
    = Ok (End, with_token End (with_offset 4 (reset [" "; "009"; "010"; "013"]%char))).
Proof.
  apply (@next_on_white_space (reset [" "; "009"; "010"; "013"]%char)).
  - unfold cursor_ok. simpl. lia.
  - reflexivity.
Defined.

(** ** The dispatch of [next] *)

(** X3: when the next significant byte is '{' or '[', [next] returns
    [ObjectStart] or [ArrayStart], whatever came before; the cursor is
    right behind that byte and only the current token changes. *)
Theorem next_opens_container (t : Tokenizer) (ws : list ascii) (c : ascii)
        (rest : list ascii) :
  skipn (_offset t) (_input t) = ws ++ c :: rest ->
  forallb is_ws ws = true ->
  c = "{"%char \/ c = "["%char ->
  let k := if (c =? "{")%char then ObjectStart else ArrayStart in
  next t = Ok (k, with_token k (with_offset (_offset t + length ws + 1) t)).
Proof.
  intros H Hws Hc k.
  assert (Hw : is_ws c = false) by (destruct Hc as [->| ->]; reflexivity).
  rewrite (@next_dispatch t ws c rest H Hws Hw).
  replace (_offset t + length ws + 1) with (S (_offset t + length ws)) by lia.
  subst k. destruct Hc as [->| ->]; reflexivity.
Qed.

Lemma next_opens_container_witness :
  next (with_token Integer (with_offset 1 (reset ["1"; " "; "["; "2"]%char)))
    = Ok (ArrayStart,
          with_token ArrayStart
            (with_offset 3 (with_token Integer
                              (with_offset 1 (reset ["1"; " "; "["; "2"]%char))))).
Proof.
  exact (@next_opens_container
           (with_token Integer (with_offset 1 (reset ["1"; " "; "["; "2"]%char)))
           [" "]%char "["%char ["2"]%char eq_refl eq_refl (or_intror eq_refl)).
Defined.

(** X4: a significant byte on which no token starts (a NUL, or any byte
    that is none of the bytes of the [switch], no digit and no '-') makes
    [next] fail with [InvalidByte]; the cursor is right behind that byte. *)
Theorem next_rejects_stray_byte (t : Tokenizer) (ws : list ascii) (c : ascii)
        (rest : list ascii) :
  skipn (_offset t) (_input t) = ws ++ c :: rest ->
  forallb is_ws ws = true ->
  is_ws c = false -> starts_token c = false ->
  next t = Ok (Error, failed InvalidByte (_offset t + length ws + 1) t).
Proof.
  intros H Hws Hw Hs.
  rewrite (@next_dispatch t ws c rest H Hws Hw).
  replace (_offset t + length ws + 1) with (S (_offset t + length ws)) by lia.
  unfold starts_token in Hs.
  repeat (apply orb_false_iff in Hs; destruct Hs as [Hs ?]).
  unfold next_switch, readNumber.
  repeat match goal with E : _ = false |- _ => rewrite E; clear E end.
  destruct (c =? NUL)%char; reflexivity.
Qed.

Lemma next_rejects_stray_byte_witness :
  next (reset [" "; "x"; "1"]%char)
    = Ok (Error, failed InvalidByte 2 (reset [" "; "x"; "1"]%char)).
Proof.
  exact (@next_rejects_stray_byte (reset [" "; "x"; "1"]%char)
           [" "]%char "x"%char ["1"]%char eq_refl eq_refl eq_refl eq_refl).
Defined.

(** ** Value slices *)

(** X5: after a call of [next] that leaves a value-bearing token, the value
    slice is not empty and lies inside the buffer, within the bytes that
    this call has passed; [dataValue] returns exactly those bytes of the
    buffer, as many as the slice's size. *)
Theorem value_slice_in_buffer (translateToken : Token -> list ascii)
        (t : Tokenizer) (k : Token) (t' : Tokenizer) :
  cursor_ok t -> next t = Ok (k, t') -> hasValue t' = true ->
  let v := _value t' in
  _offset t <= sv_data v /\ 0 < sv_size v /\
  sv_data v + sv_size v <= _offset t' <= length (_input t) /\
  dataValue translateToken t'
    = bytes_between (_input t) (sv_data v) (sv_data v + sv_size v) /\
  length (dataValue translateToken t') = sv_size v.
Proof.
  intros Hc Hr Hv v.
  destruct (next_spec Hc) as (k' & u & Hr' & (Hi & Ho) & Htok & _ & _ & Hs).
  rewrite Hr in Hr'. injection Hr' as <- <-.
  assert (Hrange : _offset t <= sv_data v /\ 0 < sv_size v /\
                   sv_data v + sv_size v <= _offset t').
  { unfold hasValue in Hv. rewrite Htok in Hv. subst v.
    destruct k; try discriminate Hv; cbn [slice_ok] in Hs.
    - destruct Hs as (start & c & H1 & -> & _). cbn [sv_data sv_size]. lia.
    - destruct Hs as (start & c & H1 & -> & _). cbn [sv_data sv_size]. lia.
    - destruct Hs as (start & n & H1 & H2 & H3 & -> & _). cbn [sv_data sv_size]. lia.
    - destruct Hs as (start & n & H1 & H2 & H3 & -> & _). cbn [sv_data sv_size]. lia. }
  destruct Hrange as (H1 & H2 & H3).
  split; [exact H1|]. split; [exact H2|]. split; [lia|].
  unfold dataValue. rewrite Hv. cbn [negb]. unfold sv_bytes, bytes_between.
  rewrite Hi. fold v.
  replace (sv_data v + sv_size v - sv_data v) with (sv_size v) by lia.
  split; [reflexivity|].
  rewrite length_firstn, length_skipn. lia.
Qed.

Lemma value_slice_in_buffer_witness :
  let t := reset [" "; DQUOTE; "a"; DQUOTE; " "; ":"; "1"]%char in
  let t' := with_token FieldName
              (with_offset 6 (with_value {| sv_data := 1; sv_size := 3 |} t)) in
  next t = Ok (FieldName, t') /\
  dataValue (fun _ => []) t' = [DQUOTE; "a"; DQUOTE]%char.
Proof.
  cbv zeta. split; [reflexivity|].
  exact (proj1 (proj2 (proj2 (proj2
    (@value_slice_in_buffer (fun _ => [])
       (reset [" "; DQUOTE; "a"; DQUOTE; " "; ":"; "1"]%char) FieldName
       (with_token FieldName
          (with_offset 6 (with_value {| sv_data := 1; sv_size := 3 |}
             (reset [" "; DQUOTE; "a"; DQUOTE; " "; ":"; "1"]%char))))
       ltac:(unfold cursor_ok; simpl; lia) eq_refl eq_refl))))).
Defined.

(** ** Strings and field names *)

(** What [readString] does behind the closing quote, step by step. *)
Lemma readString_value_eq (token_start : nat) (t : Tokenizer) :
  cursor_ok t -> token_start <= _offset t ->
  readString_value token_start t =
  let u := with_value {| sv_data := token_start;
                         sv_size := _offset t - token_start |} t in
  let o1 := _offset t + span is_ws (skipn (_offset t) (_input t)) in
  match nth_error (_input t) o1 with
  | None => Ok (String, with_token String (with_offset o1 u))
  | Some c =>
      if (c =? ":")%char
      then Ok (FieldName, with_token FieldName (with_offset (S o1) u))
      else if (c =? ",")%char || (c =? "]")%char || (c =? "}")%char
      then Ok (String, with_token String (with_offset o1 u))
      else if (c =? NUL)%char then Ok (Error, failed InvalidByte (S o1) u)
      else Ok (Error, failed SyntaxError (S o1) u)
  end.
Proof.
  intros Hc Hs. unfold cursor_ok in Hc. cbv zeta.
  unfold readString_value, bind at 1, gets, obind, fst, snd.
  erewrite bind_Ok by (apply substr_eq; lia).
  unfold bind at 1, modify, obind, fst, snd.
  unfold bind at 1. rewrite skipWS_eq. unfold obind, fst, snd.
  change (_input (with_value _ t)) with (_input t).
  change (_offset (with_value _ t)) with (_offset t).
  set (o1 := _offset t + span is_ws (skipn (_offset t) (_input t))).
  assert (Ho1 : _offset t <= o1 <= length (_input t)).
  { pose proof (span_le is_ws (skipn (_offset t) (_input t))) as Hl.
    rewrite length_skipn in Hl. subst o1. lia. }
  replace (subview (_input t) token_start (_offset t - token_start))
    with {| sv_data := token_start; sv_size := _offset t - token_start |}
    by (unfold subview; f_equal; lia).
  unfold bind at 1, gets, obind, fst, snd.
  match goal with |- context [endOfInput ?u] => destruct (endOfInput u) eqn:E end.
  - apply endOfInput_true in E. cbn [_input _offset with_offset with_value] in E.
    replace (nth_error (_input t) o1) with (@None ascii)
      by (symmetry; apply nth_error_None; exact E).
    reflexivity.
  - apply endOfInput_false in E. cbn [_input _offset with_offset with_value] in E.
    destruct (nth_error_in_range _ E) as [c Hn]. rewrite Hn.
    erewrite bind_Ok by (apply input_next_eq; exact Hn).
    destruct (c =? ":")%char; [reflexivity|].
    destruct ((c =? ",")%char || (c =? "]")%char || (c =? "}")%char); [reflexivity|].
    destruct (c =? NUL)%char; reflexivity.
Qed.

(** X6: a string literal that is closed (by the first quote that no
    backslash takes along) is told from a field name by the first byte
    behind the white space that follows it.  A ':' gives
    [FieldName] and is consumed; a ',', a ']', a '}' or the end of the buffer
    gives [String] and the byte is not consumed; a NUL fails with
    [InvalidByte] and any other byte with [SyntaxError].  The value slice is
    the literal with both quotes. *)
Theorem string_or_field_name (t : Tokenizer) (ws body : list ascii) (n : nat) :
  skipn (_offset t) (_input t) = ws ++ DQUOTE :: body ->
  forallb is_ws ws = true ->
  string_body body = (Closed, n) ->
  let first := _offset t + length ws in
  let u := with_value {| sv_data := first; sv_size := S n |} t in
  let after := skipn n body in
  let o1 := first + 1 + n + span is_ws after in
  next t =
  match nth_error after (span is_ws after) with
  | None => Ok (String, with_token String (with_offset o1 u))
  | Some c =>
      if (c =? ":")%char
      then Ok (FieldName, with_token FieldName (with_offset (S o1) u))
      else if (c =? ",")%char || (c =? "]")%char || (c =? "}")%char
      then Ok (String, with_token String (with_offset o1 u))
      else if (c =? NUL)%char then Ok (Error, failed InvalidByte (S o1) u)
      else Ok (Error, failed SyntaxError (S o1) u)
  end.
Proof.
  intros H Hws Hbody first u after o1.
  destruct (@skipn_decompose _ _ _ _ _ H) as (_ & Hr & Hl).
  rewrite (@next_dispatch t ws DQUOTE body H Hws eq_refl). fold first.
  change (next_switch (next_fuel (availableInput t)) DQUOTE first)
    with (readString DQUOTE first).
  fold first in Hr, Hl.
  set (u0 := with_offset (S first) t).
  assert (Hc : cursor_ok u0) by (unfold cursor_ok; simpl; lia).
  pose proof (@readString_loop_eq (availableInput u0) DQUOTE u0 Hc (le_n _)) as Hloop.
  cbv zeta in Hloop.
  change (_input u0) with (_input t) in Hloop.
  change (_offset u0) with (S first) in Hloop.
  rewrite Hr, Hbody in Hloop. cbn [fst snd] in Hloop.
  pose proof (string_body_le body) as Hle. rewrite Hbody in Hle. cbn [snd] in Hle.
  unfold readString. rewrite bind_gets.
  erewrite bind_Ok by exact Hloop. cbv beta iota.
  change (negb (DQUOTE =? DQUOTE)%char) with false. cbv iota.
  rewrite readString_value_eq by (unfold cursor_ok; simpl; lia).
  cbv zeta. cbn [_input _offset with_offset u0].
  replace (skipn (S first + n) (_input t)) with after
    by (subst after; rewrite <- Hr, skipn_skipn; f_equal; lia).
  replace (S first + n - first) with (S n) by lia.
  replace (S first + n + span is_ws after) with o1 by (subst o1; lia).
  replace (nth_error (_input t) o1) with (nth_error after (span is_ws after)).
  2:{ subst after o1. rewrite <- Hr, skipn_skipn, nth_error_skipn. f_equal. lia. }
  reflexivity.
Qed.

Lemma string_or_field_name_witness :
  let t := reset [DQUOTE; "a"; BACKSLASH; DQUOTE; DQUOTE; " "; ":"; "1"]%char in
  next t = Ok (FieldName,
               with_token FieldName
                 (with_offset 7 (with_value {| sv_data := 0; sv_size := 5 |} t))).
Proof.
  exact (@string_or_field_name
           (reset [DQUOTE; "a"; BACKSLASH; DQUOTE; DQUOTE; " "; ":"; "1"]%char)
           [] ["a"; BACKSLASH; DQUOTE; DQUOTE; " "; ":"; "1"]%char 4
           eq_refl eq_refl eq_refl).
Defined.

(** ** Error codes *)

Lemma setError_codes (e : ErrorCode) (u : Tokenizer) (e0 : ErrorCode)
      (k : Token) (t' : Tokenizer) :
  scan_error e = true -> setError e u = Ok (k, t') ->
  _token t' = k /\
  (k = Error -> scan_error (_error t') = true) /\
  (k <> Error -> _error t' = e0).
Proof.
  intros He Hr. rewrite setError_eq in Hr. injection Hr as <- <-.
  cbn [_token _error with_token with_error].
  split; [reflexivity|]. split; [auto|congruence].
Qed.

Lemma readAtom_codes (atom : list ascii) (token : Token) (u : Tokenizer)
      (k : Token) (t' : Tokenizer) :
  cursor_ok u -> token <> Error -> readAtom atom token u = Ok (k, t') ->
  _token t' = k /\
  (k = Error -> scan_error (_error t') = true) /\
  (k <> Error -> _error t' = _error u).
Proof.
  intros Hc Ht Hr. rewrite readAtom_eq in Hr by exact Hc.
  destruct (availableInput u <? length atom);
    [now apply (@setError_codes PrematureEndOfInput u)|].
  destruct (negb _); [now apply (@setError_codes InvalidByte u)|].
  destruct (_ && _); [now apply (@setError_codes SyntaxError u)|].
  injection Hr as <- <-. cbn [_token _error with_token with_offset].
  split; [reflexivity|]. split; [contradiction|reflexivity].
Qed.

Lemma readEndBracket_codes (token : Token) (u : Tokenizer)
      (k : Token) (t' : Tokenizer) :
  token <> Error -> readEndBracket token u = Ok (k, t') ->
  _token t' = k /\
  (k = Error -> scan_error (_error t') = true) /\
  (k <> Error -> _error t' = _error u).
Proof.
  intros Ht Hr. unfold readEndBracket in Hr. rewrite bind_gets in Hr.
  destruct (Token_eqb (_token u) Comma);
    [now apply (@setError_codes UnexpectedTrailingComma u)|].
  rewrite setToken_eq in Hr. injection Hr as <- <-.
  cbn [_token _error with_token].
  split; [reflexivity|]. split; [contradiction|reflexivity].
Qed.

Lemma readNumber_codes (b : ascii) (token_start : nat) (u : Tokenizer)
      (k : Token) (t' : Tokenizer) :
  cursor_ok u -> token_start < _offset u ->
  readNumber b token_start u = Ok (k, t') ->
  _token t' = k /\
  (k = Error -> scan_error (_error t') = true) /\
  (k <> Error -> _error t' = _error u).
Proof.
  intros Hc Hs Hr. unfold readNumber in Hr.
  destruct (negb (safe_isdigit b) && negb (b =? "-")%char);
    [now apply (@setError_codes InvalidByte u)|].
  rewrite bind_setToken in Hr.
  destruct (@readDigits_spec (if safe_isdigit b then 1 else 0) (with_token Integer u))
    as (b1 & t1 & E1 & A1 & T1 & K1 & _ & R1); [exact Hc|].
  erewrite bind_Ok in Hr by exact E1. cbn [_token _error with_token] in K1, R1.
  destruct b1; cbn [negb] in Hr;
    [|now apply (@setError_codes MalformedNumberLiteral t1)].
  destruct (readFraction_spec (advances_cursor_ok A1) T1)
    as (b2 & t2 & E2 & A2 & T2 & K2 & _ & R2).
  erewrite bind_Ok in Hr by exact E2.
  pose proof (advances_trans A1 A2) as At2.
  destruct b2; cbn [negb] in Hr;
    [|now apply (@setError_codes MalformedNumberLiteral t2)].
  destruct (readExponent_spec (advances_cursor_ok At2) T2)
    as (b3 & t3 & E3 & A3 & T3 & K3 & _ & R3).
  erewrite bind_Ok in Hr by exact E3.
  pose proof (advances_trans At2 A3) as [Hi Ho].
  cbn [_input _offset with_token] in Hi, Ho.
  destruct b3; cbn [negb] in Hr;
    [|now apply (@setError_codes MalformedNumberLiteral t3)].
  rewrite bind_gets in Hr.
  erewrite bind_Ok in Hr by (apply substr_eq; rewrite Hi; lia).
  rewrite bind_modify in Hr. unfold current, gets in Hr.
  injection Hr as <- <-. cbn [_token _error with_value].
  split; [reflexivity|].
  assert (Hk : _token t3 = Integer \/ _token t3 = Float)
    by (destruct K2 as [K2|K2], K3 as [K3|K3]; rewrite ?K3, ?K2, ?K1; auto).
  split; [intros He; destruct Hk as [Hk|Hk]; congruence|].
  intros _. congruence.
Qed.

Lemma readString_codes (b : ascii) (token_start : nat) (u : Tokenizer)
      (k : Token) (t' : Tokenizer) :
  cursor_ok u -> token_start < _offset u ->
  readString b token_start u = Ok (k, t') ->
  _token t' = k /\
  (k = Error -> scan_error (_error t') = true) /\
  (k <> Error -> _error t' = _error u).
Proof.
  intros Hc Hs Hr. unfold readString in Hr. rewrite bind_gets in Hr.
  pose proof (@readString_loop_eq (availableInput u) b u Hc (le_n _)) as Hloop.
  cbv zeta in Hloop.
  pose proof (string_body_le (skipn (_offset u) (_input u))) as Hle.
  rewrite length_skipn in Hle. unfold cursor_ok in Hc.
  destruct (string_body (skipn (_offset u) (_input u))) as [e n].
  cbn [fst snd] in Hloop, Hle.
  assert (Hval : forall o, _offset u <= o <= length (_input u) ->
            readString_value token_start (with_offset o u) = Ok (k, t') ->
            _token t' = k /\
            (k = Error -> scan_error (_error t') = true) /\
            (k <> Error -> _error t' = _error u)).
  { intros o Ho Hv.
    rewrite readString_value_eq in Hv by (unfold cursor_ok; simpl; lia).
    cbv zeta in Hv. cbn [_input _offset with_offset] in Hv.
    destruct (nth_error _ _) as [c|].
    - destruct (c =? ":")%char;
        [injection Hv as <- <-; split; [reflexivity|]; split;
           [discriminate|reflexivity]|].
      destruct (_ || _);
        [injection Hv as <- <-; split; [reflexivity|]; split;
           [discriminate|reflexivity]|].
      destruct (c =? NUL)%char; injection Hv as <- <-;
        (split; [reflexivity|]); (split; [reflexivity|congruence]).
    - injection Hv as <- <-. split; [reflexivity|]. split; [discriminate|reflexivity]. }
  destruct e.
  - erewrite bind_Ok in Hr by exact Hloop. cbv beta iota in Hr.
    change (negb (DQUOTE =? DQUOTE)%char) with false in Hr. cbv iota in Hr.
    apply (Hval (_offset u + n)); [lia|exact Hr].
  - destruct Hloop as (b' & Hl & _). erewrite bind_Ok in Hr by exact Hl.
    cbv beta iota in Hr.
    destruct (negb (b' =? DQUOTE)%char);
      [now apply (@setError_codes UnterminatedString (with_offset (_offset u + n) u))|].
    apply (Hval (_offset u + n)); [lia|exact Hr].
  - erewrite bind_Ok in Hr by exact Hloop. injection Hr as <- <-.
    split; [reflexivity|]. split; [reflexivity|congruence].
  - erewrite bind_Ok in Hr by exact Hloop. injection Hr as <- <-.
    split; [reflexivity|]. split; [reflexivity|congruence].
Qed.

Lemma next_fuel_codes (fuel : nat) :
  forall t k t', cursor_ok t -> next_fuel fuel t = Ok (k, t') ->
    _token t' = k /\
    (k = Error -> scan_error (_error t') = true) /\
    (k <> Error -> _error t' = _error t).
Proof.
  induction fuel as [|fuel IH]; intros t k t' Hc Hr; [discriminate|].
  rewrite next_fuel_S in Hr. cbv zeta in Hr. unfold cursor_ok in Hc.
  set (o1 := _offset t + span is_ws (skipn (_offset t) (_input t))) in *.
  assert (Ho1 : _offset t <= o1 <= length (_input t)).
  { pose proof (span_le is_ws (skipn (_offset t) (_input t))) as Hl.
    rewrite length_skipn in Hl. subst o1. lia. }
  destruct (endOfInput (with_offset o1 t)).
  { injection Hr as <- <-. split; [reflexivity|].
    split; [discriminate|reflexivity]. }
  destruct (nth_error (_input t) o1) as [c|] eqn:Hn; [|discriminate].
  assert (Hlt : o1 < length (_input t)) by (apply nth_error_Some; congruence).
  set (u := with_offset (S o1) t) in *.
  assert (Hu : cursor_ok u) by (unfold cursor_ok; simpl; lia).
  change (_error t) with (_error u).
  unfold next_switch in Hr.
  destruct (c =? "{")%char.
  { rewrite setToken_eq in Hr. injection Hr as <- <-.
    split; [reflexivity|]. split; [discriminate|reflexivity]. }
  destruct (c =? "}")%char;
    [apply (@readEndBracket_codes ObjectEnd u); [discriminate|exact Hr]|].
  destruct (c =? "[")%char.
  { rewrite setToken_eq in Hr. injection Hr as <- <-.
    split; [reflexivity|]. split; [discriminate|reflexivity]. }
  destruct (c =? "]")%char;
    [apply (@readEndBracket_codes ArrayEnd u); [discriminate|exact Hr]|].
  destruct (c =? "n")%char;
    [eapply readAtom_codes; [exact Hu| |exact Hr]; discriminate|].
  destruct (c =? "t")%char;
    [eapply readAtom_codes; [exact Hu| |exact Hr]; discriminate|].
  destruct (c =? "f")%char;
    [eapply readAtom_codes; [exact Hu| |exact Hr]; discriminate|].
  destruct (c =? NUL)%char; [now apply (@setError_codes InvalidByte u)|].
  destruct (c =? DQUOTE)%char;
    [apply (@readString_codes c o1 u); [exact Hu|simpl; lia|exact Hr]|].
  destruct (c =? ",")%char.
  { unfold readComma in Hr. rewrite bind_gets in Hr.
    destruct (comma_allowed_after (_token u));
      [|now apply (@setError_codes UnexpectedComma u)].
    rewrite bind_modify in Hr.
    change (_error u) with (_error (with_token Comma u)).
    apply IH; [unfold cursor_ok; simpl; lia|exact Hr]. }
  apply (@readNumber_codes c o1 u); [exact Hu|simpl; lia|exact Hr].
Qed.

(** X7: a call of [next] sets the error code exactly when it returns
    [Error].  The code is then one of the seven that the scanner sets, never
    [UnspecifiedError] or [MalformedUnicodeEscapeSequence], so [errorMessage]
    is never the fallback text; with any other token the error code and its
    message stay as they were.  The token returned is the current token. *)
Theorem next_sets_error_code (t : Tokenizer) (k : Token) (t' : Tokenizer) :
  cursor_ok t -> next t = Ok (k, t') ->
  _token t' = k /\
  (k = Error ->
   scan_error (_error t') = true /\
   errorMessage t' <> "Unspecified error"%string) /\
  (k <> Error ->
   _error t' = _error t /\ errorMessage t' = errorMessage t).
Proof.
  intros Hc Hr.
  destruct (@next_fuel_codes _ t k t' Hc Hr) as (Hk & He & Hn).
  split; [exact Hk|]. split.
  - intros E. specialize (He E). split; [exact He|].
    unfold errorMessage. destruct (_error t'); try discriminate He; discriminate.
  - intros E. specialize (Hn E). split; [exact Hn|].
    unfold errorMessage. now rewrite Hn.
Qed.

Lemma next_sets_error_code_witness :
  let t := reset ["["; "1"; " "; "x"]%char in
  (exists t', next t = Ok (ArrayStart, t') /\ _error t' = UnspecifiedError) /\
  (exists t', next (with_offset 3 t) = Ok (Error, t') /\
              errorMessage t' = "Invalid input byte"%string).
Proof.
  cbv zeta. split.
  - eexists. split; [reflexivity|].
    refine (proj1 (proj2 (proj2 (@next_sets_error_code
              (reset ["["; "1"; " "; "x"]%char) ArrayStart _ _ eq_refl)) _)).
    + unfold cursor_ok. simpl. lia.
    + discriminate.
  - eexists. split; reflexivity.
Defined.

(** [errorMessage] tells the error codes apart. *)
Lemma errorMessage_injective (t1 t2 : Tokenizer) :
  errorMessage t1 = errorMessage t2 -> _error t1 = _error t2.
Proof.
  unfold errorMessage.
  destruct (_error t1), (_error t2); intros H; try reflexivity; discriminate H.
Qed.

(** ** The number scan *)

Lemma span_inside (p : ascii -> bool) (s : list ascii) (i : nat) (x : ascii) :
  nth_error s i = Some x -> i < span p s -> p x = true.
Proof.
  revert i. induction s as [|c s IH]; intros i Hn Hi; simpl in *; [lia|].
  destruct (p c) eqn:E; [|lia].
  destruct i as [|i]; simpl in Hn.
  - injection Hn as <-. exact E.
  - apply (IH i); [exact Hn|lia].
Qed.

Lemma rev_last_two (input : list ascii) (c d : ascii) :
  2 <= length input ->
  nth_error input (length input - 1) = Some c ->
  nth_error input (length input - 2) = Some d ->
  exists l, rev input = c :: d :: l.
Proof.
  intros Hl Hc Hd.
  rewrite <- (firstn_skipn (length input - 2) input).
  pose proof (length_skipn (length input - 2) input) as Hs.
  replace (length input - 2) with (length input - 2 + 0) in Hd at 1 by lia.
  replace (length input - 1) with (length input - 2 + 1) in Hc by lia.
  rewrite <- nth_error_skipn in Hd, Hc.
  destruct (skipn (length input - 2) input) as [|x [|y [|z l]]];
    simpl in Hs, Hc, Hd; try lia.
  injection Hc as ->. injection Hd as ->.
  rewrite rev_app_distr. simpl. eauto.
Qed.

(** On a buffer that does not end with a digit and one further byte, a run
    of digits that has a digit of its own, or directly follows one, stops
    where its digits stop. *)
Lemma digits_end_clean (input : list ascii) (o : nat) :
  ends_after_digit input = false -> o <= length input ->
  0 < span safe_isdigit (skipn o input) \/
  (exists d, 1 <= o /\ nth_error input (o - 1) = Some d /\ safe_isdigit d = true) ->
  digits_end input o = o + span safe_isdigit (skipn o input).
Proof.
  intros Hclean Ho Hd.
  destruct (digits_end_cases input Ho) as [[H _]|(_ & Hk & c & Hc & Hcd)];
    [exact H|exfalso].
  set (k := span safe_isdigit (skipn o input)) in *.
  assert (Hprev : exists d, nth_error input (length input - 2) = Some d /\
                            safe_isdigit d = true /\ 2 <= length input).
  { destruct Hd as [Hpos|(d & H1 & H2 & H3)].
    - destruct (@nth_error_in_range input (o + (k - 1))) as [d Hn]; [lia|].
      exists d. replace (length input - 2) with (o + (k - 1)) by lia.
      split; [exact Hn|]. split; [|lia].
      apply (@span_inside safe_isdigit (skipn o input) (k - 1)); [|fold k; lia].
      now rewrite nth_error_skipn.
    - destruct (Nat.eq_dec k 0) as [Hz|Hnz].
      + exists d. replace (length input - 2) with (o - 1) by lia. auto with arith.
        split; [exact H2|]. split; [exact H3|lia].
      + destruct (@nth_error_in_range input (o + (k - 1))) as [d' Hn]; [lia|].
        exists d'. replace (length input - 2) with (o + (k - 1)) by lia.
        split; [exact Hn|]. split; [|lia].
        apply (@span_inside safe_isdigit (skipn o input) (k - 1)); [|fold k; lia].
        now rewrite nth_error_skipn. }
  destruct Hprev as (d & Hdn & Hdd & Hlen).
  destruct (rev_last_two input Hlen Hc Hdn) as [l Hrev].
  unfold ends_after_digit in Hclean. rewrite Hrev, Hcd, Hdd in Hclean.
  discriminate.
Qed.

Lemma skipn_from (input : list ascii) (o : nat) (c : ascii) :
  nth_error input o = Some c -> skipn o input = c :: skipn (S o) input.
Proof. apply skipn_nth_error. Qed.

(** The exponent part, forwards: on a clean buffer [readExponent] succeeds
    exactly when the grammar reads an exponent part or none is there. *)
Lemma readExponent_forward (t : Tokenizer) (start n : nat) :
  cursor_ok t -> two_left t -> ends_after_digit (_input t) = false ->
  _offset t = start + n ->
  exists b t', readExponent t = Ok (b, t') /\ advances t t' /\
    _value t' = _value t /\
    match exponent_part (_token t) n (skipn (_offset t) (_input t)) with
    | Some (k, m) => b = true /\ _token t' = k /\ _offset t' = start + m
    | None => b = false
    end.
Proof.
  intros Hc T Hclean Ho.
  destruct (readExponent_spec Hc T) as (b & t' & Hr & A & _ & _ & Hv & _).
  exists b, t'. split; [exact Hr|]. split; [exact A|]. split; [exact Hv|].
  rewrite readExponent_eq in Hr. unfold cursor_ok in Hc.
  destruct (nth_error (_input t) (_offset t)) as [c|] eqn:Hn.
  2:{ apply nth_error_None in Hn. rewrite (skipn_all2 _ Hn). cbn [exponent_part].
      injection Hr as <- <-. auto. }
  rewrite (skipn_from _ _ Hn). cbn [exponent_part].
  destruct (is_exponent_introducer c); [|injection Hr as <- <-; auto].
  assert (Hlt : _offset t < length (_input t)) by (apply nth_error_Some; congruence).
  destruct T as [T|(T & _)]; [lia|].
  destruct (@nth_error_in_range (_input t) (S (_offset t))) as [d Hd]; [lia|].
  rewrite Hd in Hr. rewrite (skipn_from _ _ Hd).
  set (sg := if is_plus_minus d then 1 else 0).
  replace (if is_plus_minus d then S (S (_offset t)) else S (_offset t))
    with (S (_offset t) + sg) in Hr by (subst sg; destruct (is_plus_minus d); lia).
  change (with_offset (S (_offset t) + sg) (with_token Float t))
    with (with_offset (S (_offset t) + sg) (with_token Float t)) in Hr.
  rewrite readDigits_at in Hr
    by (cbn [_input with_token]; subst sg; destruct (is_plus_minus d); lia).
  cbn [_input with_token] in Hr.
  replace (skipn sg (d :: skipn (S (S (_offset t))) (_input t)))
    with (skipn (S (_offset t) + sg) (_input t)).
  2:{ rewrite <- (skipn_from _ _ Hd), skipn_skipn. f_equal. lia. }
  set (k := span safe_isdigit (skipn (S (_offset t) + sg) (_input t))) in *.
  injection Hr as <- <-.
  destruct (k =? 0) eqn:Ek.
  - apply Nat.eqb_eq in Ek. rewrite Ek. reflexivity.
  - apply Nat.eqb_neq in Ek.
    split; [apply Nat.ltb_lt; lia|]. split; [reflexivity|].
    cbn [_offset with_offset].
    change (S (_offset t + sg)) with (S (_offset t) + sg).
    rewrite digits_end_clean;
      [fold k; lia|exact Hclean| |left; fold k; lia].
    subst sg; destruct (is_plus_minus d); lia.
Qed.

(** The fractional part, forwards. *)
Lemma readFraction_forward (t : Tokenizer) (start n : nat) :
  cursor_ok t -> two_left t -> ends_after_digit (_input t) = false ->
  _offset t = start + n -> _token t = Integer ->
  exists b t', readFraction t = Ok (b, t') /\ advances t t' /\ two_left t' /\
    _value t' = _value t /\
    fraction_part n (skipn (_offset t) (_input t)) =
    (if b then exponent_part (_token t') (_offset t' - start)
                (skipn (_offset t') (_input t))
     else None).
Proof.
  intros Hc T Hclean Ho Hk.
  destruct (readFraction_spec Hc T) as (b & t' & Hr & A & T' & _ & Hv & _).
  exists b, t'. split; [exact Hr|]. split; [exact A|]. split; [exact T'|].
  split; [exact Hv|].
  rewrite readFraction_eq in Hr. unfold cursor_ok in Hc.
  destruct (nth_error (_input t) (_offset t)) as [c|] eqn:Hn.
  2:{ apply nth_error_None in Hn. rewrite (skipn_all2 _ Hn).
      injection Hr as <- <-. rewrite (skipn_all2 _ Hn), Hk.
      cbn [fraction_part exponent_part].
      replace (_offset t - start) with n by lia. reflexivity. }
  rewrite (skipn_from _ _ Hn). cbn [fraction_part].
  destruct (c =? ".")%char.
  2:{ injection Hr as <- <-. rewrite (skipn_from _ _ Hn), Hk.
      replace (_offset t - start) with n by lia. reflexivity. }
  assert (Hlt : _offset t < length (_input t)) by (apply nth_error_Some; congruence).
  rewrite readDigits_at in Hr by (cbn [_input with_token]; lia).
  cbn [_input with_token] in Hr.
  set (k := span safe_isdigit (skipn (S (_offset t)) (_input t))) in *.
  injection Hr as <- <-. cbn [_token _offset with_offset with_token].
  destruct (k =? 0) eqn:Ek.
  - apply Nat.eqb_eq in Ek. rewrite Ek. reflexivity.
  - apply Nat.eqb_neq in Ek.
    replace (0 <? k) with true by (symmetry; apply Nat.ltb_lt; lia).
    rewrite digits_end_clean; [|exact Hclean|lia|left; fold k; lia].
    fold k. rewrite skipn_skipn.
    replace (S (_offset t) + k - start) with (n + 1 + k) by lia.
    replace (k + S (_offset t)) with (S (_offset t) + k) by lia.
    reflexivity.
Qed.

Lemma number_literal_first (b : ascii) (s0 : list ascii) :
  safe_isdigit b = true \/ b = "-"%char ->
  number_literal (b :: s0) =
  (if 0 <? (if safe_isdigit b then 1 else 0) + span safe_isdigit s0
   then fraction_part (S (span safe_isdigit s0)) (skipn (span safe_isdigit s0) s0)
   else None).
Proof.
  intros [Hd| ->]; unfold number_literal.
  - rewrite (@digit_not_minus b Hd), Hd. cbn [skipn span]. rewrite Hd. reflexivity.
  - cbn [Ascii.eqb Bool.eqb safe_isdigit]. change (safe_isdigit "-") with false.
    cbn [skipn Nat.add]. destruct (span safe_isdigit s0); reflexivity.
Qed.

(** The number scan, forwards: on a clean buffer [readNumber] returns what
    the number grammar reads at the token's first byte. *)
Lemma readNumber_forward (b : ascii) (start : nat) (u : Tokenizer) :
  cursor_ok u -> _offset u = S start ->
  nth_error (_input u) start = Some b ->
  safe_isdigit b = true \/ b = "-"%char ->
  ends_after_digit (_input u) = false ->
  exists k t', readNumber b start u = Ok (k, t') /\
    match number_literal (skipn start (_input u)) with
    | Some (k0, n) =>
        k = k0 /\ _offset t' = start + n /\
        _value t' = {| sv_data := start; sv_size := n |}
    | None => k = Error /\ _error t' = MalformedNumberLiteral
    end.
Proof.
  intros Hc Ho Hb Hd Hclean. unfold cursor_ok in Hc.
  rewrite (skipn_from _ _ Hb), (@number_literal_first b _ Hd).
  set (s0 := skipn (S start) (_input u)).
  set (k0 := span safe_isdigit s0).
  set (d0 := if safe_isdigit b then 1 else 0).
  unfold readNumber.
  replace (negb (safe_isdigit b) && negb (b =? "-")%char) with false
    by (destruct Hd as [Hd| ->]; [rewrite Hd|]; reflexivity).
  rewrite bind_setToken.
  assert (Hw : with_token Integer u = with_offset (S start) (with_token Integer u))
    by (rewrite with_offset_same; [reflexivity|symmetry; exact Ho]).
  rewrite Hw. unfold bind at 1. rewrite readDigits_at by (cbn [_input with_token]; lia).
  cbn [_input with_token]. fold s0 k0 d0. unfold obind, fst, snd.
  destruct (0 <? d0 + k0) eqn:Hok; cbn [negb].
  2:{ rewrite setError_eq. eexists; eexists; split; [reflexivity|]. auto. }
  apply Nat.ltb_lt in Hok.
  assert (He : digits_end (_input u) (S start) = S start + k0).
  { apply digits_end_clean; [exact Hclean|lia|].
    destruct (safe_isdigit b) eqn:Hdig.
    - right. exists b. rewrite Nat.sub_succ, Nat.sub_0_r. split; [lia|]. auto.
    - left. subst d0. fold s0 k0. lia. }
  rewrite He.
  set (t0 := with_offset (S start + k0) (with_token Integer u)).
  assert (Hc0 : cursor_ok t0).
  { unfold cursor_ok, t0. cbn [_input _offset with_offset with_token].
    pose proof (span_le safe_isdigit s0) as Hl. subst s0.
    rewrite length_skipn in Hl. fold k0 in Hl. lia. }
  assert (T0 : two_left t0)
    by (unfold t0; rewrite <- He; apply two_left_digits_end; lia).
  destruct (@readFraction_forward t0 start (S k0) Hc0 T0 Hclean)
    as (b2 & t1 & Hf & A1 & T1 & V1 & L1);
    [unfold t0; cbn [_offset with_offset]; lia|reflexivity|].
  unfold t0 in L1 at 1 2. cbn [_input _offset with_offset with_token] in L1.
  replace (skipn (S start + k0) (_input u)) with (skipn k0 s0) in L1
    by (subst s0; rewrite skipn_skipn; f_equal; lia).
  rewrite L1. erewrite bind_Ok by exact Hf.
  destruct b2; cbn [negb].
  2:{ rewrite setError_eq. eexists; eexists; split; [reflexivity|]. auto. }
  destruct A1 as [Hi1 Ho1]. unfold t0 in Hi1, Ho1.
  cbn [_input _offset with_offset with_token] in Hi1, Ho1.
  destruct (@readExponent_forward t1 start (_offset t1 - start))
    as (b3 & t3 & Hx & [Hi3 Ho3] & V3 & L3);
    [unfold cursor_ok; rewrite Hi1; lia|exact T1|rewrite Hi1; exact Hclean|lia|].
  rewrite Hi1 in L3, Hi3, Ho3. change (_input t0) with (_input u).
  erewrite bind_Ok by exact Hx.
  destruct (exponent_part (_token t1) (_offset t1 - start)
              (skipn (_offset t1) (_input u))) as [[k m]|].
  - destruct L3 as (-> & Hk3 & Hm). cbn [negb].
    rewrite bind_gets.
    erewrite bind_Ok by (apply substr_eq; rewrite Hi3; lia).
    rewrite bind_modify. unfold current, gets.
    eexists; eexists; split; [reflexivity|].
    cbn [_token _offset _value with_value].
    split; [exact Hk3|]. split; [exact Hm|].
    unfold subview. rewrite Hi3. f_equal. lia.
  - subst b3. cbn [negb].
    rewrite setError_eq. eexists; eexists; split; [reflexivity|]. auto.
Qed.

Lemma next_switch_number (again : M Token) (c : ascii) (start : nat) :
  safe_isdigit c = true \/ c = "-"%char ->
  is_ws c = false /\ next_switch again c start = readNumber c start.
Proof.
  intros [H| ->]; [|split; reflexivity].
  destruct c as [[] [] [] [] [] [] [] []]; try discriminate H; split; reflexivity.
Qed.

(** X8: on a buffer that does not end with a digit followed by one further
    byte that is no digit, [next] accepts exactly the number grammar
    [-?digit+ ('.' digit+)? ([eE] [+-]? digit+)?].  When the next
    significant byte is a digit or a '-' and the grammar reads a literal
    there, the call returns its kind ([Integer], or [Float] with a fraction
    or an exponent), the value slice is exactly the literal and the cursor
    is right behind it; when the grammar reads none, the call fails with
    [MalformedNumberLiteral]. *)
Theorem number_scan (t : Tokenizer) (ws : list ascii) (c : ascii)
        (rest : list ascii) :
  skipn (_offset t) (_input t) = ws ++ c :: rest ->
  forallb is_ws ws = true ->
  safe_isdigit c = true \/ c = "-"%char ->
  ends_after_digit (_input t) = false ->
  let first := _offset t + length ws in
  exists k t', next t = Ok (k, t') /\
    match number_literal (c :: rest) with
    | Some (k0, n) =>
        k = k0 /\ _offset t' = first + n /\
        _value t' = {| sv_data := first; sv_size := n |} /\
        sv_bytes (_input t') (_value t') = firstn n (c :: rest)
    | None => k = Error /\ _error t' = MalformedNumberLiteral
    end.
Proof.
  intros H Hws Hd Hclean first.
  destruct (@skipn_decompose _ _ _ _ _ H) as (Hn & Hr & Hl). fold first in Hn, Hr.
  assert (Hc : cursor_ok t) by (unfold cursor_ok; lia).
  destruct (next_switch_number (next_fuel (availableInput t)) first Hd) as [Hw Hsw].
  set (u := with_offset (S first) t).
  destruct (@readNumber_forward c first u) as (k & t' & Hrun & Hlit); auto.
  { unfold cursor_ok; simpl; lia. }
  assert (Hnext : next t = Ok (k, t'))
    by (rewrite (@next_dispatch t ws c rest H Hws Hw); fold first; rewrite Hsw;
        exact Hrun).
  exists k, t'. split; [exact Hnext|].
  change (_input u) with (_input t) in Hlit.
  rewrite (skipn_from _ _ Hn), Hr in Hlit.
  destruct (number_literal (c :: rest)) as [[k0 n]|]; [|exact Hlit].
  destruct Hlit as (Hk & Ho & Hv). split; [exact Hk|]. split; [exact Ho|].
  split; [exact Hv|].
  destruct (next_spec Hc) as (k' & u' & Hr' & (Hi & _) & _).
  rewrite Hnext in Hr'. injection Hr' as <- <-.
  unfold sv_bytes. rewrite Hv, Hi. cbn [sv_data sv_size].
  now rewrite (skipn_from _ _ Hn), Hr.
Qed.

Lemma number_scan_witness :
  exists k t',
    next (reset [" "; "-"; "1"; "2"; "."; "5"; "e"; "+"; "3"; ","; " "]%char) = Ok (k, t') /\
    k = Float /\ _offset t' = 1 + 8 /\
    _value t' = {| sv_data := 1; sv_size := 8 |} /\
    sv_bytes (_input t') (_value t') = ["-"; "1"; "2"; "."; "5"; "e"; "+"; "3"]%char.
Proof.
  exact (@number_scan (reset [" "; "-"; "1"; "2"; "."; "5"; "e"; "+"; "3"; ","; " "]%char)
           [" "]%char "-"%char ["1"; "2"; "."; "5"; "e"; "+"; "3"; ","; " "]%char
           eq_refl eq_refl (or_intror eq_refl) eq_refl).
Defined.

(** ** Numeric values *)

Lemma fraction_part_ge (n0 : nat) (s : list ascii) (k : Token) (n : nat) :
  fraction_part n0 s = Some (k, n) -> n0 <= n.
Proof.
  unfold fraction_part. destruct s as [|c r].
  - intros H. injection H as _ <-. lia.
  - destruct (c =? ".")%char.
    + destruct (_ =? 0); [discriminate|].
      intros H. apply exponent_part_ge in H. lia.
    + apply exponent_part_ge.
Qed.

Lemma span_firstn (p : ascii -> bool) (s : list ascii) (m : nat) :
  span p s <= m -> span p (firstn m s) = span p s.
Proof.
  revert m. induction s as [|c s IH]; intros m H.
  - now rewrite firstn_nil.
  - destruct m as [|m]; simpl in *.
    + destruct (p c); [lia|reflexivity].
    + destruct (p c); [|reflexivity]. f_equal. apply IH. lia.
Qed.

(** What [strtoll] converts from the terminated copy of a literal of the
    number grammar: the digits before any '.' or exponent, with the sign. *)
Lemma strtoll_scan_literal (s : list ascii) (k : Token) (n : nat) :
  number_literal s = Some (k, n) -> n <= length s ->
  strtoll_scan (firstn n s ++ [NUL])
  = Ok {| converted := true; exact := integer_part (firstn n s) |}.
Proof.
  intros H Hl. unfold number_literal in H.
  destruct s as [|c0 r0]; [discriminate|]. cbn [length] in Hl.
  destruct (c0 =? "-")%char eqn:Em.
  - apply Ascii.eqb_eq in Em. subst c0. cbn [skipn] in H.
    remember (span safe_isdigit r0) as k0 eqn:Ek0.
    destruct (k0 =? 0) eqn:Ek; [discriminate|]. apply Nat.eqb_neq in Ek.
    change (skipn (1 + k0) ("-"%char :: r0)) with (skipn k0 r0) in H.
    apply fraction_part_ge in H.
    destruct n as [|m]; [lia|]. cbn [firstn app].
    unfold strtoll_scan. cbn [skip_space isspace]. simpl read_sign. unfold obind.
    rewrite read_run_copy by (try reflexivity; rewrite <- ?Ek0; lia).
    rewrite <- Ek0. cbn [integer_part]. simpl Ascii.eqb.
    rewrite span_firstn by (rewrite <- Ek0; lia).
    rewrite <- Ek0, firstn_firstn. replace (Nat.min k0 m) with k0 by lia.
    replace (0 <? 0 + k0) with true by (symmetry; apply Nat.ltb_lt; lia).
    reflexivity.
  - cbn [skipn] in H.
    remember (span safe_isdigit (c0 :: r0)) as k0 eqn:Ek0.
    destruct (k0 =? 0) eqn:Ek; [discriminate|]. apply Nat.eqb_neq in Ek.
    change (skipn (0 + k0) (c0 :: r0)) with (skipn k0 (c0 :: r0)) in H.
    apply fraction_part_ge in H. cbn [Nat.add] in H.
    assert (Hd : safe_isdigit c0 = true).
    { rewrite Ek0 in Ek. destruct (span_positive _ _ Ek) as (c & r & Hcr & Hd).
      injection Hcr as <- <-. exact Hd. }
    destruct (digit_bytes _ Hd) as (Hsp & _ & Hp & _).
    destruct n as [|m]; [lia|].
    assert (Hrun := @read_run_copy safe_isdigit digit_val 10 (c0 :: r0) (S m) 0 0
                      eq_refl).
    rewrite <- Ek0 in Hrun. specialize (Hrun ltac:(lia) ltac:(cbn [length]; lia)).
    assert (Hint : integer_part (firstn (S m) (c0 :: r0))
                   = run_value digit_val 10 (firstn k0 (c0 :: r0)) 0).
    { cbn [firstn integer_part]. rewrite Em.
      change (c0 :: firstn m r0) with (firstn (S m) (c0 :: r0)).
      rewrite span_firstn by (rewrite <- Ek0; lia).
      rewrite <- Ek0, firstn_firstn. replace (Nat.min k0 (S m)) with k0 by lia.
      reflexivity. }
    rewrite Hint. cbn [firstn app] in *.
    unfold strtoll_scan. cbn [skip_space]. rewrite Hsp.
    unfold read_sign. rewrite Em, Hp. unfold obind.
    rewrite Hrun.
    replace (0 <? 0 + k0) with true by (symmetry; apply Nat.ltb_lt; lia).
    reflexivity.
Qed.

(** X9: after a numeric token that ends cleanly (the cursor stops before
    the end of the buffer, or the buffer ends with a digit), [intValue] is
    the integer that the literal's digits before any '.' or exponent denote,
    with its sign; a fraction and an exponent are ignored.  When bytes
    follow the token the value is clamped to the range of a 64-bit integer;
    when the token ends the buffer, a value outside that range makes
    [std::stoll] throw inside the [noexcept] function, which terminates the
    program. *)
Theorem intValue_of_literal (t : Tokenizer) (k : Token) (t' : Tokenizer) :
  cursor_ok t -> next t = Ok (k, t') -> k = Integer \/ k = Float ->
  ends_cleanly t' ->
  let v := integer_part (sv_bytes (_input t') (_value t')) in
  intValue t' =
  if availableInput t' =? 0
  then (if ll_out_of_range v then Terminated else Ok v)
  else Ok (Z.max LLONG_MIN (Z.min LLONG_MAX v)).
Proof.
  intros Hc Hr Hk Hend v.
  destruct (intValue_numeric Hc Hr Hk) as [_ ->].
  destruct (next_spec Hc) as (k' & u & Hr' & (Hi & Ho) & _ & _ & _ & Hs).
  rewrite Hr in Hr'. injection Hr' as <- <-.
  assert (Hn : exists start,
             _offset t <= start < _offset t' /\
             _value t' = {| sv_data := start; sv_size := _offset t' - start |} /\
             number_literal (skipn start (_input t))
               = Some (k, _offset t' - start)).
  { destruct Hk as [->| ->]; destruct Hs as (start & c & H1 & H2 & _ & _ & _ & H6);
      exists start; auto. }
  destruct Hn as (start & Hst & Hv & Hlit).
  assert (Hscan : strtoll_scan (sv_bytes (_input t') (_value t') ++ [NUL])
                  = Ok {| converted := true; exact := v |}).
  { subst v. unfold sv_bytes. rewrite Hv, Hi. cbn [sv_data sv_size].
    apply (strtoll_scan_literal _ Hlit). rewrite length_skipn. lia. }
  unfold stoll, strtoll. rewrite Hscan. reflexivity.
Qed.

Lemma intValue_of_literal_witness :
  let t1 := reset ["-"; "1"; "2"; "."; "9"; ","; " "]%char in
  let t1' := with_value {| sv_data := 0; sv_size := 5 |}
               (with_offset 5 (with_token Float t1)) in
  next t1 = Ok (Float, t1') /\ intValue t1' = Ok (-12)%Z.
Proof.
  cbv zeta.
  assert (Hn : next (reset ["-"; "1"; "2"; "."; "9"; ","; " "]%char)
               = Ok (Float, with_value {| sv_data := 0; sv_size := 5 |}
                              (with_offset 5 (with_token Float
                                 (reset ["-"; "1"; "2"; "."; "9"; ","; " "]%char)))))
    by (vm_compute; reflexivity).
  split; [exact Hn|].
  assert (Hc : cursor_ok (reset ["-"; "1"; "2"; "."; "9"; ","; " "]%char))
    by (unfold cursor_ok; simpl; lia).
  pose proof (intValue_of_literal Hc Hn (or_intror eq_refl)) as H.
  specialize (H ltac:(left; simpl; lia)).
  exact H.
Defined.

(** X10: after a call of [next] that leaves a token without a value,
    [intValue] and [floatValue] do not look at the buffer: they give 1 and
    1.0 for [True], and 0 and 0.0 for every other such token. *)
Theorem valueless_token_values (range_error : fvalue -> bool)
        (t : Tokenizer) (k : Token) (t' : Tokenizer) :
  cursor_ok t -> next t = Ok (k, t') -> hasValue t' = false ->
  intValue t' = Ok (if Token_eqb k True then 1%Z else 0%Z) /\
  floatValue range_error t' =
  Ok (if Token_eqb k True then FDec false 1 0 else FDec false 0 0).
Proof.
  intros Hc Hr Hv.
  destruct (@next_fuel_codes _ t k t' Hc Hr) as (Hk & _).
  unfold intValue, floatValue. rewrite Hv, Hk. split; reflexivity.
Qed.

Lemma valueless_token_values_witness :
  let t := reset [" "; "t"; "r"; "u"; "e"; "]"]%char in
  let t' := with_token True (with_offset 5 t) in
  next t = Ok (True, t') /\
  intValue t' = Ok 1%Z /\
  floatValue (fun _ => false) t' = Ok (FDec false 1 0).
Proof.
  cbv zeta.
  assert (Hn : next (reset [" "; "t"; "r"; "u"; "e"; "]"]%char)
               = Ok (True, with_token True
                             (with_offset 5 (reset [" "; "t"; "r"; "u"; "e"; "]"]%char))))
    by (vm_compute; reflexivity).
  split; [exact Hn|].
  refine (@valueless_token_values (fun _ => false) _ _ _ _ Hn eq_refl).
  unfold cursor_ok. simpl. lia.
Defined.

Lemma intValue_in_bounds_witness :
  let t := reset ["7"; "x"; "1"]%char in
  let t' := with_value {| sv_data := 0; sv_size := 1 |}
              (with_offset 1 (with_token Integer t)) in
  next t = Ok (Integer, t') /\ intValue t' <> OutOfBounds.
Proof.
  cbv zeta.
  assert (Hn : next (reset ["7"; "x"; "1"]%char)
               = Ok (Integer, with_value {| sv_data := 0; sv_size := 1 |}
                                (with_offset 1 (with_token Integer
                                   (reset ["7"; "x"; "1"]%char)))))
    by (vm_compute; reflexivity).
  split; [exact Hn|].
  refine (@intValue_in_bounds _ _ _ _ Hn (or_introl eq_refl)).
  unfold cursor_ok. simpl. lia.
Defined.

Lemma intValue_paths_agree_witness :
  let t := reset ["4"; "2"; ","; "1"]%char in
  let t' := with_value {| sv_data := 0; sv_size := 2 |}
              (with_offset 2 (with_token Integer t)) in
  next t = Ok (Integer, t') /\
  stoll (sv_bytes (_input t') (_value t')) = Ok 42%Z /\
  intValue t' = Ok 42%Z.
Proof.
  cbv zeta.
  assert (Hn : next (reset ["4"; "2"; ","; "1"]%char)
               = Ok (Integer, with_value {| sv_data := 0; sv_size := 2 |}
                                (with_offset 2 (with_token Integer
                                   (reset ["4"; "2"; ","; "1"]%char)))))
    by (vm_compute; reflexivity).
  assert (Hs : stoll (sv_bytes ["4"; "2"; ","; "1"]%char {| sv_data := 0; sv_size := 2 |})
               = Ok 42%Z) by (vm_compute; reflexivity).
  split; [exact Hn|]. split; [exact Hs|].
  refine (@intValue_paths_agree _ _ _ 42%Z _ Hn (or_introl eq_refl) Hs).
  unfold cursor_ok. simpl. lia.
Defined.

Lemma floatValue_in_place_witness :
  let t := reset ["1"; "."; "5"; "e"; "2"; "]"; " "]%char in
  let t' := with_value {| sv_data := 0; sv_size := 5 |}
              (with_offset 5 (with_token Float t)) in
  next t = Ok (Float, t') /\
  exists v,
    floatValue (fun _ => false) t' = Ok v /\
    stod (fun _ => false) (sv_bytes (_input t') (_value t')) = Ok v.
Proof.
  cbv zeta.
  assert (Hn : next (reset ["1"; "."; "5"; "e"; "2"; "]"; " "]%char)
               = Ok (Float, with_value {| sv_data := 0; sv_size := 5 |}
                              (with_offset 5 (with_token Float
                                 (reset ["1"; "."; "5"; "e"; "2"; "]"; " "]%char)))))
    by (vm_compute; reflexivity).
  split; [exact Hn|].
  refine (@floatValue_in_place (fun _ => false) _ _ _ _ Hn (or_intror eq_refl) _ _).
  - unfold cursor_ok. simpl. lia.
  - discriminate.
  - reflexivity.
Defined.

(** ** Runs of digits *)

(** X14: [readDigits] counts the digits at the cursor and reports whether
    the count, added to the digits already seen, is positive.  It leaves the
    cursor on the byte that ended the run when at least one more byte
    follows that byte; when that byte is the last of the buffer, or the
    digits reach the end of the buffer, the cursor is left at the end of the
    buffer.  Nothing but the cursor changes. *)
Theorem readDigits_cursor (digits : nat) (t : Tokenizer) :
  cursor_ok t ->
  let k := span safe_isdigit (skipn (_offset t) (_input t)) in
  readDigits digits t =
  Ok (0 <? digits + k,
      with_offset (if _offset t + k + 1 <? length (_input t)
                   then _offset t + k else length (_input t)) t).
Proof. intros Hc k. rewrite (readDigits_eq _ Hc). reflexivity. Qed.

Lemma readDigits_cursor_witness :
  readDigits 0 (with_offset 1 (reset ["["; "4"; "2"; "]"]%char))
    = Ok (true, with_offset 4 (reset ["["; "4"; "2"; "]"]%char)) /\
  readDigits 0 (with_offset 1 (reset ["["; "4"; "2"; "]"; " "]%char))
    = Ok (true, with_offset 3 (reset ["["; "4"; "2"; "]"; " "]%char)).
Proof.
  split.
  - refine (@readDigits_cursor 0 (with_offset 1 (reset ["["; "4"; "2"; "]"]%char)) _).
    unfold cursor_ok. simpl. lia.
  - refine (@readDigits_cursor 0
              (with_offset 1 (reset ["["; "4"; "2"; "]"; " "]%char)) _).
    unfold cursor_ok. simpl. lia.
Defined.

(** ** Progress of the scan *)

Lemma next_fuel_progress (fuel : nat) (t : Tokenizer) (k : Token) (t' : Tokenizer) :
  cursor_ok t -> availableInput t < fuel ->
  next_fuel fuel t = Ok (k, t') -> k <> End ->
  _offset t < _offset t' <= length (_input t).
Proof.
  intros Hc Hf Hr Hk. destruct fuel as [|fuel]; [discriminate|].
  rewrite next_fuel_S in Hr. cbv zeta in Hr. unfold cursor_ok in Hc.
  set (o1 := _offset t + span is_ws (skipn (_offset t) (_input t))) in *.
  assert (Ho1 : _offset t <= o1 <= length (_input t)).
  { pose proof (span_le is_ws (skipn (_offset t) (_input t))) as Hl.
    rewrite length_skipn in Hl. subst o1. lia. }
  destruct (endOfInput (with_offset o1 t)).
  { injection Hr as <- _. contradiction. }
  destruct (nth_error (_input t) o1) as [c|] eqn:Hn; [|discriminate].
  assert (Hlt : o1 < length (_input t)) by (apply nth_error_Some; congruence).
  set (u := with_offset (S o1) t) in *.
  assert (Hu : cursor_ok u) by (unfold cursor_ok; simpl; lia).
  assert (Hadv : forall v, advances u v -> _offset t < _offset v <= length (_input t)).
  { intros v [Hi Ho]. cbn [_input _offset with_offset u] in Hi, Ho. lia. }
  assert (Hself : advances u u) by (split; [reflexivity|unfold cursor_ok in Hu; lia]).
  unfold next_switch in Hr.
  assert (Hset : forall x, setToken x u = Ok (k, t') ->
                 _offset t < _offset t' <= length (_input t)).
  { intros x Hx. rewrite setToken_eq in Hx. injection Hx as _ <-. now apply Hadv. }
  assert (Herr : forall e, setError e u = Ok (k, t') ->
                 _offset t < _offset t' <= length (_input t)).
  { intros e Hx. rewrite setError_eq in Hx. injection Hx as _ <-. now apply Hadv. }
  assert (Hbr : forall x, readEndBracket x u = Ok (k, t') ->
                _offset t < _offset t' <= length (_input t)).
  { intros x Hx. destruct (readEndBracket_spec x u) as (k' & v & Hv & Hi & Ho & _).
    rewrite Hx in Hv. injection Hv as <- <-. apply Hadv. split; [exact Hi|].
    rewrite Ho. destruct Hself as [_ H]. exact H. }
  assert (Hat : forall atom x, readAtom atom x u = Ok (k, t') ->
                _offset t < _offset t' <= length (_input t)).
  { intros atom x Hx. destruct (@readAtom_spec atom x u Hu) as (k' & v & Hv & A & _).
    rewrite Hx in Hv. injection Hv as <- <-. now apply Hadv. }
  destruct (c =? "{")%char; [now apply (Hset ObjectStart)|].
  destruct (c =? "}")%char; [now apply (Hbr ObjectEnd)|].
  destruct (c =? "[")%char; [now apply (Hset ArrayStart)|].
  destruct (c =? "]")%char; [now apply (Hbr ArrayEnd)|].
  destruct (c =? "n")%char; [now apply (Hat ["u"; "l"; "l"]%char Null)|].
  destruct (c =? "t")%char; [now apply (Hat ["r"; "u"; "e"]%char True)|].
  destruct (c =? "f")%char; [now apply (Hat ["a"; "l"; "s"; "e"]%char False)|].
  destruct (c =? NUL)%char; [now apply (Herr InvalidByte)|].
  destruct (c =? DQUOTE)%char eqn:Cq.
  { apply Ascii.eqb_eq in Cq. subst c.
    destruct (@readString_spec DQUOTE o1 u Hu) as (k' & v & Hv & A & _);
      [reflexivity|exact Hn|].
    rewrite Hr in Hv. injection Hv as <- <-. now apply Hadv. }
  destruct (c =? ",")%char.
  { unfold readComma in Hr. rewrite bind_gets in Hr.
    destruct (comma_allowed_after (_token u)); [|now apply (Herr UnexpectedComma)].
    rewrite bind_modify in Hr.
    destruct (@next_fuel_spec fuel (with_token Comma u)) as (k' & v & Hv & A & _).
    { unfold cursor_ok; simpl; lia. }
    { unfold availableInput in *; simpl; lia. }
    rewrite Hr in Hv. injection Hv as <- <-. now apply Hadv. }
  destruct (@readNumber_spec c o1 u Hu) as (k' & v & Hv & A & _); [simpl; lia|].
  rewrite Hr in Hv. injection Hv as <- <-. now apply Hadv.
Qed.

(** X15: every call of [next] that returns a token other than [End], an
    [Error] included, moves the cursor forward by at least one byte and not
    beyond the end of the buffer. *)
Theorem next_progress (t : Tokenizer) (k : Token) (t' : Tokenizer) :
  cursor_ok t -> next t = Ok (k, t') -> k <> End ->
  _offset t < _offset t' <= length (_input t).
Proof.
  intros Hc Hr Hk. unfold next in Hr.
  apply (@next_fuel_progress _ t k t' Hc (Nat.lt_succ_diag_r _) Hr Hk).
Qed.

Lemma next_progress_witness :
  let t := with_offset 1 (reset ["["; " "; "n"; "u"; "l"; "l"; "]"]%char) in
  let t' := with_token Null (with_offset 6 t) in
  next t = Ok (Null, t') /\ 1 < _offset t' <= 7.
Proof.
  cbv zeta.
  assert (Hn : next (with_offset 1 (reset ["["; " "; "n"; "u"; "l"; "l"; "]"]%char))
               = Ok (Null, with_token Null
                             (with_offset 6 (with_offset 1
                                (reset ["["; " "; "n"; "u"; "l"; "l"; "]"]%char)))))
    by (vm_compute; reflexivity).
  split; [exact Hn|].
  refine (@next_progress _ _ _ _ Hn _).
  - unfold cursor_ok. simpl. lia.
  - discriminate.
Defined.

(** X16: driving [next] reaches the end of the input: from a state with [n]
    bytes left, one of the first [n + 1] calls returns [End], whatever the
    buffer holds and even when the calls before it fail. *)
Theorem next_reaches_End (t : Tokenizer) :
  cursor_ok t ->
  exists n t', n <= availableInput t /\ repeat_next n t = Ok (End, t').
Proof.
  remember (availableInput t) as a eqn:Ha. revert t Ha.
  induction a as [a IH] using lt_wf_ind. intros t Ha Hc.
  destruct (next_spec Hc) as (k & t1 & Hr & A & _).
  destruct (Token_eqb k End) eqn:Ek.
  - assert (k = End) by (destruct k; try discriminate Ek; reflexivity). subst k.
    exists 0, t1. split; [lia|exact Hr].
  - assert (Hk : k <> End) by (intros ->; discriminate Ek).
    pose proof (@next_fuel_progress _ t k t1 Hc (Nat.lt_succ_diag_r _) Hr Hk) as Hp.
    destruct A as [Hi Ho].
    destruct (IH (availableInput t1)) with (t := t1) as (n & t' & Hn & Hrun).
    + subst a. unfold availableInput. rewrite Hi. unfold cursor_ok in Hc. lia.
    + reflexivity.
    + unfold cursor_ok. rewrite Hi. lia.
    + exists (S n), t'. split.
      * subst a. unfold availableInput in *. rewrite Hi in Hn. lia.
      * cbn [repeat_next]. erewrite bind_Ok by exact Hr. exact Hrun.
Qed.

Lemma next_reaches_End_witness :
  exists n t', n <= 3 /\ repeat_next n (reset ["["; "x"; "]"]%char) = Ok (End, t').
Proof.
  refine (@next_reaches_End (reset ["["; "x"; "]"]%char) _).
  unfold cursor_ok. simpl. lia.
Defined.

(** ** Conversions of tokens that are no numbers *)

(** X22: after a [String] or [FieldName] token the conversions find no
    number at the opening quote.  With at least one byte left behind the
    cursor they convert in place and return 0 and 0.0; with the cursor at
    the end of the buffer they convert the copy, [std::stoll] and
    [std::stod] throw [std::invalid_argument] inside the [noexcept]
    functions, and the program is terminated. *)
Theorem string_token_values (range_error : fvalue -> bool)
        (t : Tokenizer) (k : Token) (t' : Tokenizer) :
  cursor_ok t -> next t = Ok (k, t') -> k = String \/ k = FieldName ->
  intValue t' = (if availableInput t' =? 0 then Terminated else Ok 0%Z) /\
  floatValue range_error t' =
  (if availableInput t' =? 0 then Terminated else Ok (FDec false 0 0)).
Proof.
  intros Hc Hr Hk.
  destruct (next_spec Hc) as (k' & u & Hr' & (Hi & Ho) & Htok & _ & _ & Hs).
  rewrite Hr in Hr'. injection Hr' as <- <-.
  assert (Hq : exists start n,
             0 < n /\ _value t' = {| sv_data := start; sv_size := n |} /\
             nth_error (_input t) start = Some DQUOTE).
  { destruct Hk as [->| ->]; destruct Hs as (start & n & _ & H2 & _ & H4 & H5 & _);
      exists start, n; auto. }
  destruct Hq as (start & n & Hn & Hv & Hq).
  assert (Hhas : hasValue t' = true)
    by (unfold hasValue; rewrite Htok; destruct Hk as [->| ->]; reflexivity).
  unfold intValue, floatValue. rewrite Hhas. cbn [negb].
  unfold sv_bytes. rewrite Hv, Hi. cbn [sv_data sv_size].
  rewrite (skipn_from _ _ Hq).
  destruct n as [|n]; [lia|]. cbn [firstn app].
  destruct (availableInput t' =? 0); split; reflexivity.
Qed.

Lemma string_token_values_witness :
  let t := reset [DQUOTE; "7"; DQUOTE]%char in
  let t' := with_token String
              (with_offset 3 (with_value {| sv_data := 0; sv_size := 3 |} t)) in
  next t = Ok (String, t') /\ intValue t' = Terminated.
Proof.
  cbv zeta.
  assert (Hn : next (reset [DQUOTE; "7"; DQUOTE]%char)
               = Ok (String, with_token String
                               (with_offset 3
                                  (with_value {| sv_data := 0; sv_size := 3 |}
                                     (reset [DQUOTE; "7"; DQUOTE]%char)))))
    by (vm_compute; reflexivity).
  split; [exact Hn|].
  refine (proj1 (@string_token_values (fun _ => false) _ _ _ _ Hn (or_introl eq_refl))).
  unfold cursor_ok. simpl. lia.
Defined.

(** ** Conversions of the copy *)














Lemma string_scan_failures_witness :
  let t := reset [" "; "034"; "a"; "b"]%char in
  next t = Ok (Error, failed UnterminatedString 4 t).
Proof.
  cbv zeta.
  pose proof (@string_scan_failures (reset [" "; "034"; "a"; "b"]%char)
                [" "]%char ["a"; "b"]%char eq_refl eq_refl
                ltac:(discriminate)) as H.
  exact H.
Defined.

(** ** The floating-point value of an integer literal *)










End jsont.

(** * Properties of the statements of [src/statement.hh] *)

Module statement_properties.
Import statement.

(** X17: [add_global] registers its name: afterwards [is_global] holds for
    it, and for every other name [is_global] is what it was.  The result of
    [add_global] tells whether the name was new, so registering a name a
    second time returns [false]; no name is global in the empty set. *)
Theorem add_global_registers (var : string) (variables : StringSet.t) :
  is_global var (snd (add_global var variables)) = true /\
  fst (add_global var variables) = negb (is_global var variables) /\
  fst (add_global var (snd (add_global var variables))) = false /\
  (forall other, other <> var ->
     is_global other (snd (add_global var variables)) = is_global other variables) /\
  is_global var StringSet.empty = false.
Proof.
  unfold add_global, is_global. cbn [fst snd].
  assert (Hin : StringSet.mem var (StringSet.add var variables) = true)
    by (apply StringSet.mem_spec, StringSet.add_spec; now left).
  split; [exact Hin|]. split; [reflexivity|]. split; [now rewrite Hin|]. split.
  - intros other Hne.
    destruct (StringSet.mem other variables) eqn:E.
    + apply StringSet.mem_spec. apply StringSet.add_spec. right.
      now apply StringSet.mem_spec.
    + destruct (StringSet.mem other (StringSet.add var variables)) eqn:E'; [|reflexivity].
      apply StringSet.mem_spec, StringSet.add_spec in E'.
      destruct E' as [E'|E']; [contradiction|].
      apply StringSet.mem_spec in E'. congruence.
  - reflexivity.
Qed.

Lemma add_global_registers_witness :
  is_global "x" (snd (add_global "y" (snd (add_global "x" StringSet.empty))))
  = is_global "x" (snd (add_global "x" StringSet.empty)).
Proof.
  refine (proj1 (proj2 (proj2 (proj2
    (add_global_registers "y" (snd (add_global "x" StringSet.empty))))))
    "x"%string _).
  discriminate.
Defined.

Section Statements.

Variable Expression : Type.
Variable Expression_write : Expression -> list ascii.
Variable driver : Type.

Local Abbreviation Stmt := (Statement Expression driver).
Local Abbreviation Top := (TopLevel driver Stmt).
Local Abbreviation write := (@statement.write Expression Expression_write driver).

(** The text of the statements of a block, one after the other. *)
Lemma write_block (l : list Stmt) (indent : nat) :
  write (BlockStatement l) indent = flat_map (fun s => write s indent) l.
Proof.
  cbn [statement.write]. induction l as [|s l IH]; [reflexivity|].
  cbn [flat_map]. now rewrite <- IH.
Qed.

Lemma write_Stitch (t : Top) (indent : nat) :
  write (StitchStatement t) indent =
  write_header_Stitch t ++ write (BlockStatement (statements t)) indent ++ newline.
Proof. destruct t. reflexivity. Qed.

Lemma write_Knot (k : Knot driver Stmt) (indent : nat) :
  write (KnotStatement k) indent =
  write_header_Knot (top k)
  ++ (write_header_Knot (top k)
      ++ write (BlockStatement (statements (top k))) indent ++ newline)
  ++ newline
  ++ flat_map (fun t => write (StitchStatement t) indent) (stitches k)
  ++ newline.
Proof.
  destruct k as [t ss]. destruct t as [d n hv l]. cbn [top stitches statements].
  cbn [statement.write]. do 3 f_equal.
Qed.

Lemma write_header_variables_first (vars : list (string * bool)) :
  write_header_variables vars true =
  flat_map (fun v : string * bool =>
              (if snd v then text "ref " else []) ++ text (fst v)) vars.
Proof.
  induction vars as [|[varName isRef] rest IH]; [reflexivity|].
  cbn [write_header_variables negb flat_map fst snd app].
  now rewrite IH, <- app_assoc.
Qed.

(** X18: [write_header_base] writes the name and, when there are header
    variables, a parenthesis with every variable in the order of the map,
    each with [ref ] in front when it is passed by reference.  The flag
    [firstVar] is never cleared, so no separator is ever written between
    the variables. *)
Theorem header_variables_unseparated (t : Top) :
  write_header_base t =
  text (name t)
  ++ match headerVariables t with
     | [] => []
     | _ :: _ =>
         text "("
         ++ flat_map (fun v : string * bool =>
              (if snd v then text "ref " else []) ++ text (fst v))
              (headerVariables t)
         ++ text ")"
     end.
Proof.
  unfold write_header_base. destruct (headerVariables t) as [|v vars] eqn:E;
    [reflexivity|].
  now rewrite write_header_variables_first.
Qed.


(** X20: what [add_stitch] does to the text of a knot.  A stitch with
    another name than the knot is written behind the stitches the knot had,
    in front of the knot's last newline.  A stitch with the knot's name is
    not written as a stitch: its statements are written in the place of the
    knot's own statements, which are gone, and its header is not written. *)
Theorem add_stitch_text (stitch : Top) (k : Knot driver Stmt) (indent : nat) :
  if (name stitch =? name (top k))%string
  then
    let header :=
      text "=== " ++ write_header_base (top k) ++ text " ===" ++ newline in
    write (KnotStatement (add_stitch stitch k)) indent =
    header ++ header
    ++ flat_map (fun s => write s indent) (statements stitch)
    ++ newline ++ newline
    ++ flat_map (fun t => write (StitchStatement t) indent) (stitches k)
    ++ newline
  else
    exists body,
      write (KnotStatement k) indent = body ++ newline /\
      write (KnotStatement (add_stitch stitch k)) indent =
      body ++ write (StitchStatement stitch) indent ++ newline.
Proof.
  unfold add_stitch, getName, get_statements, steal_statements. cbn [fst].
  destruct (name stitch =? name (top k))%string.
  - cbv zeta. rewrite write_Knot, write_block. cbn [top stitches].
    unfold write_header_Knot, set_statements, write_header_base.
    cbn [name headerVariables statements].
    now rewrite <- !app_assoc.
  - rewrite !write_Knot. cbn [top stitches].
    eexists. split.
    + rewrite !app_assoc. reflexivity.
    + rewrite flat_map_app. cbn [flat_map]. rewrite app_nil_r.
      rewrite !app_assoc. reflexivity.
Qed.

(** X21: [add_statement] appends to the text of a block: the new statement
    is written behind the statements the block had, at the block's own
    indentation, and four columns deeper in an [ElseStatement]. *)
Theorem add_statement_text (stmt : Stmt) (l : list Stmt) (indent : nat) :
  write (BlockStatement (add_statement stmt l)) indent =
  write (BlockStatement l) indent ++ write stmt indent /\
  write (ElseStatement (add_statement stmt l)) indent =
  write (ElseStatement l) indent ++ write stmt (indent + 4).
Proof.
  assert (H : forall i, write (BlockStatement (l ++ [stmt])) i
                        = write (BlockStatement l) i ++ write stmt i).
  { intros i. rewrite !write_block, flat_map_app. cbn [flat_map].
    now rewrite app_nil_r. }
  unfold add_statement. split; [apply H|].
  change (write (ElseStatement (l ++ [stmt])) indent)
    with (getIndent indent ++ text "- else:" ++ newline
          ++ write (BlockStatement (l ++ [stmt])) (indent + 4)).
  change (write (ElseStatement l) indent)
    with (getIndent indent ++ text "- else:" ++ newline
          ++ write (BlockStatement l) (indent + 4)).
  rewrite H. now rewrite <- !app_assoc.
Qed.

End Statements.
End statement_properties.
